(** * Metric-based mesh adaptation: a shallow embedding of the metric and
      error-estimation drivers

    The development follows [pyroteus/metric.py] and
    [goalie/error_estimation.py].  Floating-point numbers are read as real
    numbers, so every equation below is the exact-arithmetic counterpart
    of a comparison that the Python code makes up to rounding.  The finite
    element layer (meshes, function spaces, assembly, interpolation) is an
    external collaborator of the code; it is represented by nodal data and
    quadrature tables. *)

From Stdlib Require Import String Reals Lra Lia Bool Arith List Permutation.
Import ListNotations.
Open Scope R_scope.

(** ** Exceptions and fallible computations *)

(** The Python exceptions the drivers raise or let through.  The last
    constructor is not an exception: it stands for a call that returns
    fields holding [inf] or [NaN], which real numbers do not represent. *)
Inductive exn : Type :=
| TypeError
| ValueError
| AssertionError
| NotImplementedError
| ZeroDivisionError
| IndexError
| UFLException
| NonFiniteResult.

Inductive result (A : Type) : Type :=
| Ok (a : A)
| Raise (e : exn).

Arguments Ok {A} a.
Arguments Raise {A} e.

Definition bind {A B : Type} (r : result A) (k : A -> result B) : result B :=
  match r with
  | Ok a => k a
  | Raise e => Raise e
  end.

Notation "x <- c ;; k" := (bind c (fun x => k))
  (at level 61, c at next level, right associativity).

(** [assert b] is Python's [assert]. *)
Definition assert (b : bool) : result unit :=
  if b then Ok tt else Raise AssertionError.

(** ** Dense matrices, stored by rows as in [dat.data] *)

Definition Mat : Type := list (list R).

Definition mget (M : Mat) (i j : nat) : R := nth j (nth i M []) 0.

Definition mmk (n : nat) (f : nat -> nat -> R) : Mat :=
  map (fun i => map (f i) (seq 0 n)) (seq 0 n).

Definition wf (n : nat) (M : Mat) : Prop :=
  length M = n /\ Forall (fun r => length r = n) M.

Fixpoint rsum (n : nat) (f : nat -> R) : R :=
  match n with
  | O => 0
  | S k => rsum k f + f k
  end.

Definition mzero (n : nat) : Mat := mmk n (fun _ _ => 0).

Definition mid (n : nat) : Mat :=
  mmk n (fun i j => if Nat.eqb i j then 1 else 0).

Definition mdiag (n : nat) (v : list R) : Mat :=
  mmk n (fun i j => if Nat.eqb i j then nth i v 0 else 0).

Definition mtrans (n : nat) (A : Mat) : Mat :=
  mmk n (fun i j => mget A j i).

Definition mmul (n : nat) (A B : Mat) : Mat :=
  mmk n (fun i j => rsum n (fun k => mget A i k * mget B k j)).

Definition mscale (c : R) (A : Mat) : Mat := map (map (Rmult c)) A.

Definition vadd (u v : list R) : list R :=
  map (fun xy => fst xy + snd xy) (combine u v).

Definition madd (A B : Mat) : Mat :=
  map (fun rs => vadd (fst rs) (snd rs)) (combine A B).

(** [ufl.det], by the closed forms UFL uses for the shapes a mesh of
    topological dimension 1, 2 or 3 gives. *)
Definition det (M : Mat) : R :=
  match length M with
  | 1%nat => mget M 0 0
  | 2%nat => mget M 0 0 * mget M 1 1 - mget M 0 1 * mget M 1 0
  | 3%nat =>
      mget M 0 0 * (mget M 1 1 * mget M 2 2 - mget M 1 2 * mget M 2 1)
      - mget M 0 1 * (mget M 1 0 * mget M 2 2 - mget M 1 2 * mget M 2 0)
      + mget M 0 2 * (mget M 1 0 * mget M 2 1 - mget M 1 1 * mget M 2 0)
  | _ => 0
  end.

(** Symmetry and positive-definiteness of one nodal value. *)
Definition msym (n : nat) (M : Mat) : Prop :=
  forall i j, (i < n)%nat -> (j < n)%nat -> mget M i j = mget M j i.

Definition quad (n : nat) (M : Mat) (x : list R) : R :=
  rsum n (fun i => rsum n (fun j => nth i x 0 * mget M i j * nth j x 0)).

Definition pos_def (n : nat) (M : Mat) : Prop :=
  forall x, (exists i, (i < n)%nat /\ nth i x 0 <> 0) -> 0 < quad n M x.

Definition spd (n : nat) (M : Mat) : Prop :=
  wf n M /\ msym n M /\ pos_def n M.

Definition orthogonal (n : nat) (V : Mat) : Prop :=
  wf n V /\ mmul n (mtrans n V) V = mid n /\ mmul n V (mtrans n V) = mid n.

(** [pow] on floats, over the reals.  A positive base is the case the metric
    code relies on (determinants of positive-definite tensors, positive
    integrals); a zero base gives [0] (or [1] for a zero exponent).  A
    negative base with a fractional exponent has no real value, and no
    statement below reaches that branch. *)
Definition pow (x y : R) : R :=
  if Rlt_dec 0 x then Rpower x y
  else if Req_dec_T y 0 then 1 else 0.

(** ** Meshes, function spaces and fields *)

(** A quadrature point of a cell or of a boundary facet: its weight and the
    barycentric coordinates of the point with respect to the vertices of
    the owning cell. *)
Record QPoint : Type := {
  qweight : R;
  qbary : list R
}.

Record Cell : Type := {
  cell_vertices : list nat;
  cell_volume : R;
  cell_quad : list QPoint
}.

Record Facet : Type := {
  facet_cell : nat;
  facet_tag : nat;
  facet_vertices : list nat;
  facet_quad : list QPoint
}.

Record Mesh : Type := {
  mesh_id : nat;
  topological_dimension : nat;
  num_vertices : nat;
  cells : list Cell;
  exterior_facets : list Facet
}.

(** The two element kinds the drivers build and consume: continuous
    degree 1 (["CG", 1]) and piecewise constant (["DG", 0]). *)
Inductive Element : Type := P1 | P0.

Record FunctionSpace : Type := {
  fs_mesh : Mesh;
  fs_element : Element;
  value_shape : list nat
}.

Definition element_eqb (a b : Element) : bool :=
  match a, b with
  | P1, P1 | P0, P0 => true
  | _, _ => false
  end.

(** Function spaces are compared as Firedrake does: same mesh object, same
    element. *)
Definition fs_eqb (V W : FunctionSpace) : bool :=
  Nat.eqb (mesh_id (fs_mesh V)) (mesh_id (fs_mesh W))
  && element_eqb (fs_element V) (fs_element W)
  && (if list_eq_dec Nat.eq_dec (value_shape V) (value_shape W)
      then true else false).

Definition node_count (V : FunctionSpace) : nat :=
  match fs_element V with
  | P1 => num_vertices (fs_mesh V)
  | P0 => length (cells (fs_mesh V))
  end.

Definition node_set (V : FunctionSpace) : list nat := seq 0 (node_count V).

(** Values of the nodal basis at a quadrature point of cell number [c]:
    pairs of a node and the value of its basis function. *)
Definition basis_at (e : Element) (c : nat) (K : Cell) (q : QPoint)
  : list (nat * R) :=
  match e with
  | P1 => combine (cell_vertices K) (qbary q)
  | P0 => [(c, 1)]
  end.

Definition indexed {A : Type} (l : list A) : list (nat * A) :=
  combine (seq 0 (length l)) l.

(** The quadrature table of [dx]: weight and basis values per point. *)
Definition quad_dx (V : FunctionSpace) : list (R * list (nat * R)) :=
  flat_map (fun cK =>
              map (fun q => (qweight q, basis_at (fs_element V) (fst cK) (snd cK) q))
                  (cell_quad (snd cK)))
           (indexed (cells (fs_mesh V))).

(** The quadrature table of [ds]. *)
Definition quad_ds (V : FunctionSpace) : list (R * list (nat * R)) :=
  flat_map (fun f =>
              match nth_error (cells (fs_mesh V)) (facet_cell f) with
              | Some K =>
                  map (fun q => (qweight q,
                                 basis_at (fs_element V) (facet_cell f) K q))
                      (facet_quad f)
              | None => []
              end)
           (exterior_facets (fs_mesh V)).

(** A [firedrake.Function]: its space and its nodal values. *)
Record Function (V : Type) : Type := {
  function_space : FunctionSpace;
  dat : list V
}.

Arguments function_space {V} f.
Arguments dat {V} f.

(** A combination of nodal quantities with the basis values at a point. *)
Definition lincomb (g : nat -> R) (phi : list (nat * R)) : R :=
  fold_right (fun kp acc => snd kp * g (fst kp) + acc) 0 phi.

(** Value of a tensor field at a quadrature point. *)
Definition eval_tensor (n : nat) (data : list Mat) (phi : list (nat * R)) : Mat :=
  mmk n (fun i j => lincomb (fun k => mget (nth k data []) i j) phi).

(** Value of a scalar field at a quadrature point. *)
Definition eval_scalar (data : list R) (phi : list (nat * R)) : R :=
  lincomb (fun k => nth k data 0) phi.

Definition weighted_sum (l : list (R * R)) : R :=
  fold_right (fun wv acc => fst wv * snd wv + acc) 0 l.

(** [firedrake.assemble(f(M)*dX)] for a tensor field [M], where [dX] is
    [ufl.ds] when [boundary] and [ufl.dx] otherwise. *)
Definition assemble_tensor (boundary : bool) (M : Function Mat) (f : Mat -> R) : R :=
  let V := function_space M in
  let n := topological_dimension (fs_mesh V) in
  weighted_sum
    (map (fun wp => (fst wp, f (eval_tensor n (dat M) (snd wp))))
         (if boundary then quad_ds V else quad_dx V)).

(** ** General *)

(** [metric_complexity(metric, boundary=False)] *)
Definition metric_complexity (metric : Function Mat) (boundary : bool) : R :=
  assemble_tensor boundary metric (fun M => sqrt (det M)).

(** ** Normalisation *)

(** The normalisation order: the string ["inf"] or a number. *)
Inductive norm_order : Type :=
| Inf
| Order (p : R).

Definition valid_order (p : norm_order) : bool :=
  match p with
  | Inf => true
  | Order p => if Rle_dec 1 p then true else false
  end.

(** [space_normalise(metric, target, p, global_factor=None, boundary=False)].
    [metric.interpolate(expr)] evaluates [expr] at the nodes of the metric's
    own space; the field returned is the updated metric. *)
Definition space_normalise (metric : Function Mat) (target : R) (p : norm_order)
    (global_factor : option R) (boundary : bool) : result (Function Mat) :=
  _ <- assert (valid_order p) ;;
  let d := (topological_dimension (fs_mesh (function_space metric))
            - (if boundary then 1 else 0))%nat in
  factor <-
    match global_factor with
    | Some g => Ok g
    | None =>
        let integral :=
          assemble_tensor boundary metric
            (fun M => pow (det M)
                        match p with
                        | Inf => 0.5
                        | Order p => p / (2 * p + INR d)
                        end) in
        if Nat.eqb d 0 then Raise ZeroDivisionError
        else Ok (pow (target / integral) (2 / INR d))
    end ;;
  let determinant (M : Mat) :=
    match p with
    | Inf => 1
    | Order p => pow (det M) (- 1 / (2 * p + INR d))
    end in
  Ok {| function_space := function_space metric;
        dat := map (fun M => mscale (factor * determinant M) M) (dat metric) |}.

(** ** Well-formed finite-element data *)

Definition valid_qpoint (nv : nat) (q : QPoint) : Prop :=
  0 < qweight q /\
  length (qbary q) = nv /\
  Forall (fun b => 0 <= b) (qbary q) /\
  fold_right Rplus 0 (qbary q) = 1.

Definition valid_cell (m : Mesh) (K : Cell) : Prop :=
  length (cell_vertices K) = S (topological_dimension m) /\
  Forall (fun v => (v < num_vertices m)%nat) (cell_vertices K) /\
  0 < cell_volume K /\
  cell_quad K <> [] /\
  Forall (valid_qpoint (S (topological_dimension m))) (cell_quad K).

Definition valid_facet (m : Mesh) (f : Facet) : Prop :=
  (facet_cell f < length (cells m))%nat /\
  Forall (valid_qpoint (S (topological_dimension m))) (facet_quad f).

Definition valid_mesh (m : Mesh) : Prop :=
  cells m <> [] /\
  Forall (valid_cell m) (cells m) /\
  Forall (valid_facet m) (exterior_facets m).

(** A metric field: a tensor field of shape [d x d] on a well-formed mesh
    of dimension [d], with one symmetric positive-definite value per
    node. *)
Definition valid_metric (M : Function Mat) : Prop :=
  let V := function_space M in
  let d := topological_dimension (fs_mesh V) in
  valid_mesh (fs_mesh V) /\
  value_shape V = [d; d] /\
  length (dat M) = node_count V /\
  Forall (spd d) (dat M).

(** Basis values at a point: nodes of the space, non-negative values that
    sum to one. *)
Definition convex_basis (N : nat) (phi : list (nat * R)) : Prop :=
  Forall (fun kp => (fst kp < N)%nat /\ 0 <= snd kp) phi /\
  lincomb (fun _ => 1) phi = 1.

(** ** A reference mesh: one right triangle *)

(** The edge-midpoint rule on the triangle with vertices (0,0), (1,0),
    (0,1); it is exact for polynomials of degree 2. *)
Definition midpoint_rule : list QPoint :=
  [ {| qweight := / 6; qbary := [/ 2; / 2; 0] |};
    {| qweight := / 6; qbary := [0; / 2; / 2] |};
    {| qweight := / 6; qbary := [/ 2; 0; / 2] |} ].

Definition triangle_cell : Cell :=
  {| cell_vertices := [0; 1; 2]%nat;
     cell_volume := / 2;
     cell_quad := midpoint_rule |}.

Definition triangle_mesh : Mesh :=
  {| mesh_id := 0;
     topological_dimension := 2;
     num_vertices := 3;
     cells := [triangle_cell];
     exterior_facets :=
       [ {| facet_cell := 0; facet_tag := 1; facet_vertices := [0; 1]%nat;
            facet_quad := [ {| qweight := 1; qbary := [/ 2; / 2; 0] |} ] |};
         {| facet_cell := 0; facet_tag := 2; facet_vertices := [1; 2]%nat;
            facet_quad := [ {| qweight := sqrt 2; qbary := [0; / 2; / 2] |} ] |};
         {| facet_cell := 0; facet_tag := 3; facet_vertices := [0; 2]%nat;
            facet_quad := [ {| qweight := 1; qbary := [/ 2; 0; / 2] |} ] |} ] |}.

Definition tensor_space (m : Mesh) (e : Element) : FunctionSpace :=
  {| fs_mesh := m;
     fs_element := e;
     value_shape := [topological_dimension m; topological_dimension m] |}.

(** The isotropic tensor [m * Identity(2)]. *)
Definition iso2 (m : R) : Mat := [[m; 0]; [0; m]].

(** A continuous piecewise-linear metric that is not constant. *)
Definition graded_metric : Function Mat :=
  {| function_space := tensor_space triangle_mesh P1;
     dat := [iso2 1; iso2 1; iso2 49] |}.

(** An isotropic continuous field on the reference triangle, by its three
    vertex values, and a piecewise-constant one, by its cell value. *)
Definition iso_field (a b c : R) : Function Mat :=
  {| function_space := tensor_space triangle_mesh P1;
     dat := [iso2 a; iso2 b; iso2 c] |}.

Definition iso_cell_field (a : R) : Function Mat :=
  {| function_space := tensor_space triangle_mesh P0;
     dat := [iso2 a] |}.

(** ** Parallel loops over node sets *)

(** [op2.par_loop(kernel, node_set, out.dat(RW), in1.dat(READ))]: the
    kernel is run at every node of the set and writes the output value of
    that node; nodes outside the set keep their value. *)
Definition par_loop1 (kernel : Mat -> Mat) (nodes : list nat)
    (out in1 : list Mat) : list Mat :=
  map (fun io =>
         if existsb (Nat.eqb (fst io)) nodes
         then kernel (nth (fst io) in1 [])
         else snd io)
      (indexed out).

(** The same with two read-only arguments.  An argument is read at the
    index of the node; PyOP2 is not among the sources, and a node that an
    argument does not hold is read as the empty matrix. *)
Definition par_loop2 (kernel : Mat -> Mat -> Mat) (nodes : list nat)
    (out in1 in2 : list Mat) : list Mat :=
  map (fun io =>
         if existsb (Nat.eqb (fst io)) nodes
         then kernel (nth (fst io) in1 []) (nth (fst io) in2 [])
         else snd io)
      (indexed out).

(** The nodal values of [firedrake.Function(fs)] for a tensor space. *)
Definition zeros (fs : FunctionSpace) : list Mat :=
  repeat (mzero (nth 0 (value_shape fs) 0%nat)) (node_count fs).

(** [V * diag(lam) * V^T] *)
Definition recompose (n : nat) (V : Mat) (lam : list R) : Mat :=
  mmul n (mmul n V (mdiag n lam)) (mtrans n V).

(** ** Hessian-based metrics *)

Section HessianMetric.

(** The symmetric eigensolver of the dense linear algebra library the
    kernels call: eigenvectors (as columns) and eigenvalues. *)
Variable eig : nat -> Mat -> Mat * list R.

(** The small positive floor for eigenvalues. *)
Variable eps : R.

Definition clamp_eigenvalue (lam : R) : R :=
  if Rlt_dec 0 lam then lam else Rmax (Rabs lam) eps.

(** Modelled from the spec: the kernel [metric_from_hessian] of
    [pyroteus/kernel.py], which is not among the sources.  "Replace
    negative or zero eigenvalues with their absolute value (floored at a
    small positive epsilon) and recompose." *)
Definition metric_from_hessian (n : nat) (H : Mat) : Mat :=
  let (V, lam) := eig n H in
  recompose n V (map clamp_eigenvalue lam).

(** [hessian_metric(hessian)] *)
Definition hessian_metric (hessian : Function Mat) : result (Function Mat) :=
  let fs := function_space hessian in
  let shape := value_shape fs in
  if negb (Nat.eqb (length shape) 2) then Raise ValueError
  else if negb (Nat.eqb (nth 0 shape 0%nat) (nth 1 shape 0%nat)) then Raise ValueError
  else
    Ok {| function_space := fs;
          dat := par_loop1 (metric_from_hessian (nth 0 shape 0%nat))
                           (node_set fs) (zeros fs) (dat hessian) |}.

(** What the eigensolver guarantees on a symmetric input. *)
Definition eig_ok (n : nat) (H : Mat) : Prop :=
  orthogonal n (fst (eig n H)) /\
  length (snd (eig n H)) = n /\
  H = recompose n (fst (eig n H)) (snd (eig n H)).

End HessianMetric.

(** Column [k] of a matrix, as a vector. *)
Definition column (n : nat) (V : Mat) (k : nat) : list R :=
  map (fun i => mget V i k) (seq 0 n).

(** A tensor has positive eigenvalues when it has an orthogonal
    eigendecomposition whose eigenvalues are all positive. *)
Definition positive_eigenvalues (n : nat) (M : Mat) : Prop :=
  exists V lam, orthogonal n V /\ length lam = n /\
                Forall (fun l => 0 < l) lam /\ M = recompose n V lam.

(** An eigensolver that is exact on diagonal 2 x 2 tensors, and a Hessian
    field with an indefinite, a definite and a singular nodal value. *)
Definition diag_eig (n : nat) (H : Mat) : Mat * list R :=
  (mid n, [mget H 0 0; mget H 1 1]).

Definition diag2 (a b : R) : Mat := [[a; 0]; [0; b]].

Definition example_hessian : Function Mat :=
  {| function_space := tensor_space triangle_mesh P1;
     dat := [diag2 (-2) 3; diag2 1 1; diag2 0 5] |}.

(** ** Complexity allocation between interior and boundary *)

(** The coefficients [a] and [b] of the algebraic problem, as
    [determine_metric_complexity] assembles them; a scaling that is not
    given is [Constant(1.0)]. *)
Definition complexity_coefficients (H_interior H_boundary : Function Mat)
    (p : R) (H_interior_scaling H_boundary_scaling : option R) : R * R :=
  let d := INR (topological_dimension (fs_mesh (function_space H_interior))) in
  let g := pow (match H_interior_scaling with Some s => s | None => 1 end)
               (d / (2 * p + d)) in
  let gbar := pow (match H_boundary_scaling with Some s => s | None => 1 end)
                  (d / (2 * p + d - 1)) in
  (assemble_tensor false H_interior (fun M => g * pow (det M) (p / (2 * p + d))),
   assemble_tensor true H_boundary (fun M => gbar * pow (det M) (p / (2 * p + d - 1)))).

(** The expression handed to the solver,
    [a*pow(c, d/2) + b*pow(c, (d-1)/2) - target], as a function of the
    unknown [c]. *)
Definition complexity_residual (d : nat) (a b target : R) (c : R) : R :=
  a * pow c (INR d / 2) + b * pow c ((INR d - 1) / 2) - target.

(** The equation of the claim, at a candidate [c]. *)
Definition complexity_equation (d : nat) (a b target c : R) : Prop :=
  a * pow c (INR d / 2) + b * pow c ((INR d - 1) / 2) - target = 0.

(** A number as the computer algebra system returns it: real, or of
    complex type (whatever the size of its imaginary part). *)
Inductive sym_number : Type :=
| SymReal (r : R)
| SymComplex (re im : R).

(** [float(x)]: a number of complex type cannot be converted. *)
Definition to_float (x : sym_number) : result R :=
  match x with
  | SymReal r => Ok r
  | SymComplex _ _ => Raise TypeError
  end.

Section ComplexitySolve.

(** [sympy.solve(expr, c)]: the list of solutions the computer algebra
    system returns for the expression. *)
Variable sympy_solve : (R -> R) -> list sym_number.

(** [determine_metric_complexity(H_interior, H_boundary, target, p,
    **kwargs)] *)
Definition determine_metric_complexity (H_interior H_boundary : Function Mat)
    (target : R) (p : norm_order)
    (H_interior_scaling H_boundary_scaling : option R) : result R :=
  let d := topological_dimension (fs_mesh (function_space H_interior)) in
  _ <- assert (Nat.eqb d 2 || Nat.eqb d 3) ;;
  match p with
  | Inf => Raise NotImplementedError
  | Order p =>
      let ab := complexity_coefficients H_interior H_boundary p
                  H_interior_scaling H_boundary_scaling in
      match sympy_solve (complexity_residual d (fst ab) (snd ab) target) with
      | [] => Raise ValueError
      | [c] => to_float c
      | _ :: _ :: _ => Raise ValueError
      end
  end.

End ComplexitySolve.

(** What is asked of the solver on an expression [f]: every real number
    it returns is a zero of [f], and it misses no positive zero. *)
Definition solver_sound (f : R -> R) (roots : list sym_number) : Prop :=
  forall c, In (SymReal c) roots -> f c = 0.

Definition solver_complete (f : R -> R) (roots : list sym_number) : Prop :=
  forall c, 0 < c -> f c = 0 -> In (SymReal c) roots.

(** A solver that tries the candidates 1 and 0 and returns the first that
    is a zero of the expression. *)
Definition candidate_solver (f : R -> R) : list sym_number :=
  if Req_dec_T (f 1) 0 then [SymReal 1]
  else if Req_dec_T (f 0) 0 then [SymReal 0]
  else [].

(** ** Combination *)

(** [y += w * x] on nodal values. *)
Definition field_axpy (w : R) (x y : list Mat) : list Mat :=
  map (fun yx => madd (fst yx) (mscale w (snd yx))) (combine y x).

Section Relaxation.

(** [firedrake.interpolate(metric, function_space)], where the target
    space may be [None]. *)
Variable interpolate : Function Mat -> option FunctionSpace -> result (Function Mat).

(** The body of the loop [for weight, metric in zip(weights, metrics)]. *)
Fixpoint relaxation_loop (fs : FunctionSpace) (function_space_ : option FunctionSpace)
    (wm : list (R * Function Mat)) (relaxed : list Mat) : result (list Mat) :=
  match wm with
  | [] => Ok relaxed
  | (weight, metric) :: rest =>
      metric' <- (if fs_eqb (function_space metric) fs then Ok metric
                  else interpolate metric function_space_) ;;
      relaxation_loop fs function_space_ rest
                      (field_axpy weight (dat metric') relaxed)
  end.

(** [metric_relaxation(metrics..., weights=None, function_space=None)].
    [weights or np.ones(n)/n] replaces [None] and the empty list, both
    false in Python, by uniform weights. *)
Definition metric_relaxation (metrics : list (Function Mat))
    (weights : option (list R)) (function_space_ : option FunctionSpace)
  : result (Function Mat) :=
  match metrics with
  | [] => Raise AssertionError
  | first :: _ =>
      let n := length metrics in
      let weights :=
        match weights with
        | Some (w :: ws) => w :: ws
        | Some [] | None => repeat (1 / INR n) n
        end in
      if negb (Nat.eqb (length weights) n) then Raise ValueError
      else
        let fs := match function_space_ with
                  | Some fs => fs
                  | None => function_space first
                  end in
        relaxed <- relaxation_loop fs function_space_
                     (combine weights metrics) (zeros fs) ;;
        Ok {| function_space := fs; dat := relaxed |}
  end.

End Relaxation.

(** An interpolation that refuses a missing target space and otherwise
    keeps the nodal values; it stands for the library routine where the
    routine is not reached. *)
Definition interpolate_stub (f : Function Mat) (target : option FunctionSpace)
  : result (Function Mat) :=
  match target with
  | None => Raise TypeError
  | Some fs => Ok {| function_space := fs; dat := dat f |}
  end.

(** ** Function objects and the store *)

(** Python [Function] objects are references.  A store holds the live
    objects; a location is the position of its object. *)
Definition loc : Type := nat.
Definition heap : Type := list (Function Mat).

(** Computations that read and extend the store and may raise. *)
Definition St (A : Type) : Type := heap -> result (A * heap).

Definition ret {A : Type} (a : A) : St A := fun h => Ok (a, h).

Definition raise {A : Type} (e : exn) : St A := fun _ => Raise e.

Definition bindS {A B : Type} (m : St A) (k : A -> St B) : St B :=
  fun h => match m h with
           | Ok (a, h') => k a h'
           | Raise e => Raise e
           end.

Notation "x <~ c ;; k" := (bindS c (fun x => k))
  (at level 61, c at next level, right associativity).

Definition lift {A : Type} (r : result A) : St A :=
  fun h => match r with
           | Ok a => Ok (a, h)
           | Raise e => Raise e
           end.

(** Reading an operand; a location that holds no [Function] is an operand
    that is not a [Function] object. *)
Definition load (l : loc) : St (Function Mat) :=
  fun h => match nth_error h l with
           | Some f => Ok (f, h)
           | None => Raise TypeError
           end.

(** [firedrake.Function(f)]: a new object with a copy of the data. *)
Definition new_function (f : Function Mat) : St loc :=
  fun h => Ok (length h, h ++ [f]).

Fixpoint list_set {A : Type} (l : list A) (i : nat) (a : A) : list A :=
  match l, i with
  | [], _ => []
  | _ :: l', O => a :: l'
  | x :: l', S i' => x :: list_set l' i' a
  end.

(** Writing the data of an existing object. *)
Definition store_dat (l : loc) (data : list Mat) : St unit :=
  fun h => match nth_error h l with
           | Some f => Ok (tt, list_set h l {| function_space := function_space f;
                                                dat := data |})
           | None => Raise TypeError
           end.

(** ** Intersection *)

(** The node set of [DirichletBC(fs, 0, boundary_tag)]: the nodes on the
    exterior facets that carry one of the tags. *)
Definition boundary_node_set (fs : FunctionSpace) (tags : list nat) : list nat :=
  match fs_element fs with
  | P1 =>
      flat_map (fun f => if existsb (Nat.eqb (facet_tag f)) tags
                         then facet_vertices f else [])
               (exterior_facets (fs_mesh fs))
  | P0 => []
  end.

Definition diagonal (n : nat) (M : Mat) : list R :=
  map (fun i => mget M i i) (seq 0 n).

Definition is_diagonal (n : nat) (M : Mat) : Prop :=
  forall i j, (i < n)%nat -> (j < n)%nat -> i <> j -> mget M i j = 0.

Definition vmax (a b : list R) : list R :=
  map (fun xy => Rmax (fst xy) (snd xy)) (combine a b).

Section Intersection.

Variable interpolate : Function Mat -> option FunctionSpace -> result (Function Mat).

(** The dense linear algebra the kernel calls: a basis (as columns) that
    diagonalises two symmetric tensors simultaneously, and the matrix
    inverse. *)
Variable eigenbasis : nat -> Mat -> Mat -> Mat.
Variable inverse : nat -> Mat -> Mat.

(** Modelled from the spec: the kernel [intersect] of
    [pyroteus/kernel.py], which is not among the sources.  "The standard
    SPD-intersection construction via simultaneous eigendecomposition":
    in a basis [P] in which both tensors are diagonal, keep the larger
    of the two diagonal entries in each direction. *)
Definition intersect (n : nat) (A B : Mat) : Mat :=
  let P := eigenbasis n A B in
  let Pinv := inverse n P in
  let a := diagonal n (mmul n (mmul n (mtrans n P) A) P) in
  let b := diagonal n (mmul n (mmul n (mtrans n P) B) P) in
  mmul n (mmul n (mtrans n Pinv) (mdiag n (vmax a b))) Pinv.

(** The loop [for metric in metrics] that interpolates operands living
    in another space and rebinds only the loop variable. *)
Fixpoint interpolate_operands (fs : FunctionSpace)
    (function_space_ : option FunctionSpace) (metrics : list loc) : St unit :=
  match metrics with
  | [] => ret tt
  | metric :: rest =>
      f <~ load metric ;;
      _ <~ (if fs_eqb (function_space f) fs then ret tt
            else g <~ lift (interpolate f function_space_) ;;
                 _ <~ new_function g ;;
                 ret tt) ;;
      interpolate_operands fs function_space_ rest
  end.

(** The inner function [intersect_pair(M1, M2)]. *)
Definition intersect_pair (dim : nat) (nodes : list nat) (M1 M2 : loc) : St loc :=
  f1 <~ load M1 ;;
  M12 <~ new_function f1 ;;
  f2 <~ load M2 ;;
  _ <~ store_dat M12 (par_loop2 (intersect dim) nodes (dat f1) (dat f1) (dat f2)) ;;
  ret M12.

(** The loop [for metric in metrics[1:]]. *)
Fixpoint intersect_rest (dim : nat) (nodes : list nat) (intersected : loc)
    (rest : list loc) : St loc :=
  match rest with
  | [] => ret intersected
  | metric :: rest' =>
      M12 <~ intersect_pair dim nodes intersected metric ;;
      intersect_rest dim nodes M12 rest'
  end.

(** [metric_intersection(metrics..., function_space=None,
    boundary_tag=None)] *)
Definition metric_intersection (metrics : list loc)
    (function_space_ : option FunctionSpace) (boundary_tag : option (list nat))
  : St loc :=
  match metrics with
  | [] => raise AssertionError
  | first :: rest =>
      f0 <~ load first ;;
      let fs := match function_space_ with
                | Some fs => fs
                | None => function_space f0
                end in
      _ <~ interpolate_operands fs function_space_ metrics ;;
      intersected_metric <~ new_function f0 ;;
      nodes <~ match boundary_tag with
               | None => ret (node_set fs)
               | Some [] => raise ValueError
               | Some tags => ret (boundary_node_set fs tags)
               end ;;
      let dim := topological_dimension (fs_mesh fs) in
      _ <~ lift (assert (Nat.eqb dim 2 || Nat.eqb dim 3)) ;;
      intersect_rest dim nodes intersected_metric rest
  end.

(** What the linear algebra guarantees for two symmetric
    positive-definite tensors. *)
Definition eigenbasis_ok (n : nat) (A B : Mat) : Prop :=
  let P := eigenbasis n A B in
  let Pinv := inverse n P in
  wf n P /\ wf n Pinv /\
  mmul n P Pinv = mid n /\ mmul n Pinv P = mid n /\
  is_diagonal n (mmul n (mmul n (mtrans n P) A) P) /\
  is_diagonal n (mmul n (mmul n (mtrans n P) B) P).

End Intersection.

(** The value the fold [for metric in metrics[1:]] computes from the data of
    the first operand [f0] and of the other operands, over the node set
    [nodes]. *)
Definition intersection_value (eigenbasis : nat -> Mat -> Mat -> Mat)
    (inverse : nat -> Mat -> Mat) (dim : nat) (nodes : list nat)
    (f0 : Function Mat) (others : list (Function Mat)) : Function Mat :=
  {| function_space := function_space f0;
     dat := fold_left
              (fun acc f => par_loop2 (intersect eigenbasis inverse dim) nodes
                                      acc acc (dat f))
              others (dat f0) |}.

(** The node set selected by [boundary_tag], when it is not the empty
    list. *)
Definition intersection_nodes (fs : FunctionSpace) (boundary_tag : option (list nat))
  : list nat :=
  match boundary_tag with
  | None => node_set fs
  | Some tags => boundary_node_set fs tags
  end.

(** The operands at the locations [ms] of the store [h]. *)
Definition operands (h : heap) (ms : list loc) (fs : list (Function Mat)) : Prop :=
  Forall2 (fun m f => nth_error h m = Some f) ms fs.

(** Linear algebra that is exact on diagonal tensors: the canonical basis
    diagonalises any two of them. *)
Definition canonical_basis (n : nat) (A B : Mat) : Mat := mid n.

Definition canonical_inverse (n : nat) (P : Mat) : Mat := mid n.

(** A store with two isotropic metrics on the reference triangle. *)
Definition example_store : heap := [iso_field 1 2 3; iso_field 4 1 2].

(** The reference triangle as a second mesh object, a store whose second
    metric lives on it, and an interpolation whose result is told apart
    from its argument: the zero field of the target space. *)
Definition triangle_mesh_copy : Mesh :=
  {| mesh_id := 4;
     topological_dimension := topological_dimension triangle_mesh;
     num_vertices := num_vertices triangle_mesh;
     cells := cells triangle_mesh;
     exterior_facets := exterior_facets triangle_mesh |}.

Definition mixed_store : heap :=
  [iso_field 1 2 3;
   {| function_space := tensor_space triangle_mesh_copy P1;
      dat := [iso2 4; iso2 1; iso2 2] |}].

Definition interpolate_zero (f : Function Mat) (target : option FunctionSpace)
  : result (Function Mat) :=
  match target with
  | None => Raise TypeError
  | Some fs => Ok {| function_space := fs; dat := zeros fs |}
  end.

(** ** Element constraints *)

Definition scalar_space (m : Mesh) (e : Element) : FunctionSpace :=
  {| fs_mesh := m; fs_element := e; value_shape := [] |}.

(** A bound as the caller gives it for one metric: a number or a field. *)
Inductive hval : Type :=
| Number (r : R)
| Field (f : Function R).

(** The arguments [h_min], [h_max] and [a_max]: one number for all metrics,
    or one bound per metric. *)
Inductive hspec : Type :=
| Scalar (r : R)
| PerMetric (l : list hval).

(** [x.vector().gather().min()] *)
Definition vector_min (l : list R) : result R :=
  match l with
  | [] => Raise ValueError
  | x :: l' => Ok (fold_right Rmin x l')
  end.

(** [np.isclose(a, b)] with the default tolerances. *)
Definition isclose (a b : R) : bool :=
  if Rle_dec (Rabs (a - b)) (1e-8 + 1e-5 * Rabs b) then true else false.

(** [firedrake.assemble(f(u, v)*dx)] for two scalar fields of one space. *)
Definition assemble_scalar2 (V : FunctionSpace) (u v : list R) (f : R -> R -> R) : R :=
  weighted_sum
    (map (fun wp => (fst wp, f (eval_scalar u (snd wp)) (eval_scalar v (snd wp))))
         (quad_dx V)).

(** The loop of the kernel [postproc_metric] over a node set. *)
Definition par_loop_constraints (kernel : Mat -> R -> R -> R -> Mat)
    (nodes : list nat) (out : list Mat) (hmin hmax amax : list R) : list Mat :=
  map (fun io =>
         if existsb (Nat.eqb (fst io)) nodes
         then kernel (snd io) (nth (fst io) hmin 0) (nth (fst io) hmax 0)
                     (nth (fst io) amax 0)
         else snd io)
      (indexed out).

Section ElementConstraints.

(** [clement_interpolant] of [pyroteus/interpolation.py] and the kernel
    [postproc_metric] of [pyroteus/kernel.py]; neither is among the
    sources. *)
Variable clement_interpolant : Function R -> Function R.
Variable postproc_metric : nat -> Mat -> R -> R -> R -> Mat.

(** [(clement_interpolant if isinstance(h, Function) else
    Function(P1).assign)(h)] *)
Definition lift_bound (mesh : Mesh) (h : hval) : Function R :=
  match h with
  | Field f => clement_interpolant f
  | Number r => {| function_space := scalar_space mesh P1;
                   dat := repeat r (num_vertices mesh) |}
  end.

(** The block under [if not optimise]. *)
Definition check_bounds (mesh : Mesh) (hmin hmax amax : Function R) : result unit :=
  _hmin <- vector_min (dat hmin) ;;
  _ <- assert (if Rlt_dec 0 _hmin then true else false) ;;
  hmax_min <- vector_min (dat hmax) ;;
  _ <- assert (if Rlt_dec _hmin hmax_min then true else false) ;;
  _ <- assert (isclose
                 (assemble_scalar2 (scalar_space mesh P1) (dat hmax) (dat hmin)
                    (fun x y => if Rlt_dec x y then 1 else 0))
                 0) ;;
  amax_min <- vector_min (dat amax) ;;
  assert (if Rlt_dec 1 amax_min then true else false).

(** One turn of the loop over [zip(metrics, h_min, h_max, a_max)]. *)
Definition constrain_metric (metric : Function Mat) (hmin hmax amax : hval)
    (boundary_tag : option (list nat)) (optimise : bool)
  : result (Function Mat) :=
  let fs := function_space metric in
  let mesh := fs_mesh fs in
  let hmin := lift_bound mesh hmin in
  let hmax := lift_bound mesh hmax in
  let amax := lift_bound mesh amax in
  _ <- (if optimise then Ok tt else check_bounds mesh hmin hmax amax) ;;
  let dim := topological_dimension mesh in
  let nodes := match boundary_tag with
               | None => node_set fs
               | Some tags => boundary_node_set fs tags
               end in
  Ok {| function_space := fs;
        dat := par_loop_constraints (postproc_metric dim) nodes (dat metric)
                 (dat hmin) (dat hmax) (dat amax) |}.

(** The loop over [zip(metrics, h_min, h_max, a_max)] and the [return
    metrics] after it: the metrics are updated in place, so the list
    returned also holds the metrics that [zip] left out. *)
Fixpoint constrain_all (metrics : list (Function Mat)) (h_min h_max a_max : list hval)
    (boundary_tag : option (list nat)) (optimise : bool)
  : result (list (Function Mat)) :=
  match metrics, h_min, h_max, a_max with
  | metric :: metrics', hmin :: h_min', hmax :: h_max', amax :: a_max' =>
      m <- constrain_metric metric hmin hmax amax boundary_tag optimise ;;
      ms <- constrain_all metrics' h_min' h_max' a_max' boundary_tag optimise ;;
      Ok (m :: ms)
  | _, _, _, _ => Ok metrics
  end.

Definition broadcast (n : nat) (h : hspec) : list hval :=
  match h with
  | Scalar r => repeat (Number r) n
  | PerMetric l => l
  end.

(** [enforce_element_constraints(metrics, h_min, h_max, a_max,
    boundary_tag=None, optimise=False)]; the list returned is the list of
    all the metrics, updated as far as [zip] pairs them with bounds. *)
Definition enforce_element_constraints (metrics : list (Function Mat))
    (h_min h_max a_max : hspec) (boundary_tag : option (list nat))
    (optimise : bool) : result (list (Function Mat)) :=
  let n := length metrics in
  constrain_all metrics (broadcast n h_min) (broadcast n h_max) (broadcast n a_max)
                boundary_tag optimise.

(** The four tests of [check_bounds], as a proposition. *)
Definition bounds_accepted (mesh : Mesh) (hmin hmax amax : Function R) : Prop :=
  exists a b c,
    vector_min (dat hmin) = Ok a /\ vector_min (dat hmax) = Ok b /\
    vector_min (dat amax) = Ok c /\
    0 < a /\ a < b /\
    Rabs (assemble_scalar2 (scalar_space mesh P1) (dat hmax) (dat hmin)
            (fun x y => if Rlt_dec x y then 1 else 0) - 0)
      <= 1e-8 + 1e-5 * Rabs 0 /\
    1 < c.

End ElementConstraints.

(** Modelled from the spec: [clement_interpolant] of
    [pyroteus/interpolation.py], which is not among the sources.  "An
    area-weighted local-patch average": the value at a vertex is the
    average, weighted by cell volume, of the values on the cells that
    contain the vertex. *)
Definition clement_patch_average (f : Function R) : Function R :=
  let mesh := fs_mesh (function_space f) in
  {| function_space := scalar_space mesh P1;
     dat :=
       map (fun v =>
              let patch :=
                filter (fun cK => existsb (Nat.eqb v) (cell_vertices (snd cK)))
                       (indexed (cells mesh)) in
              weighted_sum
                (map (fun cK => (cell_volume (snd cK), nth (fst cK) (dat f) 0)) patch)
              / fold_right Rplus 0 (map (fun cK => cell_volume (snd cK)) patch))
           (seq 0 (num_vertices mesh)) |}.

(** A stand-in for the clamping kernel, which the validation does not
    look at. *)
Definition postproc_identity (dim : nat) (M : Mat) (hmin hmax amax : R) : Mat := M.

(** The unit square cut into two triangles along the diagonal from vertex
    1 = (1,0) to vertex 2 = (0,1). *)
Definition square_mesh : Mesh :=
  {| mesh_id := 1;
     topological_dimension := 2;
     num_vertices := 4;
     cells :=
       [ {| cell_vertices := [0; 1; 2]%nat; cell_volume := / 2;
            cell_quad := midpoint_rule |};
         {| cell_vertices := [1; 2; 3]%nat; cell_volume := / 2;
            cell_quad := midpoint_rule |} ];
     exterior_facets :=
       [ {| facet_cell := 0; facet_tag := 1; facet_vertices := [0; 1]%nat;
            facet_quad := [ {| qweight := 1; qbary := [/ 2; / 2; 0] |} ] |};
         {| facet_cell := 0; facet_tag := 2; facet_vertices := [0; 2]%nat;
            facet_quad := [ {| qweight := 1; qbary := [/ 2; 0; / 2] |} ] |};
         {| facet_cell := 1; facet_tag := 3; facet_vertices := [1; 3]%nat;
            facet_quad := [ {| qweight := 1; qbary := [/ 2; 0; / 2] |} ] |};
         {| facet_cell := 1; facet_tag := 4; facet_vertices := [2; 3]%nat;
            facet_quad := [ {| qweight := 1; qbary := [0; / 2; / 2] |} ] |} ] |}.

(** A piecewise-constant scalar field on the square, by its two cell
    values. *)
Definition cell_field (a b : R) : Function R :=
  {| function_space := scalar_space square_mesh P0; dat := [a; b] |}.

Definition unit_square_metric : Function Mat :=
  {| function_space := tensor_space square_mesh P1;
     dat := [iso2 1; iso2 1; iso2 1; iso2 1] |}.

(** * Error estimation *)

(** ** Forms *)

Inductive Side : Type := Plus | Minus.

(** The part of UFL expressions the error estimators build and rewrite. *)
Inductive Expr : Type :=
| Coefficient (name : string)
| Argument (number : nat) (V : FunctionSpace)
| CellVolume
| Restricted (e : Expr) (s : Side)
| Product (a b : Expr)
| Sum (a b : Expr)
| Operator (op : string) (a : Expr).

(** [firedrake.TestFunction(V)] and [firedrake.TrialFunction(V)] *)
Definition TestFunction (V : FunctionSpace) : Expr := Argument 0 V.
Definition TrialFunction (V : FunctionSpace) : Expr := Argument 1 V.

Inductive IntegralType : Type :=
| cell
| exterior_facet
| interior_facet
| other_integral (name : string).

Record Integral : Type := {
  integral_type : IntegralType;
  subdomain_id : nat;
  integrand : Expr
}.

(** A [ufl.form.Form]: a sum of integrals. *)
Definition Form : Type := list Integral.

Definition integral_type_eqb (a b : IntegralType) : bool :=
  match a, b with
  | cell, cell | exterior_facet, exterior_facet
  | interior_facet, interior_facet => true
  | other_integral x, other_integral y => String.eqb x y
  | _, _ => false
  end.

(** [F.integrals_by_type(t)] *)
Definition integrals_by_type (F : Form) (t : IntegralType) : list Integral :=
  filter (fun I => integral_type_eqb (integral_type I) t) F.

(** The arguments (test and trial functions) of an expression; a 0-form
    has none. *)
Fixpoint arguments (e : Expr) : list (nat * FunctionSpace) :=
  match e with
  | Coefficient _ | CellVolume => []
  | Argument number V => [(number, V)]
  | Restricted a _ | Operator _ a => arguments a
  | Product a b | Sum a b => arguments a ++ arguments b
  end.

Definition is_zero_form (F : Form) : Prop :=
  Forall (fun I => arguments (integrand I) = []) F.

(** An integral over cells, exterior facets or interior facets. *)
Definition domain_integral (I : Integral) : Prop :=
  integral_type I = cell \/ integral_type I = exterior_facet \/
  integral_type I = interior_facet.

(** A named [Function], as the adjoint error is. *)
Record NamedFunction : Type := {
  name : string;
  space : FunctionSpace
}.

Definition mesh_eqb (m1 m2 : Mesh) : bool := Nat.eqb (mesh_id m1) (mesh_id m2).

(** [ufl.replace(F, mapping)], for a mapping from test functions to
    functions. *)
Fixpoint replace_expr (mapping : list (FunctionSpace * NamedFunction)) (e : Expr) : Expr :=
  match e with
  | Argument 0 V =>
      match find (fun kv => fs_eqb (fst kv) V) mapping with
      | Some kv => Coefficient (name (snd kv))
      | None => e
      end
  | Argument _ _ | Coefficient _ | CellVolume => e
  | Restricted a s => Restricted (replace_expr mapping a) s
  | Product a b => Product (replace_expr mapping a) (replace_expr mapping b)
  | Sum a b => Sum (replace_expr mapping a) (replace_expr mapping b)
  | Operator op a => Operator op (replace_expr mapping a)
  end.

Definition replace (F : Form) (mapping : list (FunctionSpace * NamedFunction)) : Form :=
  map (fun I => {| integral_type := integral_type I;
                   subdomain_id := subdomain_id I;
                   integrand := replace_expr mapping (integrand I) |}) F.

(** ** Arguments as Python passes them *)

Inductive FormArg : Type :=
| IsForm (F : Form)
| NotForm.

Inductive AdjointArg : Type :=
| AdjFunction (f : NamedFunction)
| AdjDict (d : list (string * NamedFunction))
| AdjOther.

Inductive SpaceEntry : Type :=
| IsSpace (V : FunctionSpace)
| NotSpace.

Inductive TestSpaceArg : Type :=
| TsNone
| TsSpace (V : FunctionSpace)
| TsDict (d : list (string * SpaceEntry))
| TsOther.

(** [d[key]] on a dictionary kept in insertion order. *)
Definition lookup {A : Type} (d : list (string * A)) (key : string) : option A :=
  option_map snd (find (fun kv => String.eqb (fst kv) key) d).

(** [mapping[TestFunction(fs)] = err]: test functions of one space are
    equal keys. *)
Fixpoint mapping_set (mapping : list (FunctionSpace * NamedFunction))
    (fs : FunctionSpace) (err : NamedFunction)
  : list (FunctionSpace * NamedFunction) :=
  match mapping with
  | [] => [(fs, err)]
  | (k, v) :: rest =>
      if fs_eqb k fs then (k, err) :: rest
      else (k, v) :: mapping_set rest fs err
  end.

Section ErrorEstimation.

(** [F.ufl_domain()], and the linear solve of [form2indicator] for the
    nodal values of the indicator, both from the finite element
    library. *)
Variable ufl_domain : Form -> result Mesh.
Variable solve : FunctionSpace -> Form -> list R.

(** The right-hand side [rhs] that [form2indicator] accumulates. *)
Definition indicator_rhs (P0_space : FunctionSpace) (F : Form) : Form :=
  let p0test := TestFunction P0_space in
  let h := CellVolume in
  map (fun I => {| integral_type := exterior_facet;
                   subdomain_id := subdomain_id I;
                   integrand := Product (Product h p0test) (integrand I) |})
      (integrals_by_type F exterior_facet)
  ++ flat_map
       (fun I =>
          [ {| integral_type := interior_facet;
               subdomain_id := subdomain_id I;
               integrand := Product (Product (Restricted h Plus)
                                             (Restricted p0test Plus))
                                    (integrand I) |};
            {| integral_type := interior_facet;
               subdomain_id := subdomain_id I;
               integrand := Product (Product (Restricted h Minus)
                                             (Restricted p0test Minus))
                                    (integrand I) |} ])
       (integrals_by_type F interior_facet)
  ++ map (fun I => {| integral_type := cell;
                      subdomain_id := subdomain_id I;
                      integrand := Product (Product h p0test) (integrand I) |})
         (integrals_by_type F cell).

(** [form2indicator(F)].  The integrand of an integral the loops visit is
    multiplied by the P0 test function; when it carries an argument of its
    own the form library rejects the product with a [UFLException]. *)
Definition form2indicator (F : FormArg) : result (Function R) :=
  match F with
  | NotForm => Raise TypeError
  | IsForm F =>
      mesh <- ufl_domain F ;;
      let P0_space := scalar_space mesh P0 in
      _ <- (if forallb (fun I => Nat.eqb (length (arguments (integrand I))) 0)
                       (integrals_by_type F exterior_facet
                        ++ integrals_by_type F interior_facet
                        ++ integrals_by_type F cell)
            then Ok tt else Raise UFLException) ;;
      let rhs := indicator_rhs P0_space F in
      _ <- assert (negb (Nat.eqb (length rhs) 0)) ;;
      Ok {| function_space := P0_space; dat := solve P0_space rhs |}
  end.

(** The loop [for key, err in adjoint_error.items()]. *)
Fixpoint build_mapping (F : Form) (test_space : list (string * SpaceEntry))
    (items : list (string * NamedFunction))
    (mapping : list (FunctionSpace * NamedFunction))
  : result (list (FunctionSpace * NamedFunction)) :=
  match items with
  | [] => Ok mapping
  | (key, err) :: rest =>
      match lookup test_space key with
      | None => Raise ValueError
      | Some NotSpace => Raise TypeError
      | Some (IsSpace fs) =>
          domain <- ufl_domain F ;;
          if negb (mesh_eqb domain (fs_mesh (space err))) then Raise ValueError
          else
            domain' <- ufl_domain F ;;
            if negb (mesh_eqb domain' (fs_mesh fs)) then Raise ValueError
            else build_mapping F test_space rest (mapping_set mapping fs err)
      end
  end.

(** [get_dwr_indicator(F, adjoint_error, test_space=None)] *)
Definition get_dwr_indicator (F : FormArg) (adjoint_error : AdjointArg)
    (test_space : TestSpaceArg) : result (Function R) :=
  match F with
  | NotForm => Raise TypeError
  | IsForm F =>
      (* adjoint_error as a dictionary *)
      at_ <-
        match adjoint_error with
        | AdjFunction f =>
            Ok ([(name f, f)],
                match test_space with
                | TsNone => TsDict [(name f, IsSpace (space f))]
                | _ => test_space
                end)
        | AdjDict d => Ok (d, test_space)
        | AdjOther => Raise TypeError
        end ;;
      let adjoint_error := fst at_ in
      (* test_space as a dictionary *)
      test_space <-
        match snd at_ with
        | TsNone => Ok (map (fun kv => (fst kv, IsSpace (space (snd kv)))) adjoint_error)
        | TsSpace V =>
            if negb (Nat.eqb (length adjoint_error) 1) then Raise ValueError
            else Ok (map (fun kv => (fst kv, IsSpace V)) adjoint_error)
        | TsDict d => Ok d
        | TsOther => Raise TypeError
        end ;;
      mapping <- build_mapping F test_space adjoint_error [] ;;
      form2indicator (IsForm (replace F mapping))
  end.

End ErrorEstimation.

(** What the loop of [get_dwr_indicator] requires of one component of the
    adjoint error: an entry of the test space under its key that is a
    function space, and the mesh of the form under both. *)
Definition component_ok (mesh : Mesh) (test_space : list (string * SpaceEntry))
    (kv : string * NamedFunction) : Prop :=
  exists V, lookup test_space (fst kv) = Some (IsSpace V) /\
            mesh_eqb mesh (fs_mesh (space (snd kv))) = true /\
            mesh_eqb mesh (fs_mesh V) = true.

(** The dictionary of test spaces the validation loop works with, for the
    test space as the caller gives it: by default the space of each
    component of the adjoint error, a single space for a single
    component, a dictionary as it is. *)
Definition test_space_dict (d : list (string * NamedFunction)) (t : TestSpaceArg)
  : option (list (string * SpaceEntry)) :=
  match t with
  | TsNone => Some (map (fun kv => (fst kv, IsSpace (space (snd kv)))) d)
  | TsSpace V =>
      if Nat.eqb (length d) 1 then Some (map (fun kv => (fst kv, IsSpace V)) d)
      else None
  | TsDict ts => Some ts
  | TsOther => None
  end.

(** An adjoint error on another mesh than the reference forms. *)
Definition adjoint_error_on_square : NamedFunction :=
  {| name := "z"; space := scalar_space square_mesh P1 |}.

(** A form with a known domain and a solver that returns zeros, to run the
    estimators on. *)
Definition domain_triangle (F : Form) : result Mesh := Ok triangle_mesh.

Definition solve_zero (V : FunctionSpace) (rhs : Form) : list R :=
  repeat 0 (node_count V).

Definition residual_form : Form :=
  [ {| integral_type := cell; subdomain_id := 0;
       integrand := Product (Coefficient "u")
                            (TestFunction (scalar_space triangle_mesh P1)) |};
    {| integral_type := interior_facet; subdomain_id := 0;
       integrand := Product (Operator "jump" (Coefficient "u"))
                            (TestFunction (scalar_space triangle_mesh P1)) |} ].

Definition adjoint_error_z : NamedFunction :=
  {| name := "z"; space := scalar_space triangle_mesh P1 |}.

(** What the claim on [form2indicator] asks of the right-hand side, in
    the order of the integrals of the form: an integral over cells or over
    exterior facets gives one term, its integrand weighted by the cell
    volume and the P0 test function; an integral over interior facets
    gives two, weighted by the two restricted to the [+] and to the [-]
    side; an integral of another type gives none. *)
Definition weights_of (P : FunctionSpace) (t : IntegralType) : list Expr :=
  match t with
  | cell | exterior_facet => [Product CellVolume (TestFunction P)]
  | interior_facet =>
      [Product (Restricted CellVolume Plus) (Restricted (TestFunction P) Plus);
       Product (Restricted CellVolume Minus) (Restricted (TestFunction P) Minus)]
  | other_integral _ => []
  end.

Definition weighted (I : Integral) (w : Expr) : Integral :=
  {| integral_type := integral_type I;
     subdomain_id := subdomain_id I;
     integrand := Product w (integrand I) |}.

Definition expected_terms (P : FunctionSpace) (F : Form) : list Integral :=
  flat_map (fun I => map (weighted I) (weights_of P (integral_type I))) F.

(** Every term of the right-hand side is an integral of the form, weighted
    by the cell volume and the P0 test function (restricted to one side on
    interior facets). *)
Definition weighted_term (P : FunctionSpace) (F : Form) (J : Integral) : Prop :=
  exists I w,
    In I F /\ domain_integral I /\
    integral_type J = integral_type I /\
    subdomain_id J = subdomain_id I /\
    integrand J = Product w (integrand I) /\
    (w = Product CellVolume (TestFunction P) \/
     w = Product (Restricted CellVolume Plus) (Restricted (TestFunction P) Plus) \/
     w = Product (Restricted CellVolume Minus) (Restricted (TestFunction P) Minus)).

(** ** A reference mesh of dimension 1: the unit interval *)

(** One cell with the midpoint rule; the boundary is the two end points,
    each a facet carrying one point of weight 1. *)
Definition interval_mesh : Mesh :=
  {| mesh_id := 2;
     topological_dimension := 1;
     num_vertices := 2;
     cells := [ {| cell_vertices := [0; 1]%nat;
                   cell_volume := 1;
                   cell_quad := [ {| qweight := 1; qbary := [/ 2; / 2] |} ] |} ];
     exterior_facets :=
       [ {| facet_cell := 0; facet_tag := 1; facet_vertices := [0%nat];
            facet_quad := [ {| qweight := 1; qbary := [1; 0] |} ] |};
         {| facet_cell := 0; facet_tag := 2; facet_vertices := [1%nat];
            facet_quad := [ {| qweight := 1; qbary := [0; 1] |} ] |} ] |}.

(** A continuous metric on the interval, by its two end values. *)
Definition interval_metric (a b : R) : Function Mat :=
  {| function_space := tensor_space interval_mesh P1;
     dat := [ [[a]]; [[b]] ] |}.

(** * Normalisation in space and time *)

(** [[Constant(end_time/num_subintervals/dt) for dt in timesteps]]: a zero
    timestep stops the comprehension with a division by zero. *)
Fixpoint dt_per_mesh (end_time : R) (num_subintervals : nat) (timesteps : list R)
  : result (list R) :=
  match timesteps with
  | [] => Ok []
  | dt :: rest =>
      if Req_dec_T dt 0 then Raise ZeroDivisionError
      else
        taus <- dt_per_mesh end_time num_subintervals rest ;;
        Ok (end_time / INR num_subintervals / dt :: taus)
  end.

(** The contribution of one subinterval to the space-time integral. *)
Definition space_time_term (p : norm_order) (d : nat) (metric : Function Mat)
    (tau : R) : R :=
  match p with
  | Inf => assemble_tensor false metric (fun M => tau * sqrt (det M))
  | Order p =>
      assemble_tensor false metric
        (fun M => pow (tau ^ 2 * det M) (p / (2 * p + INR d)))
  end.

(** One pass of the second loop: the metric of a subinterval is
    overwritten by the interpolant of [global_norm*determinant*metric]. *)
Definition normalise_subinterval (global_norm : R) (p : norm_order) (d : nat)
    (mt : Function Mat * R) : Function Mat :=
  let metric := fst mt in
  let tau := snd mt in
  let determinant (M : Mat) :=
    match p with
    | Inf => 1
    | Order p => pow (tau ^ 2 * det M) (- 1 / (2 * p + INR d))
    end in
  {| function_space := function_space metric;
     dat := map (fun M => mscale (global_norm * determinant M) M) (dat metric) |}.

(** [space_time_normalise(metrics, end_time, timesteps, target, p)]. Every
    metric of the list is a distinct [Function]; the returned list holds
    the updated metrics in the order of the argument.  [2/d] divides
    Python integers and raises for [d = 0]; [target/integral] divides by a
    NumPy float, so a zero integral gives a factor that is not finite and
    the metrics returned hold [inf] or [NaN]. *)
Definition space_time_normalise (metrics : list (Function Mat)) (end_time : R)
    (timesteps : list R) (target : R) (p : norm_order)
  : result (list (Function Mat)) :=
  _ <- assert (valid_order p) ;;
  let num_subintervals := length metrics in
  _ <- assert (Nat.eqb (length timesteps) num_subintervals) ;;
  taus <- dt_per_mesh end_time num_subintervals timesteps ;;
  d <- match metrics with
       | [] => Raise IndexError
       | metric :: _ =>
           Ok (topological_dimension (fs_mesh (function_space metric)))
       end ;;
  let integral :=
    fold_left (fun acc mt => acc + space_time_term p d (fst mt) (snd mt))
              (combine metrics taus) 0 in
  global_norm <-
    (if Nat.eqb d 0 then Raise ZeroDivisionError
     else if Req_dec_T integral 0 then Raise NonFiniteResult
     else Ok (pow (target / integral) (2 / INR d))) ;;
  Ok (map (normalise_subinterval global_norm p d) (combine metrics taus)).

(** The space-time complexity of a list of metrics: the complexity of each
    subinterval weighted by its number of timesteps. *)
Definition space_time_complexity (metrics : list (Function Mat)) (end_time : R)
    (timesteps : list R) : R :=
  fold_right Rplus 0
    (map (fun mt => end_time / INR (length metrics) / snd mt
                    * metric_complexity (fst mt) false)
         (combine metrics timesteps)).

(** The metrics the space-time normalisation is exact for: valid metrics
    on meshes of dimension [d], of any element for the order ["inf"] and
    piecewise constant otherwise. *)
Definition normalisable (p : norm_order) (d : nat) (M : Function Mat) : Prop :=
  valid_metric M /\
  topological_dimension (fs_mesh (function_space M)) = d /\
  (p = Inf \/ fs_element (function_space M) = P0).

(** * Metric properties *)

(** [is_symmetric(M, rtol)]: UFL writes [M - transpose(M)] as the sum of
    [M] and [-1] times the transpose.  The two integrals are NumPy
    floats: over a zero denominator the quotient is [inf] or [NaN], no
    exception is raised and the comparison with [rtol] is [False]. *)
Definition is_symmetric (M : Function Mat) (rtol : R) : result bool :=
  let n := topological_dimension (fs_mesh (function_space M)) in
  let err :=
    assemble_tensor false M
      (fun A => Rabs (det (madd A (mscale (-1) (mtrans n A))))) in
  let total := assemble_tensor false M (fun A => Rabs (det A)) in
  if Req_dec_T total 0 then Ok false
  else Ok (if Rlt_dec (err / total) rtol then true else false).

(** [numpy.ndarray.min]: an empty array has no minimum. *)
Definition array_min (v : list R) : result R :=
  match v with
  | [] => Raise ValueError
  | x :: rest => Ok (fold_left Rmin rest x)
  end.

Section MetricChecks.

(** The eigendecomposition kernel of the dense linear algebra library:
    eigenvectors (as columns) and eigenvalues of one nodal value. *)
Variable eig : nat -> Mat -> Mat * list R.

(** [is_pos_def(M)]: the loop over the node set fills the eigenvalues of
    every node; [gather()] lays them out as one array. *)
Definition is_pos_def (M : Function Mat) : result bool :=
  let fs := function_space M in
  let n := topological_dimension (fs_mesh fs) in
  let evalues := map (fun k => snd (eig n (nth k (dat M) []))) (node_set fs) in
  m <- array_min (concat evalues) ;;
  Ok (if Rlt_dec 0 m then true else false).

(** [is_spd(M)]: [and] evaluates its second operand only when the first
    holds. *)
Definition is_spd (M : Function Mat) : result bool :=
  s <- is_symmetric M (1 / 10 ^ 8) ;;
  if s then is_pos_def M else Ok false.

(** [check_spd(M)]: each failed assertion is re-raised as a [ValueError];
    any other exception of the two tests passes through. *)
Definition check_spd (M : Function Mat) : result unit :=
  s <- is_symmetric M (1 / 10 ^ 8) ;;
  _ <- (if s then Ok tt else Raise ValueError) ;;
  pd <- is_pos_def M ;;
  if pd then Ok tt else Raise ValueError.

End MetricChecks.

(** ** A reference mesh of dimension 3: one tetrahedron *)

(** The tetrahedron with vertices (0,0,0), (1,0,0), (0,1,0), (0,0,1), with
    the one-point rules at the centroids of the cell and of its faces. *)
Definition tet_mesh : Mesh :=
  {| mesh_id := 3;
     topological_dimension := 3;
     num_vertices := 4;
     cells := [ {| cell_vertices := [0; 1; 2; 3]%nat;
                   cell_volume := / 6;
                   cell_quad := [ {| qweight := / 6;
                                     qbary := [/ 4; / 4; / 4; / 4] |} ] |} ];
     exterior_facets :=
       [ {| facet_cell := 0; facet_tag := 1; facet_vertices := [0; 1; 2]%nat;
            facet_quad := [ {| qweight := / 2; qbary := [/ 3; / 3; / 3; 0] |} ] |};
         {| facet_cell := 0; facet_tag := 2; facet_vertices := [0; 1; 3]%nat;
            facet_quad := [ {| qweight := / 2; qbary := [/ 3; / 3; 0; / 3] |} ] |};
         {| facet_cell := 0; facet_tag := 3; facet_vertices := [0; 2; 3]%nat;
            facet_quad := [ {| qweight := / 2; qbary := [/ 3; 0; / 3; / 3] |} ] |};
         {| facet_cell := 0; facet_tag := 4; facet_vertices := [1; 2; 3]%nat;
            facet_quad := [ {| qweight := sqrt 3 / 2;
                               qbary := [0; / 3; / 3; / 3] |} ] |} ] |}.

(** A piecewise-constant tensor field on the tetrahedron that is not
    symmetric. *)
Definition sheared_field : Function Mat :=
  {| function_space := tensor_space tet_mesh P0;
     dat := [ [[1; 1; 0]; [0; 1; 0]; [0; 0; 1]] ] |}.

(** ** Density and anisotropy quotients *)

(** [VectorFunctionSpace(mesh, family, degree)] *)
Definition vector_space (m : Mesh) (e : Element) : FunctionSpace :=
  {| fs_mesh := m; fs_element := e; value_shape := [topological_dimension m] |}.

Section Decomposition.

(** The two eigendecomposition kernels, [get_eigendecomposition] and
    [get_reordered_eigendecomposition], and the helper [prod] of the
    utility module. *)
Variables eig eig_reordered : nat -> Mat -> Mat * list R.
Variable prod : list R -> R.

(** [density_and_quotients(metric, reorder)]: the pair of the density and
    of the quotients.  Both are interpolated into spaces with the element
    of the metric, so their nodal values are the expressions at the
    nodes. *)
Definition density_and_quotients (metric : Function Mat) (reorder : bool)
  : Function R * Function (list R) :=
  let fs_ten := function_space metric in
  let mesh := fs_mesh fs_ten in
  let fe := fs_element fs_ten in
  let fs_vec := vector_space mesh fe in
  let fs := scalar_space mesh fe in
  let dim := topological_dimension mesh in
  let kernel := if reorder then eig_reordered dim else eig dim in
  let evalues :=
    map (fun k => snd (kernel (nth k (dat metric) []))) (node_set fs_ten) in
  let h (lam : list R) := map (fun i => 1 / sqrt (nth i lam 0)) (seq 0 dim) in
  let density := map (fun lam => 1 / prod (h lam)) evalues in
  let quotients :=
    map (fun lam => map (fun hi => 1 / prod (h lam) * hi ^ dim) (h lam)) evalues in
  ({| function_space := fs; dat := density |},
   {| function_space := fs_vec; dat := quotients |}).

End Decomposition.

(** The product of the entries of a list. *)
Definition product (l : list R) : R := fold_right Rmult 1 l.

(** A symmetric tensor whose quadratic form is never negative: what the
    accumulator of a weighted sum holds before the first term is added. *)
Definition pos_semidef (n : nat) (M : Mat) : Prop :=
  wf n M /\ msym n M /\ forall x, 0 <= quad n M x.

(** [metric_average(metrics..., function_space=None)], with the
    interpolation the relaxation calls. *)
Definition metric_average
    (interpolate : Function Mat -> option FunctionSpace -> result (Function Mat))
    (metrics : list (Function Mat)) (function_space_ : option FunctionSpace)
  : result (Function Mat) :=
  metric_relaxation interpolate metrics None function_space_.

(* ================================================================== *)
(** * Properties *)

(** ** Matrix library *)

Lemma length_mmk (n : nat) (f : nat -> nat -> R) : length (mmk n f) = n.
Proof. unfold mmk. now rewrite length_map, length_seq. Qed.

Lemma wf_mmk (n : nat) (f : nat -> nat -> R) : wf n (mmk n f).
Proof.
  split; [apply length_mmk|].
  unfold mmk. apply Forall_forall. intros r Hr.
  apply in_map_iff in Hr. destruct Hr as [i [<- _]].
  now rewrite length_map, length_seq.
Qed.

Lemma nth_map_seq {A : Type} (g : nat -> A) (n i : nat) (d : A) :
  (i < n)%nat -> nth i (map g (seq 0 n)) d = g i.
Proof.
  intros Hi.
  rewrite (nth_indep _ d (g 0%nat)) by now rewrite length_map, length_seq.
  rewrite map_nth, seq_nth by assumption. reflexivity.
Qed.

Lemma mget_mmk (n : nat) (f : nat -> nat -> R) (i j : nat) :
  (i < n)%nat -> (j < n)%nat -> mget (mmk n f) i j = f i j.
Proof.
  intros Hi Hj. unfold mget, mmk.
  rewrite (nth_map_seq (fun i => map (f i) (seq 0 n))) by assumption.
  now apply nth_map_seq.
Qed.

Lemma list_ext {A : Type} (d : A) (l1 l2 : list A) :
  length l1 = length l2 ->
  (forall i, (i < length l1)%nat -> nth i l1 d = nth i l2 d) ->
  l1 = l2.
Proof.
  revert l2. induction l1 as [|a l1 IH]; intros [|b l2] Hlen Hnth;
    simpl in *; try discriminate; [reflexivity|].
  f_equal.
  - apply (Hnth 0%nat). lia.
  - apply IH; [lia|]. intros i Hi. apply (Hnth (S i)). lia.
Qed.

Lemma wf_row (n : nat) (M : Mat) (i : nat) :
  wf n M -> (i < n)%nat -> length (nth i M []) = n.
Proof.
  intros [Hl HF] Hi. rewrite Forall_forall in HF.
  apply HF, nth_In. lia.
Qed.

Lemma mat_ext (n : nat) (A B : Mat) :
  wf n A -> wf n B ->
  (forall i j, (i < n)%nat -> (j < n)%nat -> mget A i j = mget B i j) ->
  A = B.
Proof.
  intros HA HB H.
  apply (list_ext []); [destruct HA, HB; congruence|].
  intros i Hi. assert (Hin : (i < n)%nat) by (destruct HA; lia).
  apply (list_ext 0).
  - now rewrite !(wf_row n).
  - intros j Hj. rewrite (wf_row n) in Hj by assumption.
    now apply H.
Qed.

Lemma mget_mscale (c : R) (A : Mat) (i j : nat) :
  mget (mscale c A) i j = c * mget A i j.
Proof.
  unfold mget, mscale.
  change (@nil R) with (map (Rmult c) []) at 1.
  rewrite map_nth.
  replace 0 with (c * 0) at 1 by ring.
  now rewrite map_nth.
Qed.

Lemma length_mscale (c : R) (A : Mat) : length (mscale c A) = length A.
Proof. unfold mscale. apply length_map. Qed.

Lemma wf_mscale (n : nat) (c : R) (A : Mat) : wf n A -> wf n (mscale c A).
Proof.
  intros [Hl HF]. split; [now rewrite length_mscale|].
  unfold mscale. apply Forall_map.
  eapply Forall_impl; [|exact HF]. intros r Hr. now rewrite length_map.
Qed.

Lemma det_mscale (n : nat) (c : R) (A : Mat) :
  length A = n -> (1 <= n <= 3)%nat -> det (mscale c A) = c ^ n * det A.
Proof.
  intros Hl Hn. unfold det. rewrite length_mscale, Hl.
  rewrite !mget_mscale.
  destruct n as [|[|[|[|n]]]]; try lia; simpl; ring.
Qed.

Lemma rsum_ext (n : nat) (f g : nat -> R) :
  (forall k, (k < n)%nat -> f k = g k) -> rsum n f = rsum n g.
Proof.
  induction n as [|n IH]; intros H; simpl; [reflexivity|].
  rewrite IH, H by (intros; try apply H; lia). reflexivity.
Qed.

Lemma rsum_plus (n : nat) (f g : nat -> R) :
  rsum n (fun k => f k + g k) = rsum n f + rsum n g.
Proof. induction n as [|n IH]; simpl; [|rewrite IH]; ring. Qed.

Lemma rsum_scal (n : nat) (c : R) (f : nat -> R) :
  rsum n (fun k => c * f k) = c * rsum n f.
Proof. induction n as [|n IH]; simpl; [|rewrite IH]; ring. Qed.

Lemma rsum_scal_r (n : nat) (c : R) (f : nat -> R) :
  rsum n (fun k => f k * c) = rsum n f * c.
Proof. induction n as [|n IH]; simpl; [|rewrite IH]; ring. Qed.

Lemma rsum_zero (n : nat) : rsum n (fun _ => 0) = 0.
Proof. induction n as [|n IH]; simpl; [|rewrite IH]; ring. Qed.

Lemma rsum_swap (n m : nat) (f : nat -> nat -> R) :
  rsum n (fun i => rsum m (fun j => f i j)) =
  rsum m (fun j => rsum n (fun i => f i j)).
Proof.
  induction n as [|n IH]; simpl.
  - now rewrite rsum_zero.
  - rewrite IH, <- rsum_plus. reflexivity.
Qed.

(** A sum against a Kronecker delta selects one term. *)
Lemma rsum_delta (n i : nat) (f : nat -> R) :
  (i < n)%nat ->
  rsum n (fun k => (if Nat.eqb i k then 1 else 0) * f k) = f i.
Proof.
  induction n as [|n IH]; intros Hi; [lia|]. simpl.
  destruct (Nat.eq_dec i n) as [->|Hne].
  - rewrite Nat.eqb_refl.
    rewrite (rsum_ext n _ (fun _ => 0)).
    + rewrite rsum_zero. ring.
    + intros k Hk. destruct (Nat.eqb_spec n k); [lia|ring].
  - rewrite IH by lia.
    destruct (Nat.eqb_spec i n); [contradiction|ring].
Qed.

Lemma rsum_delta_r (n i : nat) (f : nat -> R) :
  (i < n)%nat ->
  rsum n (fun k => f k * (if Nat.eqb k i then 1 else 0)) = f i.
Proof.
  intros Hi. rewrite <- (rsum_delta n i f Hi).
  apply rsum_ext. intros k _. rewrite (Nat.eqb_sym k i). ring.
Qed.

Lemma rsum_nonneg (n : nat) (f : nat -> R) :
  (forall k, (k < n)%nat -> 0 <= f k) -> 0 <= rsum n f.
Proof.
  induction n as [|n IH]; intros H; simpl; [lra|].
  assert (0 <= rsum n f) by (apply IH; intros; apply H; lia).
  assert (0 <= f n) by (apply H; lia). lra.
Qed.

(** ** Quadrature tables of a well-formed mesh *)

Lemma combine_convex (N : nat) (vs : list nat) (bs : list R) :
  length vs = length bs ->
  Forall (fun v => (v < N)%nat) vs ->
  Forall (fun b => 0 <= b) bs ->
  Forall (fun kp => (fst kp < N)%nat /\ 0 <= snd kp) (combine vs bs) /\
  lincomb (fun _ => 1) (combine vs bs) = fold_right Rplus 0 bs.
Proof.
  revert bs. induction vs as [|v vs IH]; intros [|b bs] Hl Hv Hb;
    simpl in *; try discriminate; [split; [constructor|reflexivity]|].
  inversion Hv; subst. inversion Hb; subst.
  destruct (IH bs) as [IH1 IH2]; [lia|assumption|assumption|].
  split; [constructor; [split; assumption|assumption]|].
  unfold lincomb in *. simpl. rewrite IH2. ring.
Qed.

Lemma in_indexed {A : Type} (l : list A) (c : nat) (a : A) :
  In (c, a) (indexed l) -> (c < length l)%nat /\ In a l.
Proof.
  unfold indexed. intros H. split.
  - apply in_combine_l in H. apply in_seq in H. lia.
  - now apply in_combine_r in H.
Qed.

Lemma basis_at_convex (V : FunctionSpace) (c : nat) (K : Cell) (q : QPoint) :
  valid_cell (fs_mesh V) K ->
  (c < length (cells (fs_mesh V)))%nat ->
  In q (cell_quad K) \/ valid_qpoint (S (topological_dimension (fs_mesh V))) q ->
  convex_basis (node_count V) (basis_at (fs_element V) c K q).
Proof.
  intros (Hlen & Hv & _ & _ & Hq) Hc Hin.
  assert (Hvq : valid_qpoint (S (topological_dimension (fs_mesh V))) q).
  { destruct Hin as [Hin|Hin]; [|assumption].
    rewrite Forall_forall in Hq. now apply Hq. }
  destruct Hvq as (_ & Hlb & Hnn & Hsum).
  unfold convex_basis, basis_at, node_count.
  destruct (fs_element V).
  - destruct (combine_convex (num_vertices (fs_mesh V)) (cell_vertices K) (qbary q))
      as [H1 H2]; try assumption; [congruence|].
    split; [assumption|]. now rewrite H2.
  - split; [repeat constructor; simpl; [assumption|lra]|unfold lincomb; simpl; lra].
Qed.

Lemma quad_dx_valid (V : FunctionSpace) :
  valid_mesh (fs_mesh V) ->
  quad_dx V <> [] /\
  Forall (fun wp => 0 < fst wp /\ convex_basis (node_count V) (snd wp)) (quad_dx V).
Proof.
  intros (Hne & Hcells & _). split.
  - unfold quad_dx, indexed.
    destruct (cells (fs_mesh V)) as [|K Ks] eqn:E; [contradiction|].
    inversion Hcells as [|? ? (_ & _ & _ & Hq & _) _]; subst.
    simpl. destruct (cell_quad K); [contradiction|discriminate].
  - apply Forall_forall. intros [w phi] Hin.
    unfold quad_dx in Hin. apply in_flat_map in Hin.
    destruct Hin as [[c K] [HcK Hin]]. simpl in Hin.
    apply in_map_iff in Hin. destruct Hin as [q [Heq Hq]].
    inversion Heq; subst; clear Heq.
    apply in_indexed in HcK. destruct HcK as [Hc HK].
    rewrite Forall_forall in Hcells. specialize (Hcells K HK).
    simpl. split.
    + destruct Hcells as (_ & _ & _ & _ & HF).
      rewrite Forall_forall in HF. now destruct (HF q Hq).
    + apply basis_at_convex; auto.
Qed.

(** ** Fields at quadrature points *)

Lemma lincomb_ext (g h : nat -> R) (phi : list (nat * R)) :
  (forall kp, In kp phi -> g (fst kp) = h (fst kp)) ->
  lincomb g phi = lincomb h phi.
Proof.
  induction phi as [|kp phi IH]; intros H; simpl; [reflexivity|].
  rewrite IH, (H kp) by (intros; try apply H; simpl; auto). reflexivity.
Qed.

Lemma lincomb_scal (c : R) (g : nat -> R) (phi : list (nat * R)) :
  lincomb (fun k => c * g k) phi = c * lincomb g phi.
Proof. induction phi as [|kp phi IH]; simpl; [|rewrite IH]; ring. Qed.

Lemma lincomb_rsum (n : nat) (f : nat -> nat -> R) (phi : list (nat * R)) :
  rsum n (fun i => lincomb (f i) phi) = lincomb (fun k => rsum n (fun i => f i k)) phi.
Proof.
  induction phi as [|kp phi IH]; simpl.
  - apply rsum_zero.
  - rewrite rsum_plus, rsum_scal, IH. reflexivity.
Qed.

Lemma lincomb_pos (g : nat -> R) (phi : list (nat * R)) :
  Forall (fun kp => 0 <= snd kp) phi ->
  (forall kp, In kp phi -> 0 < g (fst kp)) ->
  0 <= lincomb g phi /\ (0 < lincomb (fun _ => 1) phi -> 0 < lincomb g phi).
Proof.
  induction phi as [|kp phi IH]; intros Hnn Hg; simpl; [lra|].
  inversion Hnn as [|? ? Hk Hrest]; subst.
  destruct IH as [IH1 IH2]; [assumption|intros; apply Hg; simpl; auto|].
  assert (Hgk : 0 < g (fst kp)) by (apply Hg; simpl; auto).
  assert (Hone : 0 <= lincomb (fun _ => 1) phi).
  { clear -Hrest. induction phi as [|a phi IH]; simpl; [lra|].
    inversion Hrest; subst. specialize (IH H2). lra. }
  split; [nra|]. intros Hs.
  destruct (Rle_lt_or_eq_dec 0 (snd kp) Hk) as [Hlt|Heq].
  - nra.
  - rewrite <- Heq in *. assert (0 < lincomb g phi) by (apply IH2; lra). lra.
Qed.

Lemma mget_eval_tensor (n : nat) (data : list Mat) (phi : list (nat * R)) (i j : nat) :
  (i < n)%nat -> (j < n)%nat ->
  mget (eval_tensor n data phi) i j = lincomb (fun k => mget (nth k data []) i j) phi.
Proof. intros Hi Hj. unfold eval_tensor. now rewrite mget_mmk. Qed.

Lemma quad_eval_tensor (n : nat) (data : list Mat) (phi : list (nat * R)) (x : list R) :
  quad n (eval_tensor n data phi) x = lincomb (fun k => quad n (nth k data []) x) phi.
Proof.
  unfold quad.
  rewrite (rsum_ext n _
    (fun i => lincomb (fun k => rsum n (fun j => nth i x 0 * mget (nth k data []) i j * nth j x 0)) phi)).
  - apply lincomb_rsum.
  - intros i Hi.
    rewrite <- lincomb_rsum. apply rsum_ext. intros j Hj.
    rewrite mget_eval_tensor by assumption.
    rewrite <- lincomb_scal.
    replace (lincomb (fun k => nth i x 0 * mget (nth k data []) i j) phi * nth j x 0)
      with (nth j x 0 * lincomb (fun k => nth i x 0 * mget (nth k data []) i j) phi) by ring.
    rewrite <- lincomb_scal. apply lincomb_ext. intros; ring.
Qed.

(** A field with positive-definite nodal values is positive-definite at
    every point where the basis values are a convex combination. *)
Lemma spd_eval_tensor (n : nat) (data : list Mat) (phi : list (nat * R)) :
  Forall (spd n) data ->
  convex_basis (length data) phi ->
  spd n (eval_tensor n data phi).
Proof.
  intros Hspd [Hphi Hsum]. rewrite Forall_forall in Hspd, Hphi.
  assert (Hnode : forall kp, In kp phi -> spd n (nth (fst kp) data [])).
  { intros kp Hin. apply Hspd, nth_In. now apply Hphi. }
  split; [apply wf_mmk|]. split.
  - intros i j Hi Hj. rewrite !mget_eval_tensor by assumption.
    apply lincomb_ext. intros kp Hin.
    destruct (Hnode kp Hin) as (_ & Hs & _). now apply Hs.
  - intros x Hx. rewrite quad_eval_tensor.
    apply lincomb_pos.
    + apply Forall_forall. intros kp Hin. now apply Hphi.
    + intros kp Hin. destruct (Hnode kp Hin) as (_ & _ & Hp). now apply Hp.
    + rewrite Hsum. lra.
Qed.

(** The determinant of a positive-definite tensor of dimension at most 3
    is positive. *)
Lemma spd_det_pos (n : nat) (M : Mat) :
  (1 <= n <= 3)%nat -> spd n M -> 0 < det M.
Proof.
  intros Hn ([Hl _] & Hs & Hp). unfold det. rewrite Hl.
  destruct n as [|[|[|[|n]]]]; try lia.
  - specialize (Hp [1]). unfold quad in Hp. simpl in Hp.
    assert (0 < 0 + (0 + 1 * mget M 0 0 * 1)).
    { apply Hp. exists 0%nat. simpl. split; [lia|lra]. }
    lra.
  - assert (H01 : mget M 1 0 = mget M 0 1) by (apply Hs; lia).
    assert (Ha : 0 < mget M 0 0).
    { specialize (Hp [1; 0]). unfold quad in Hp. simpl in Hp.
      assert (0 < 0 + (0 + 1 * mget M 0 0 * 1 + 1 * mget M 0 1 * 0)
                  + (0 + 0 * mget M 1 0 * 1 + 0 * mget M 1 1 * 0)).
      { apply Hp. exists 0%nat. simpl. split; [lia|lra]. }
      lra. }
    specialize (Hp [- mget M 0 1; mget M 0 0]). unfold quad in Hp. simpl in Hp.
    rewrite H01 in *.
    assert (Hq : 0 < mget M 0 0 * (mget M 0 0 * mget M 1 1 - mget M 0 1 * mget M 0 1)).
    { match type of Hp with _ -> 0 < ?e => replace (mget M 0 0 * _) with e by ring end.
      apply Hp. exists 1%nat. simpl. split; [lia|lra]. }
    nra.
  - assert (H10 : mget M 1 0 = mget M 0 1) by (apply Hs; lia).
    assert (H20 : mget M 2 0 = mget M 0 2) by (apply Hs; lia).
    assert (H21 : mget M 2 1 = mget M 1 2) by (apply Hs; lia).
    rewrite H10, H20, H21.
    assert (Ha : 0 < mget M 0 0).
    { specialize (Hp [1; 0; 0]). unfold quad in Hp. simpl in Hp.
      match type of Hp with _ -> 0 < ?e => replace (mget M 0 0) with e by ring end.
      apply Hp. exists 0%nat. simpl. split; [lia|lra]. }
    assert (Hc : 0 < mget M 0 0 * mget M 1 1 - mget M 0 1 * mget M 0 1).
    { pose proof (Hp [- mget M 0 1; mget M 0 0; 0]) as Hq.
      unfold quad in Hq. simpl in Hq. rewrite H10 in Hq.
      assert (Hr : 0 < mget M 0 0 * (mget M 0 0 * mget M 1 1 - mget M 0 1 * mget M 0 1)).
      { match type of Hq with _ -> 0 < ?e => replace (mget M 0 0 * _) with e by ring end.
        apply Hq. exists 1%nat. simpl. split; [lia|lra]. }
      nra. }
    pose proof (Hp [mget M 0 1 * mget M 1 2 - mget M 0 2 * mget M 1 1;
                    mget M 0 1 * mget M 0 2 - mget M 0 0 * mget M 1 2;
                    mget M 0 0 * mget M 1 1 - mget M 0 1 * mget M 0 1]) as Hq.
    unfold quad in Hq. simpl in Hq. rewrite H10, H20, H21 in Hq.
    match goal with |- 0 < ?d =>
      assert (Hr : 0 < (mget M 0 0 * mget M 1 1 - mget M 0 1 * mget M 0 1) * d)
    end.
    { match type of Hq with _ -> 0 < ?e => replace (_ * _) with e by ring end.
      apply Hq. exists 2%nat. simpl. split; [lia|lra]. }
    nra.
Qed.

(** ** Weighted sums and real powers *)

Lemma weighted_sum_scal {A : Type} (a : R) (F G : A -> R) (Q : list (R * A)) :
  (forall wp, In wp Q -> G (snd wp) = a * F (snd wp)) ->
  weighted_sum (map (fun wp => (fst wp, G (snd wp))) Q) =
  a * weighted_sum (map (fun wp => (fst wp, F (snd wp))) Q).
Proof.
  induction Q as [|wp Q IH]; intros H; simpl; [ring|].
  rewrite IH, (H wp) by (intros; try apply H; simpl; auto). ring.
Qed.

Lemma weighted_sum_pos {A : Type} (F : A -> R) (Q : list (R * A)) :
  Q <> [] ->
  (forall wp, In wp Q -> 0 < fst wp /\ 0 < F (snd wp)) ->
  0 < weighted_sum (map (fun wp => (fst wp, F (snd wp))) Q).
Proof.
  intros Hne H.
  assert (Hnn : forall Q', (forall wp, In wp Q' -> 0 < fst wp /\ 0 < F (snd wp)) ->
                0 <= weighted_sum (map (fun wp => (fst wp, F (snd wp))) Q')).
  { induction Q' as [|wp Q' IH]; intros H'; simpl; [lra|].
    destruct (H' wp) as [? ?]; [simpl; auto|].
    assert (0 <= weighted_sum (map (fun wp => (fst wp, F (snd wp))) Q'))
      by (apply IH; intros; apply H'; simpl; auto).
    nra. }
  destruct Q as [|wp Q]; [contradiction|]. simpl.
  destruct (H wp) as [? ?]; [simpl; auto|].
  assert (0 <= weighted_sum (map (fun wp => (fst wp, F (snd wp))) Q))
    by (apply Hnn; intros; apply H; simpl; auto).
  nra.
Qed.

Lemma pow_Rpower (x y : R) : 0 < x -> pow x y = Rpower x y.
Proof. intros Hx. unfold pow. destruct (Rlt_dec 0 x); [reflexivity|contradiction]. Qed.

Lemma Rpower_pos (x y : R) : 0 < Rpower x y.
Proof. unfold Rpower. apply exp_pos. Qed.

Lemma Rpower_nat_pow (x y : R) (n : nat) :
  0 < x -> Rpower x y ^ n = Rpower x (y * INR n).
Proof.
  intros Hx. rewrite <- Rpower_pow by apply Rpower_pos.
  apply Rpower_mult.
Qed.

Lemma Rpower_2 (x : R) : 0 < x -> Rpower x 2 = x * x.
Proof.
  intros Hx. replace 2 with (INR 2) by (simpl; lra).
  rewrite Rpower_pow by assumption. simpl. ring.
Qed.

Lemma sqrt_square_pos (x : R) : 0 < x -> sqrt (x * x) = x.
Proof. intros Hx. apply sqrt_square. lra. Qed.

(** The pointwise identity behind the normalisation: with
    [a = target/integral], the scaled tensor has
    [sqrt(det) = a * det(M)^(p/(2p+d))]. *)
Lemma normalised_density (d : nat) (a D p : R) :
  (1 <= d)%nat -> 0 < a -> 0 < D -> 0 < 2 * p + INR d ->
  sqrt ((Rpower a (2 / INR d) * Rpower D (- 1 / (2 * p + INR d))) ^ d * D)
  = a * Rpower D (p / (2 * p + INR d)).
Proof.
  intros Hd Ha HD He.
  assert (Hd0 : INR d <> 0) by (apply not_0_INR; lia).
  set (e := 2 * p + INR d) in *.
  assert (HX : 0 < a * Rpower D (p / e))
    by (apply Rmult_lt_0_compat; [assumption|apply Rpower_pos]).
  rewrite <- (sqrt_square_pos _ HX). f_equal.
  rewrite Rpow_mult_distr, !Rpower_nat_pow by assumption.
  replace (2 / INR d * INR d) with 2 by (field; assumption).
  rewrite Rpower_2 by assumption.
  rewrite <- (Rpower_1 D HD) at 2.
  replace (a * a * Rpower D (-1 / e * INR d) * Rpower D 1)
    with (a * a * (Rpower D (-1 / e * INR d) * Rpower D 1)) by ring.
  rewrite <- Rpower_plus.
  replace (a * Rpower D (p / e) * (a * Rpower D (p / e)))
    with (a * a * (Rpower D (p / e) * Rpower D (p / e))) by ring.
  rewrite <- Rpower_plus. do 2 f_equal.
  unfold e. field. unfold e in He. lra.
Qed.

(** The same identity for the order ["inf"], where no determinant factor
    is applied. *)
Lemma normalised_density_inf (d : nat) (a D : R) :
  (1 <= d)%nat -> 0 < a -> 0 <= D ->
  sqrt (Rpower a (2 / INR d) ^ d * D) = a * sqrt D.
Proof.
  intros Hd Ha HD.
  assert (Hd0 : INR d <> 0) by (apply not_0_INR; lia).
  rewrite Rpower_nat_pow by assumption.
  replace (2 / INR d * INR d) with 2 by (field; assumption).
  rewrite Rpower_2 by assumption.
  rewrite sqrt_mult_alt by nra.
  now rewrite sqrt_square_pos.
Qed.

(** ** Space normalisation *)

Lemma eval_tensor_scaled (n : nat) (c : R) (data : list Mat) (phi : list (nat * R)) :
  eval_tensor n (map (mscale c) data) phi = mscale c (eval_tensor n data phi).
Proof.
  apply (mat_ext n); [apply wf_mmk|apply wf_mscale, wf_mmk|].
  intros i j Hi Hj.
  rewrite mget_mscale, !mget_eval_tensor by assumption.
  rewrite <- lincomb_scal. apply lincomb_ext. intros kp _.
  rewrite <- mget_mscale. f_equal.
  apply (map_nth (mscale c) data []).
Qed.

Lemma eval_tensor_nodal (n c : nat) (data : list Mat) :
  wf n (nth c data []) -> eval_tensor n data [(c, 1)] = nth c data [].
Proof.
  intros Hwf. apply (mat_ext n); [apply wf_mmk|assumption|].
  intros i j Hi Hj. rewrite mget_eval_tensor by assumption.
  unfold lincomb. simpl. ring.
Qed.

Lemma quad_dx_P0 (V : FunctionSpace) (wp : R * list (nat * R)) :
  fs_element V = P0 -> In wp (quad_dx V) -> exists c, snd wp = [(c, 1)].
Proof.
  intros HP0 Hin. unfold quad_dx in Hin. apply in_flat_map in Hin.
  destruct Hin as [[c K] [_ Hin]]. apply in_map_iff in Hin.
  destruct Hin as [q [<- _]]. rewrite HP0. simpl. now exists c.
Qed.

Lemma det_eval_pos (M : Function Mat) (wp : R * list (nat * R)) :
  valid_metric M ->
  (1 <= topological_dimension (fs_mesh (function_space M)) <= 3)%nat ->
  In wp (quad_dx (function_space M)) ->
  0 < fst wp /\
  0 < det (eval_tensor (topological_dimension (fs_mesh (function_space M)))
                       (dat M) (snd wp)).
Proof.
  intros (Hmesh & _ & Hlen & Hspd) Hd Hin.
  destruct (quad_dx_valid _ Hmesh) as [_ HQ].
  rewrite Forall_forall in HQ. destruct (HQ wp Hin) as [Hw Hphi].
  split; [assumption|].
  apply (spd_det_pos _ _ Hd), spd_eval_tensor; [assumption|].
  now rewrite Hlen.
Qed.

(** C1 (amended). For a metric field with positive-definite nodal values
    on a well-formed mesh of dimension 1, 2 or 3, a positive target and a
    valid order [p], [space_normalise(metric, target, p)] followed by
    [metric_complexity] gives exactly [target] when [p] is ["inf"] (any
    element) or when the metric is piecewise constant (P0). *)
Theorem space_normalise_complexity (metric : Function Mat) (target : R) (p : norm_order) :
  valid_metric metric ->
  (1 <= topological_dimension (fs_mesh (function_space metric)) <= 3)%nat ->
  0 < target ->
  valid_order p = true ->
  p = Inf \/ fs_element (function_space metric) = P0 ->
  exists M', space_normalise metric target p None false = Ok M' /\
             metric_complexity M' false = target.
Proof.
  intros Hvalid Hd Htarget Hp Hcase.
  set (V := function_space metric) in *.
  set (d := topological_dimension (fs_mesh V)) in *.
  pose proof (fun wp => det_eval_pos metric wp Hvalid Hd) as Hdet.
  fold V d in Hdet.
  destruct Hvalid as (Hmesh & _ & Hlen & Hspd). fold V d in Hmesh, Hlen, Hspd.
  destruct (quad_dx_valid V Hmesh) as [Hne HQ].
  unfold space_normalise. rewrite Hp. simpl bind. fold V d.
  rewrite Nat.sub_0_r.
  destruct (Nat.eqb_spec d 0) as [H0|_]; [lia|]. simpl bind.
  set (ex := match p with Inf => 0.5 | Order p0 => p0 / (2 * p0 + INR d) end).
  set (I := assemble_tensor false metric (fun M => pow (det M) ex)).
  pose (F := fun phi => Rpower (det (eval_tensor d (dat metric) phi)) ex).
  assert (HI : I = weighted_sum (map (fun wp => (fst wp, F (snd wp))) (quad_dx V))).
  { unfold I, assemble_tensor, F. fold V d. f_equal.
    apply map_ext_in. intros wp Hin. f_equal.
    apply pow_Rpower. now apply Hdet. }
  assert (HIpos : 0 < I).
  { rewrite HI. apply (weighted_sum_pos F); [assumption|].
    intros wp Hin. split; [now apply Hdet|apply Rpower_pos]. }
  set (a := target / I).
  assert (Ha : 0 < a) by (apply Rdiv_lt_0_compat; assumption).
  rewrite (pow_Rpower a) by assumption.
  eexists. split; [reflexivity|].
  unfold metric_complexity, assemble_tensor. simpl function_space. simpl dat.
  fold V d.
  replace target with (a * I) by (unfold a; field; lra).
  rewrite HI.
  apply (weighted_sum_scal a F (fun phi => sqrt (det (eval_tensor d _ phi)))).
  intros wp Hin. destruct (Hdet wp Hin) as [_ HD]. unfold F.
  destruct Hcase as [->|HP0].
  - (* order "inf": the update is a constant rescaling of every node *)
    rewrite (map_ext _ (mscale (Rpower a (2 / INR d) * 1))) by reflexivity.
    rewrite eval_tensor_scaled.
    rewrite (det_mscale d) by (try apply length_mmk; lia).
    rewrite Rmult_1_r, normalised_density_inf by (try lia; lra).
    f_equal. unfold ex. replace 0.5 with (/ 2) by lra.
    symmetry. now apply Rpower_sqrt.
  - (* piecewise-constant metric: a quadrature point sees one node *)
    destruct (quad_dx_P0 V wp HP0 Hin) as [c Hc]. rewrite Hc in *.
    destruct (quad_dx_valid V Hmesh) as [_ HQ'].
    rewrite Forall_forall in HQ, Hspd.
    destruct (HQ wp Hin) as [_ [Hnodes _]]. rewrite Hc in Hnodes.
    inversion Hnodes as [|? ? [Hcn _] _]; subst. simpl in Hcn.
    assert (Hwf : spd d (nth c (dat metric) [])).
    { apply Hspd, nth_In. now rewrite Hlen. }
    rewrite eval_tensor_nodal in HD by apply Hwf.
    rewrite !eval_tensor_nodal.
    + set (g := fun M : Mat => mscale _ M).
      change (@nil (list R)) with (g []) at 1. rewrite map_nth. unfold g.
      destruct Hwf as ([Hl _] & _).
      rewrite (det_mscale d) by (try assumption; lia).
      destruct p as [|p0]; unfold ex.
      * rewrite Rmult_1_r, normalised_density_inf by (try lia; lra).
        f_equal. replace 0.5 with (/ 2) by lra.
        symmetry. now apply Rpower_sqrt.
      * simpl in Hp. destruct (Rle_dec 1 p0) as [Hp0|]; [|discriminate].
        assert (0 <= INR d) by apply pos_INR.
        rewrite (pow_Rpower _ _ HD).
        apply normalised_density; try assumption; try lia; lra.
    + apply Hwf.
    + set (g := fun M : Mat => mscale _ M).
      change (@nil (list R)) with (g []) at 1. rewrite map_nth. unfold g.
      apply wf_mscale, Hwf.
Qed.

(** ** The reference triangle *)

Lemma spd_iso2 (m : R) : 0 < m -> spd 2 (iso2 m).
Proof.
  intros Hm. split; [|split].
  - split; [reflexivity|]. repeat constructor.
  - intros [|[|i]] [|[|j]] Hi Hj; try lia; reflexivity.
  - intros x [i [Hi Hx]]. unfold quad, iso2, mget. simpl.
    assert (nth 0 x 0 <> 0 \/ nth 1 x 0 <> 0)
      by (destruct i as [|[|i]]; [left|right|lia]; assumption).
    assert (0 <= nth 0 x 0 * nth 0 x 0) by nra.
    assert (0 <= nth 1 x 0 * nth 1 x 0) by nra.
    assert (0 < nth 0 x 0 * nth 0 x 0 + nth 1 x 0 * nth 1 x 0)
      by (destruct H; nra).
    nra.
Qed.

Lemma valid_triangle_mesh : valid_mesh triangle_mesh.
Proof.
  assert (Hq : forall w x y z, 0 < w -> 0 <= x -> 0 <= y -> 0 <= z ->
                 x + y + z = 1 ->
                 valid_qpoint 3 {| qweight := w; qbary := [x; y; z] |}).
  { intros w x y z Hw Hx Hy Hz Hs. split; [assumption|].
    split; [reflexivity|].
    split; [repeat (apply Forall_cons; [assumption|]); apply Forall_nil|].
    simpl. lra. }
  assert (Hs2 : 0 < sqrt 2) by (apply sqrt_lt_R0; lra).
  split; [discriminate|]. split.
  - apply Forall_cons; [|apply Forall_nil].
    split; [reflexivity|].
    split; [repeat (apply Forall_cons; [simpl; lia|]); apply Forall_nil|].
    split; [simpl; lra|]. split; [discriminate|].
    repeat (apply Forall_cons; [apply Hq; lra|]); apply Forall_nil.
  - repeat (apply Forall_cons;
            [split; [simpl; lia|];
             apply Forall_cons; [apply Hq; lra|apply Forall_nil]|]);
      apply Forall_nil.
Qed.

Lemma valid_iso_field (a b c : R) :
  0 < a -> 0 < b -> 0 < c -> valid_metric (iso_field a b c).
Proof.
  intros Ha Hb Hc. split; [apply valid_triangle_mesh|].
  split; [reflexivity|]. split; [reflexivity|].
  repeat (apply Forall_cons; [now apply spd_iso2|]); apply Forall_nil.
Qed.

Lemma valid_iso_cell_field (a : R) : 0 < a -> valid_metric (iso_cell_field a).
Proof.
  intros Ha. split; [apply valid_triangle_mesh|].
  split; [reflexivity|]. split; [reflexivity|].
  repeat (apply Forall_cons; [now apply spd_iso2|]); apply Forall_nil.
Qed.

Lemma eval_iso2 (a b c x y z : R) :
  eval_tensor 2 [iso2 a; iso2 b; iso2 c] [(0%nat, x); (1%nat, y); (2%nat, z)]
  = iso2 (x * a + y * b + z * c).
Proof.
  unfold eval_tensor, iso2, mmk, lincomb, mget. simpl.
  repeat first [reflexivity | ring | apply (f_equal2 (@cons _))].
Qed.

Lemma det_iso2 (m : R) : det (iso2 m) = m * m.
Proof. unfold det, iso2, mget. simpl. ring. Qed.

Lemma mscale_iso2 (c m : R) : mscale c (iso2 m) = iso2 (c * m).
Proof.
  unfold mscale, iso2. simpl.
  repeat first [reflexivity | ring | apply (f_equal2 (@cons _))].
Qed.

Lemma Rpower_fourth_root (x : R) : 0 < x -> Rpower (x * x * (x * x)) (/ 4) = x.
Proof.
  intros Hx.
  replace (x * x * (x * x)) with (x ^ 4) by ring.
  rewrite <- Rpower_pow, Rpower_mult by assumption.
  replace (INR 4 * / 4) with 1 by (simpl; lra).
  now apply Rpower_1.
Qed.

Lemma Rpower_fourth_root_inv (x : R) : 0 < x -> Rpower (x * x * (x * x)) (- / 4) = / x.
Proof.
  intros Hx. pose proof (Rpower_Ropp (x * x * (x * x)) (/ 4)) as H.
  rewrite Rpower_fourth_root in H by assumption. exact H.
Qed.

Lemma pow_fourth_root (x : R) : 0 < x -> pow (x * x * (x * x)) (/ 4) = x.
Proof. intros Hx. rewrite pow_Rpower by (assert (0 < x * x) by nra; nra). now apply Rpower_fourth_root. Qed.

Lemma pow_fourth_root_inv (x : R) : 0 < x -> pow (x * x * (x * x)) (- / 4) = / x.
Proof. intros Hx. rewrite pow_Rpower by (assert (0 < x * x) by nra; nra). now apply Rpower_fourth_root_inv. Qed.


Lemma Rpower_base_1 (y : R) : Rpower 1 y = 1.
Proof. unfold Rpower. now rewrite ln_1, Rmult_0_r, exp_0. Qed.

Lemma assemble_iso_field (a b c : R) (f : Mat -> R) :
  assemble_tensor false (iso_field a b c) f =
  / 6 * f (iso2 (/ 2 * a + / 2 * b + 0 * c))
  + (/ 6 * f (iso2 (0 * a + / 2 * b + / 2 * c))
  + (/ 6 * f (iso2 (/ 2 * a + 0 * b + / 2 * c)) + 0)).
Proof.
  unfold assemble_tensor, iso_field.
  cbn [function_space dat tensor_space fs_mesh fs_element triangle_mesh
       topological_dimension quad_dx cells indexed length seq combine flat_map
       map fst snd triangle_cell cell_quad midpoint_rule basis_at
       cell_vertices qbary qweight app weighted_sum fold_right].
  now rewrite !eval_iso2.
Qed.

Lemma graded_integral :
  assemble_tensor false graded_metric (fun M => pow (det M) (/ 4)) = 11 / 6.
Proof.
  change graded_metric with (iso_field 1 1 49).
  rewrite assemble_iso_field, !det_iso2.
  replace (/ 2 * 1 + / 2 * 1 + 0 * 49) with 1 by lra.
  replace (0 * 1 + / 2 * 1 + / 2 * 49) with 25 by lra.
  replace (/ 2 * 1 + 0 * 1 + / 2 * 49) with 25 by lra.
  replace (1 * 1) with (1 * 1 * (1 * 1)) by lra.
  replace (25 * 25) with (5 * 5 * (5 * 5)) by lra.
  rewrite !pow_fourth_root by lra. lra.
Qed.

Lemma space_normalise_graded :
  space_normalise graded_metric (11 / 6) (Order 1) None false
  = Ok (iso_field 1 1 7).
Proof.
  unfold space_normalise. simpl valid_order.
  destruct (Rle_dec 1 1) as [_|H]; [|lra].
  cbn [assert bind graded_metric function_space tensor_space fs_mesh
       triangle_mesh topological_dimension Nat.sub Nat.eqb dat map].
  replace (1 / (2 * 1 + INR 2)) with (/ 4) by (simpl; lra).
  replace (- 1 / (2 * 1 + INR 2)) with (- / 4) by (simpl; lra).
  replace (2 / INR 2) with 1 by (simpl; lra).
  fold graded_metric. rewrite graded_integral.
  replace (11 / 6 / (11 / 6)) with 1 by lra.
  rewrite (pow_Rpower 1 1), Rpower_base_1 by lra.
  rewrite !det_iso2, !mscale_iso2.
  replace (1 * 1) with (1 * 1 * (1 * 1)) by lra.
  replace (49 * 49) with (7 * 7 * (7 * 7)) by lra.
  rewrite !pow_fourth_root_inv by lra.
  unfold iso_field. do 2 f_equal.
  repeat first [reflexivity | apply (f_equal iso2); field | apply (f_equal2 (@cons _))].
Qed.

Lemma complexity_iso_field_1_1_7 : metric_complexity (iso_field 1 1 7) false = 3 / 2.
Proof.
  unfold metric_complexity. rewrite assemble_iso_field, !det_iso2.
  replace (/ 2 * 1 + / 2 * 1 + 0 * 7) with 1 by lra.
  replace (0 * 1 + / 2 * 1 + / 2 * 7) with 4 by lra.
  replace (/ 2 * 1 + 0 * 1 + / 2 * 7) with 4 by lra.
  rewrite !sqrt_square by lra. lra.
Qed.

(** C1, counterexample. On one triangle with the edge-midpoint rule, the
    continuous metric with vertex values [1, 1, 49] times the identity,
    normalised with [p = 1] to the target [11/6], has complexity [3/2]:
    the nodal interpolation of the rescaled tensor is not the rescaled
    tensor between the nodes. *)
Lemma space_normalise_P1_counterexample :
  valid_metric graded_metric /\
  valid_order (Order 1) = true /\
  exists M', space_normalise graded_metric (11 / 6) (Order 1) None false = Ok M' /\
             metric_complexity M' false = 3 / 2 /\
             metric_complexity M' false <> 11 / 6.
Proof.
  split; [apply (valid_iso_field 1 1 49); lra|].
  split; [simpl; destruct (Rle_dec 1 1); [reflexivity|lra]|].
  exists (iso_field 1 1 7). split; [apply space_normalise_graded|].
  rewrite complexity_iso_field_1_1_7. split; [reflexivity|lra].
Qed.

Lemma space_normalise_complexity_witness :
  valid_metric (iso_cell_field 4) /\
  0 < 3 /\
  valid_order (Order 1) = true /\
  exists M', space_normalise (iso_cell_field 4) 3 (Order 1) None false = Ok M' /\
             metric_complexity M' false = 3.
Proof.
  assert (Hv : valid_metric (iso_cell_field 4)) by (apply valid_iso_cell_field; lra).
  assert (Ho : valid_order (Order 1) = true)
    by (simpl; destruct (Rle_dec 1 1); [reflexivity|lra]).
  split; [exact Hv|]. split; [lra|]. split; [exact Ho|].
  apply (space_normalise_complexity (iso_cell_field 4) 3 (Order 1));
    [exact Hv|simpl; lia|lra|exact Ho|right; reflexivity].
Defined.

(** ** Entries of products, transposes and eigen-recompositions *)

Lemma mget_mmul (n : nat) (A B : Mat) (i j : nat) :
  (i < n)%nat -> (j < n)%nat ->
  mget (mmul n A B) i j = rsum n (fun k => mget A i k * mget B k j).
Proof. intros. unfold mmul. now rewrite mget_mmk. Qed.

Lemma mget_mtrans (n : nat) (A : Mat) (i j : nat) :
  (i < n)%nat -> (j < n)%nat -> mget (mtrans n A) i j = mget A j i.
Proof. intros. unfold mtrans. now rewrite mget_mmk. Qed.

Lemma mget_mdiag (n : nat) (v : list R) (i j : nat) :
  (i < n)%nat -> (j < n)%nat ->
  mget (mdiag n v) i j = if Nat.eqb i j then nth i v 0 else 0.
Proof. intros. unfold mdiag. now rewrite mget_mmk. Qed.

Lemma mget_mid (n i j : nat) :
  (i < n)%nat -> (j < n)%nat -> mget (mid n) i j = if Nat.eqb i j then 1 else 0.
Proof. intros. unfold mid. now rewrite mget_mmk. Qed.

Lemma rsum_pick (n i : nat) (f : nat -> R) (g : nat -> R) :
  (i < n)%nat ->
  rsum n (fun k => f k * (if Nat.eqb k i then g k else 0)) = f i * g i.
Proof.
  intros Hi. rewrite <- (rsum_delta_r n i (fun k => f k * g k) Hi).
  apply rsum_ext. intros k _. destruct (Nat.eqb k i); ring.
Qed.

Lemma mget_mmul_diag_r (n : nat) (A : Mat) (v : list R) (i j : nat) :
  (i < n)%nat -> (j < n)%nat ->
  mget (mmul n A (mdiag n v)) i j = mget A i j * nth j v 0.
Proof.
  intros Hi Hj. rewrite mget_mmul by assumption.
  rewrite (rsum_ext n _ (fun k => mget A i k * (if Nat.eqb k j then nth k v 0 else 0))).
  - now apply (rsum_pick n j (fun k => mget A i k) (fun k => nth k v 0)).
  - intros k Hk. now rewrite mget_mdiag.
Qed.

Lemma mget_recompose (n : nat) (V : Mat) (lam : list R) (i j : nat) :
  (i < n)%nat -> (j < n)%nat ->
  mget (recompose n V lam) i j =
  rsum n (fun k => mget V i k * nth k lam 0 * mget V j k).
Proof.
  intros Hi Hj. unfold recompose. rewrite mget_mmul by assumption.
  apply rsum_ext. intros k Hk.
  now rewrite mget_mmul_diag_r, mget_mtrans.
Qed.

Lemma wf_recompose (n : nat) (V : Mat) (lam : list R) : wf n (recompose n V lam).
Proof. apply wf_mmk. Qed.

Lemma orthogonal_columns (n : nat) (V : Mat) (k l : nat) :
  orthogonal n V -> (k < n)%nat -> (l < n)%nat ->
  rsum n (fun i => mget V i k * mget V i l) = if Nat.eqb k l then 1 else 0.
Proof.
  intros (_ & H & _) Hk Hl.
  rewrite <- (mget_mid n) by assumption. rewrite <- H.
  rewrite mget_mmul by assumption. apply rsum_ext. intros i Hi.
  now rewrite mget_mtrans.
Qed.

Lemma orthogonal_rows (n : nat) (V : Mat) (i j : nat) :
  orthogonal n V -> (i < n)%nat -> (j < n)%nat ->
  rsum n (fun k => mget V i k * mget V j k) = if Nat.eqb i j then 1 else 0.
Proof.
  intros (_ & _ & H) Hi Hj.
  rewrite <- (mget_mid n) by assumption. rewrite <- H.
  rewrite mget_mmul by assumption. apply rsum_ext. intros k Hk.
  now rewrite mget_mtrans.
Qed.

Lemma msym_recompose (n : nat) (V : Mat) (lam : list R) : msym n (recompose n V lam).
Proof.
  intros i j Hi Hj. rewrite !mget_recompose by assumption.
  apply rsum_ext. intros; ring.
Qed.

(** The quadratic form of [V diag(lam) V^T] is a weighted sum of squares
    of the coordinates [V^T x]. *)
Lemma quad_recompose (n : nat) (V : Mat) (lam : list R) (x : list R) :
  quad n (recompose n V lam) x =
  rsum n (fun k => nth k lam 0 *
                   (rsum n (fun i => nth i x 0 * mget V i k) *
                    rsum n (fun i => nth i x 0 * mget V i k))).
Proof.
  unfold quad.
  rewrite (rsum_ext n _
    (fun i => rsum n (fun k => rsum n (fun j =>
       nth k lam 0 * (nth i x 0 * mget V i k) * (nth j x 0 * mget V j k))))).
  - rewrite rsum_swap. apply rsum_ext. intros k Hk.
    rewrite (rsum_ext n _
      (fun i => nth k lam 0 * (nth i x 0 * mget V i k) *
                rsum n (fun j => nth j x 0 * mget V j k))).
    + rewrite rsum_scal_r, rsum_scal. ring.
    + intros i Hi. now rewrite rsum_scal.
  - intros i Hi. rewrite rsum_swap. apply rsum_ext. intros j Hj.
    rewrite mget_recompose by assumption.
    rewrite <- rsum_scal, <- rsum_scal_r. apply rsum_ext. intros; ring.
Qed.

Lemma rsum_pos_term (n k : nat) (f : nat -> R) :
  (forall i, (i < n)%nat -> 0 <= f i) -> (k < n)%nat -> 0 < f k -> 0 < rsum n f.
Proof.
  induction n as [|n IH]; intros Hnn Hk Hpos; [lia|]. simpl.
  assert (0 <= rsum n f) by (apply rsum_nonneg; intros; apply Hnn; lia).
  assert (0 <= f n) by (apply Hnn; lia).
  destruct (Nat.eq_dec k n) as [->|Hne]; [lra|].
  assert (0 < rsum n f) by (apply IH; [intros; apply Hnn; lia|lia|assumption]).
  lra.
Qed.

Lemma rsum_nonzero (n : nat) (f : nat -> R) :
  rsum n f <> 0 -> exists k, (k < n)%nat /\ f k <> 0.
Proof.
  induction n as [|n IH]; simpl; intros H; [contradiction|].
  destruct (Req_dec (f n) 0) as [Hz|Hnz].
  - destruct IH as [k [Hk Hf]]; [rewrite Hz in H; lra|].
    exists k. split; [lia|assumption].
  - exists n. split; [lia|assumption].
Qed.

Lemma pos_def_recompose (n : nat) (V : Mat) (lam : list R) :
  orthogonal n V ->
  (forall k, (k < n)%nat -> 0 < nth k lam 0) ->
  pos_def n (recompose n V lam).
Proof.
  intros HV Hlam x [i [Hi Hx]]. rewrite quad_recompose.
  set (y := fun k => rsum n (fun i => nth i x 0 * mget V i k)).
  (* x is recovered from its coordinates y, so some coordinate is non-zero *)
  assert (Hrec : rsum n (fun k => mget V i k * y k) = nth i x 0).
  { unfold y.
    rewrite (rsum_ext n _
      (fun k => rsum n (fun j => nth j x 0 * (mget V i k * mget V j k)))).
    - rewrite rsum_swap.
      rewrite (rsum_ext n _ (fun j => (if Nat.eqb i j then 1 else 0) * nth j x 0)).
      + now apply rsum_delta.
      + intros j Hj. rewrite rsum_scal, orthogonal_rows by assumption. ring.
    - intros k Hk. rewrite <- rsum_scal. apply rsum_ext. intros; ring. }
  assert (Hex : exists k, (k < n)%nat /\ y k <> 0).
  { rewrite <- Hrec in Hx. apply rsum_nonzero in Hx.
    destruct Hx as [k [Hk Hne]]. exists k. split; [assumption|].
    intros Hy. apply Hne. rewrite Hy. ring. }
  destruct Hex as [k [Hk Hyk]].
  apply (rsum_pos_term n k); [| assumption |].
  - intros l Hl. specialize (Hlam l Hl). fold (y l). nra.
  - specialize (Hlam k Hk). fold (y k).
    assert (0 < y k * y k) by nra. nra.
Qed.

(** ** Parallel loops *)

Lemma length_indexed {A : Type} (l : list A) : length (indexed l) = length l.
Proof. unfold indexed. rewrite length_combine, length_seq. lia. Qed.

Lemma nth_indexed {A : Type} (l : list A) (i : nat) (d : A) :
  (i < length l)%nat -> nth i (indexed l) (0%nat, d) = (i, nth i l d).
Proof.
  intros Hi. unfold indexed.
  rewrite combine_nth by apply length_seq.
  now rewrite seq_nth.
Qed.

Lemma existsb_eqb_seq (i n : nat) :
  (i < n)%nat -> existsb (Nat.eqb i) (seq 0 n) = true.
Proof.
  intros Hi. apply existsb_exists. exists i.
  split; [apply in_seq; lia|apply Nat.eqb_refl].
Qed.

Lemma length_par_loop1 (k : Mat -> Mat) (nodes : list nat) (out in1 : list Mat) :
  length (par_loop1 k nodes out in1) = length out.
Proof. unfold par_loop1. now rewrite length_map, length_indexed. Qed.

Lemma nth_par_loop1 (k : Mat -> Mat) (nodes : list nat) (out in1 : list Mat) (i : nat) :
  (i < length out)%nat ->
  nth i (par_loop1 k nodes out in1) [] =
  if existsb (Nat.eqb i) nodes then k (nth i in1 []) else nth i out [].
Proof.
  intros Hi. unfold par_loop1.
  set (f := fun io : nat * Mat =>
              if existsb (Nat.eqb (fst io)) nodes
              then k (nth (fst io) in1 []) else snd io).
  rewrite (nth_indep _ [] (f (0%nat, [])))
    by now rewrite length_map, length_indexed.
  rewrite (map_nth f), nth_indexed by assumption. reflexivity.
Qed.

(** A loop over the whole node set of a freshly created field applies the
    kernel to every nodal value. *)
Lemma par_loop1_whole (k : Mat -> Mat) (N : nat) (out in1 : list Mat) :
  length out = N -> length in1 = N ->
  par_loop1 k (seq 0 N) out in1 = map k in1.
Proof.
  intros Ho Hi. apply (list_ext []).
  - now rewrite length_par_loop1, length_map, Ho, Hi.
  - intros i Hlt. rewrite length_par_loop1 in Hlt.
    rewrite nth_par_loop1 by assumption.
    rewrite existsb_eqb_seq by lia.
    rewrite (nth_indep (map k in1) [] (k [])) by (rewrite length_map; lia).
    now rewrite map_nth.
Qed.

(** ** Repairing a Hessian *)

Lemma nth_column (n : nat) (V : Mat) (k i : nat) :
  (i < n)%nat -> nth i (column n V k) 0 = mget V i k.
Proof. intros Hi. unfold column. now rewrite nth_map_seq. Qed.

(** An eigenvalue is the quadratic form at its eigenvector. *)
Lemma quad_eigenvector (n : nat) (V : Mat) (lam : list R) (k : nat) :
  orthogonal n V -> (k < n)%nat ->
  quad n (recompose n V lam) (column n V k) = nth k lam 0.
Proof.
  intros HV Hk. rewrite quad_recompose.
  rewrite (rsum_ext n _ (fun l => nth l lam 0 * (if Nat.eqb l k then 1 else 0))).
  - rewrite rsum_delta_r by assumption. reflexivity.
  - intros l Hl.
    rewrite (rsum_ext n _ (fun i => mget V i k * mget V i l))
      by (intros i Hi; now rewrite nth_column).
    rewrite orthogonal_columns by assumption.
    rewrite (Nat.eqb_sym l k). destruct (Nat.eqb k l); ring.
Qed.

Lemma column_nonzero (n : nat) (V : Mat) (k : nat) :
  orthogonal n V -> (k < n)%nat ->
  exists i, (i < n)%nat /\ nth i (column n V k) 0 <> 0.
Proof.
  intros HV Hk.
  pose proof (orthogonal_columns n V k k HV Hk Hk) as H.
  rewrite Nat.eqb_refl in H.
  assert (Hne : rsum n (fun i => mget V i k * mget V i k) <> 0) by lra.
  apply rsum_nonzero in Hne. destruct Hne as [i [Hi Hne]].
  exists i. split; [assumption|]. rewrite nth_column by assumption.
  intros Hz. apply Hne. rewrite Hz. ring.
Qed.

Lemma spd_eigenvalues_pos (n : nat) (V : Mat) (lam : list R) (k : nat) :
  orthogonal n V -> pos_def n (recompose n V lam) -> (k < n)%nat ->
  0 < nth k lam 0.
Proof.
  intros HV Hpd Hk. rewrite <- (quad_eigenvector n V lam k HV Hk).
  apply Hpd. now apply column_nonzero.
Qed.

Lemma clamp_eigenvalue_pos (eps lam : R) : 0 < eps -> 0 < clamp_eigenvalue eps lam.
Proof.
  intros He. unfold clamp_eigenvalue.
  destruct (Rlt_dec 0 lam); [assumption|].
  pose proof (Rmax_r (Rabs lam) eps). lra.
Qed.

Lemma clamp_eigenvalue_id (eps lam : R) : 0 < lam -> clamp_eigenvalue eps lam = lam.
Proof.
  intros Hl. unfold clamp_eigenvalue.
  destruct (Rlt_dec 0 lam); [reflexivity|contradiction].
Qed.

Lemma metric_from_hessian_spd (eig : nat -> Mat -> Mat * list R) (eps : R)
    (n : nat) (H : Mat) :
  0 < eps -> eig_ok eig n H ->
  spd n (metric_from_hessian eig eps n H) /\
  positive_eigenvalues n (metric_from_hessian eig eps n H).
Proof.
  intros He (HV & Hlen & _). unfold metric_from_hessian.
  destruct (eig n H) as [V lam]. simpl in *.
  assert (Hpos : forall k, (k < n)%nat -> 0 < nth k (map (clamp_eigenvalue eps) lam) 0).
  { intros k Hk.
    rewrite (nth_indep _ 0 (clamp_eigenvalue eps 0)) by (rewrite length_map; lia).
    rewrite map_nth. now apply clamp_eigenvalue_pos. }
  split.
  - split; [apply wf_recompose|]. split; [apply msym_recompose|].
    now apply pos_def_recompose.
  - exists V, (map (clamp_eigenvalue eps) lam).
    split; [assumption|]. split; [now rewrite length_map|].
    split; [|reflexivity].
    apply Forall_map, Forall_forall. intros l _. now apply clamp_eigenvalue_pos.
Qed.

Lemma metric_from_hessian_fixes_spd (eig : nat -> Mat -> Mat * list R) (eps : R)
    (n : nat) (H : Mat) :
  eig_ok eig n H -> spd n H -> metric_from_hessian eig eps n H = H.
Proof.
  intros (HV & Hlen & Hrec) (_ & _ & Hpd). unfold metric_from_hessian.
  destruct (eig n H) as [V lam]. simpl in *.
  rewrite Hrec in Hpd.
  replace (map (clamp_eigenvalue eps) lam) with lam; [now symmetry|].
  apply (list_ext 0); [now rewrite length_map|].
  intros k Hk.
  rewrite (nth_indep (map _ lam) 0 (clamp_eigenvalue eps 0)) by now rewrite length_map.
  rewrite map_nth. symmetry. apply clamp_eigenvalue_id.
  apply (spd_eigenvalues_pos n V); [assumption|assumption|lia].
Qed.

(** C2. For a tensor field of square rank-2 shape whose nodal values are
    symmetric, [hessian_metric] returns a field on the same space whose
    nodal values are symmetric positive-definite and have positive
    eigenvalues; when the input is already symmetric positive-definite the
    field returned equals the input.  The eigensolver is assumed correct
    on the nodal values it is called on. *)
Theorem hessian_metric_spd (eig : nat -> Mat -> Mat * list R) (eps : R)
    (n : nat) (H : Function Mat) :
  0 < eps ->
  value_shape (function_space H) = [n; n] ->
  length (dat H) = node_count (function_space H) ->
  Forall (fun S => wf n S /\ msym n S) (dat H) ->
  Forall (eig_ok eig n) (dat H) ->
  exists M, hessian_metric eig eps H = Ok M /\
            function_space M = function_space H /\
            length (dat M) = length (dat H) /\
            Forall (fun S => spd n S /\ positive_eigenvalues n S) (dat M) /\
            (Forall (spd n) (dat H) -> M = H).
Proof.
  intros He Hshape Hlen Hsym Heig.
  unfold hessian_metric. rewrite Hshape. simpl length. simpl nth.
  rewrite !Nat.eqb_refl. simpl negb. cbv iota.
  unfold node_set.
  rewrite (par_loop1_whole _ (node_count (function_space H)))
    by (try assumption; unfold zeros; apply repeat_length).
  eexists. split; [reflexivity|]. simpl.
  split; [reflexivity|]. split; [apply length_map|]. split.
  - apply Forall_map. eapply Forall_impl; [|exact Heig].
    intros S HS. now apply metric_from_hessian_spd.
  - intros Hspd. destruct H as [fs data]. simpl in *. f_equal.
    rewrite <- (map_id data) at 2. apply map_ext_in. intros S HS.
    rewrite Forall_forall in Heig, Hspd.
    apply metric_from_hessian_fixes_spd; auto.
Qed.

Ltac list_eq :=
  repeat match goal with
         | |- (_ :: _) = (_ :: _) => apply (f_equal2 (@cons _))
         | |- [] = [] => reflexivity
         | |- @eq R _ _ => ring
         end.

Lemma orthogonal_mid2 : orthogonal 2 (mid 2).
Proof.
  split; [apply wf_mmk|].
  split; unfold mmul, mtrans, mid, mmk, mget; simpl; list_eq.
Qed.

Lemma diag_eig_ok (a b : R) : eig_ok diag_eig 2 (diag2 a b).
Proof.
  split; [apply orthogonal_mid2|]. split; [reflexivity|].
  unfold diag_eig, recompose, mmul, mtrans, mdiag, mid, mmk, mget, diag2.
  simpl. list_eq.
Qed.

Lemma wf_sym_diag2 (a b : R) : wf 2 (diag2 a b) /\ msym 2 (diag2 a b).
Proof.
  split.
  - split; [reflexivity|]. repeat (apply Forall_cons; [reflexivity|]). apply Forall_nil.
  - intros [|[|i]] [|[|j]] Hi Hj; try lia; reflexivity.
Qed.

Lemma hessian_metric_spd_witness :
  0 < / 1000 /\
  exists M, hessian_metric diag_eig (/ 1000) example_hessian = Ok M /\
            function_space M = function_space example_hessian /\
            length (dat M) = length (dat example_hessian) /\
            Forall (fun S => spd 2 S /\ positive_eigenvalues 2 S) (dat M) /\
            (Forall (spd 2) (dat example_hessian) -> M = example_hessian).
Proof.
  split; [lra|].
  apply (hessian_metric_spd diag_eig (/ 1000) 2 example_hessian).
  - lra.
  - reflexivity.
  - reflexivity.
  - repeat (apply Forall_cons; [apply wf_sym_diag2|]). apply Forall_nil.
  - repeat (apply Forall_cons; [apply diag_eig_ok|]). apply Forall_nil.
Defined.

(** ** Complexity allocation *)

Lemma pow_1_l (y : R) : pow 1 y = 1.
Proof. rewrite pow_Rpower by lra. apply Rpower_base_1. Qed.

Lemma pow_0_l (y : R) : y <> 0 -> pow 0 y = 0.
Proof.
  intros Hy. unfold pow.
  destruct (Rlt_dec 0 0) as [H|_]; [lra|].
  destruct (Req_dec_T y 0); [contradiction|reflexivity].
Qed.

Lemma assemble_ds_iso_field (a b c : R) (f : Mat -> R) :
  assemble_tensor true (iso_field a b c) f =
  1 * f (iso2 (/ 2 * a + / 2 * b + 0 * c))
  + (sqrt 2 * f (iso2 (0 * a + / 2 * b + / 2 * c))
  + (1 * f (iso2 (/ 2 * a + 0 * b + / 2 * c)) + 0)).
Proof.
  unfold assemble_tensor, iso_field.
  cbn [function_space dat tensor_space fs_mesh fs_element triangle_mesh
       topological_dimension quad_ds cells exterior_facets facet_cell facet_quad
       nth_error flat_map
       map fst snd triangle_cell basis_at combine
       cell_vertices qbary qweight app weighted_sum fold_right].
  now rewrite !eval_iso2.
Qed.

Lemma unit_field_coefficients :
  complexity_coefficients (iso_field 1 1 1) (iso_field 1 1 1) 1 None None
  = (/ 2, 2 + sqrt 2).
Proof.
  unfold complexity_coefficients.
  rewrite assemble_iso_field, assemble_ds_iso_field, !det_iso2.
  replace (/ 2 * 1 + / 2 * 1 + 0 * 1) with 1 by lra.
  replace (0 * 1 + / 2 * 1 + / 2 * 1) with 1 by lra.
  replace (/ 2 * 1 + 0 * 1 + / 2 * 1) with 1 by lra.
  replace (1 * 1) with 1 by lra.
  rewrite !pow_1_l. f_equal; lra.
Qed.

Lemma complexity_equation_residual (d : nat) (a b target c : R) :
  complexity_equation d a b target c <-> complexity_residual d a b target c = 0.
Proof. reflexivity. Qed.

(** For a positive first coefficient and a non-negative second one the
    left-hand side increases with [c], so the equation has at most one
    positive root. *)
Lemma positive_root_unique (d : nat) (a b target c1 c2 : R) :
  d = 2%nat \/ d = 3%nat -> 0 < a -> 0 <= b ->
  0 < c1 -> 0 < c2 ->
  complexity_equation d a b target c1 -> complexity_equation d a b target c2 ->
  c1 = c2.
Proof.
  intros Hd Ha Hb H1 H2 E1 E2. unfold complexity_equation in *.
  rewrite !pow_Rpower in E1, E2 by assumption.
  assert (He1 : 0 < INR d / 2) by (destruct Hd as [-> | ->]; simpl; lra).
  assert (He2 : 0 < (INR d - 1) / 2) by (destruct Hd as [-> | ->]; simpl; lra).
  assert (Hlt : forall x y, 0 < x -> x < y ->
            a * Rpower x (INR d / 2) + b * Rpower x ((INR d - 1) / 2)
            < a * Rpower y (INR d / 2) + b * Rpower y ((INR d - 1) / 2)).
  { intros x y Hx Hxy.
    pose proof (Rlt_Rpower_l x y (INR d / 2) He1 (conj Hx Hxy)).
    pose proof (Rlt_Rpower_l x y ((INR d - 1) / 2) He2 (conj Hx Hxy)).
    nra. }
  destruct (Rtotal_order c1 c2) as [H|[H|H]]; [|assumption|].
  - pose proof (Hlt c1 c2 H1 H). lra.
  - pose proof (Hlt c2 c1 H2 H). lra.
Qed.

(** A root of the equation for a target other than zero is positive. *)
Lemma root_positive (d : nat) (a b target c : R) :
  d = 2%nat \/ d = 3%nat -> target <> 0 ->
  complexity_equation d a b target c -> 0 < c.
Proof.
  intros Hd Ht E. destruct (Rlt_dec 0 c) as [Hc|Hc]; [assumption|exfalso].
  unfold complexity_equation, pow in E.
  destruct (Rlt_dec 0 c); [contradiction|].
  destruct (Req_dec_T (INR d / 2) 0) as [E1|_];
    [destruct Hd as [-> | ->]; simpl in E1; lra|].
  destruct (Req_dec_T ((INR d - 1) / 2) 0) as [E2|_];
    [destruct Hd as [-> | ->]; simpl in E2; lra|].
  lra.
Qed.

(** The outcome of the solve, by the shape of the solver's answer. *)
Lemma determine_metric_complexity_cases
    (sympy_solve : (R -> R) -> list sym_number)
    (H_interior H_boundary : Function Mat) (target q : R)
    (s_int s_bdy : option R) :
  let d := topological_dimension (fs_mesh (function_space H_interior)) in
  let ab := complexity_coefficients H_interior H_boundary q s_int s_bdy in
  let roots := sympy_solve (complexity_residual d (fst ab) (snd ab) target) in
  let run := determine_metric_complexity sympy_solve H_interior H_boundary
               target (Order q) s_int s_bdy in
  d = 2%nat \/ d = 3%nat ->
  (run = Raise ValueError <-> length roots <> 1%nat) /\
  (forall c, run = Ok c <-> roots = [SymReal c]) /\
  (run = Raise TypeError <-> exists re im, roots = [SymComplex re im]).
Proof.
  intros d ab roots run Hd. unfold run, determine_metric_complexity. fold d.
  assert (Hb : (Nat.eqb d 2 || Nat.eqb d 3)%bool = true)
    by (destruct Hd as [-> | ->]; reflexivity).
  rewrite Hb. cbn [assert bind]. fold ab. fold roots.
  destruct roots as [|[c|re im] [|c' roots']]; cbn [to_float length].
  - split; [split; [lia|reflexivity]|].
    split; [intros c; split; discriminate|].
    split; [discriminate|intros (re & im & H); discriminate].
  - split; [split; [discriminate|lia]|].
    split; [intros c0; split; intros H; inversion H; reflexivity|].
    split; [discriminate|intros (re & im & H); discriminate].
  - split; [split; [lia|reflexivity]|].
    split; [intros c0; split; discriminate|].
    split; [discriminate|intros (re & im & H); discriminate].
  - split; [split; [discriminate|lia]|].
    split; [intros c0; split; discriminate|].
    split; [intros _; now exists re, im|reflexivity].
  - split; [split; [lia|reflexivity]|].
    split; [intros c0; split; discriminate|].
    split; [discriminate|intros (re' & im' & H); discriminate].
Qed.


Lemma candidate_solver_unit_field :
  candidate_solver
    (complexity_residual 2 (/ 2) (2 + sqrt 2) (5 / 2 + sqrt 2)) = [SymReal 1].
Proof.
  unfold candidate_solver, complexity_residual. rewrite !pow_1_l.
  destruct (Req_dec_T _ 0) as [_|H]; [reflexivity|]. exfalso. apply H. lra.
Qed.



(** ** Relaxation *)

Lemma fs_eqb_refl (V : FunctionSpace) : fs_eqb V V = true.
Proof.
  unfold fs_eqb. rewrite Nat.eqb_refl.
  destruct (fs_element V); simpl;
    (destruct (list_eq_dec Nat.eq_dec (value_shape V) (value_shape V));
     [reflexivity|contradiction]).
Qed.

Lemma vadd_scaled (c w : R) (r : list R) :
  vadd (map (Rmult c) r) (map (Rmult w) r) = map (Rmult (c + w)) r.
Proof.
  unfold vadd. induction r as [|x r IH]; simpl; [reflexivity|].
  rewrite IH. f_equal. ring.
Qed.

Lemma madd_scaled (c w : R) (A : Mat) :
  madd (mscale c A) (mscale w A) = mscale (c + w) A.
Proof.
  unfold madd, mscale. induction A as [|r A IH]; simpl; [reflexivity|].
  now rewrite IH, vadd_scaled.
Qed.

Lemma field_axpy_scaled (c w : R) (data : list Mat) :
  field_axpy w data (map (mscale c) data) = map (mscale (c + w)) data.
Proof.
  unfold field_axpy. induction data as [|A data IH]; simpl; [reflexivity|].
  now rewrite IH, madd_scaled.
Qed.

Lemma mscale_1 (A : Mat) : mscale 1 A = A.
Proof.
  unfold mscale. rewrite <- (map_id A) at 2. apply map_ext. intros r.
  rewrite <- (map_id r) at 2. apply map_ext. intros x. ring.
Qed.

Lemma mscale_0 (n : nat) (A : Mat) : wf n A -> mscale 0 A = mzero n.
Proof.
  intros HA. apply (mat_ext n); [now apply wf_mscale|apply wf_mmk|].
  intros i j Hi Hj. unfold mzero. rewrite mget_mscale, mget_mmk by assumption. ring.
Qed.

Lemma zeros_scaled (fs : FunctionSpace) (n : nat) (data : list Mat) :
  value_shape fs = [n; n] -> length data = node_count fs -> Forall (wf n) data ->
  zeros fs = map (mscale 0) data.
Proof.
  intros Hs Hl Hwf. unfold zeros. rewrite Hs, <- Hl. simpl nth. clear Hl Hs.
  induction Hwf as [|A data HA _ IH]; simpl; [reflexivity|].
  now rewrite IH, (mscale_0 n).
Qed.

Lemma relaxation_loop_copies
    (interpolate : Function Mat -> option FunctionSpace -> result (Function Mat))
    (M : Function Mat) (fso : option FunctionSpace) (w c : R) (k : nat) :
  relaxation_loop interpolate (function_space M) fso
    (combine (repeat w k) (repeat M k)) (map (mscale c) (dat M))
  = Ok (map (mscale (c + INR k * w)) (dat M)).
Proof.
  revert c. induction k as [|k IH]; intros c.
  - simpl. do 3 f_equal. ring.
  - cbn [repeat combine relaxation_loop]. rewrite fs_eqb_refl. cbn [bind].
    rewrite field_axpy_scaled, IH. do 3 f_equal. rewrite S_INR. ring.
Qed.

(** Uniform weights over copies of one metric give the metric back; the
    empty weight list counts as no weights. *)
Lemma metric_relaxation_copies
    (interpolate : Function Mat -> option FunctionSpace -> result (Function Mat))
    (M : Function Mat) (k n : nat) (weights : option (list R)) :
  (1 <= k)%nat ->
  value_shape (function_space M) = [n; n] ->
  length (dat M) = node_count (function_space M) ->
  Forall (wf n) (dat M) ->
  weights = None \/ weights = Some [] ->
  metric_relaxation interpolate (repeat M k) weights None = Ok M.
Proof.
  intros Hk Hshape Hlen Hwf Hw. unfold metric_relaxation.
  destruct k as [|k]; [lia|]. cbn [repeat].
  change (M :: repeat M k) with (repeat M (S k)).
  rewrite repeat_length.
  assert (Hws : match weights with
                | Some (w :: ws) => w :: ws
                | _ => repeat (1 / INR (S k)) (S k)
                end = repeat (1 / INR (S k)) (S k))
    by (destruct Hw as [-> | ->]; reflexivity).
  rewrite Hws, repeat_length, Nat.eqb_refl. cbn [negb].
  rewrite (zeros_scaled _ n (dat M)) by assumption.
  rewrite relaxation_loop_copies. cbn [bind].
  replace (0 + INR (S k) * (1 / INR (S k))) with 1
    by (field; apply not_0_INR; lia).
  rewrite (map_ext _ (fun A => A)) by apply mscale_1.
  rewrite map_id. now destruct M.
Qed.

Lemma metric_relaxation_length_mismatch
    (interpolate : Function Mat -> option FunctionSpace -> result (Function Mat))
    (metrics : list (Function Mat)) (ws : list R) (fso : option FunctionSpace) :
  metrics <> [] -> ws <> [] -> length ws <> length metrics ->
  metric_relaxation interpolate metrics (Some ws) fso = Raise ValueError.
Proof.
  intros Hm Hws Hlen. unfold metric_relaxation.
  destruct metrics as [|first rest]; [contradiction|].
  destruct ws as [|w ws]; [contradiction|].
  destruct (Nat.eqb_spec (length (w :: ws)) (length (first :: rest))) as [H|_];
    [contradiction|reflexivity].
Qed.

(** C5 (amended). Uniform default weights over [k >= 1] copies of a metric
    [M] return [M], and a non-empty explicit weight list whose length
    differs from the number of metrics raises a value error.  An empty
    explicit list is replaced by the uniform weights. *)
Theorem metric_relaxation_uniform
    (interpolate : Function Mat -> option FunctionSpace -> result (Function Mat))
    (M : Function Mat) (k n : nat) :
  (1 <= k)%nat ->
  value_shape (function_space M) = [n; n] ->
  length (dat M) = node_count (function_space M) ->
  Forall (wf n) (dat M) ->
  metric_relaxation interpolate (repeat M k) None None = Ok M /\
  metric_relaxation interpolate (repeat M k) (Some []) None = Ok M /\
  (forall metrics ws fso,
      metrics <> [] -> ws <> [] -> length ws <> length metrics ->
      metric_relaxation interpolate metrics (Some ws) fso = Raise ValueError).
Proof.
  intros Hk Hshape Hlen Hwf. repeat split.
  - apply (metric_relaxation_copies interpolate M k n); auto.
  - apply (metric_relaxation_copies interpolate M k n); auto.
  - apply metric_relaxation_length_mismatch.
Qed.

Lemma wf_iso2 (m : R) : wf 2 (iso2 m).
Proof.
  split; [reflexivity|].
  repeat (apply Forall_cons; [reflexivity|]). apply Forall_nil.
Qed.

Lemma metric_relaxation_uniform_witness :
  metric_relaxation interpolate_stub (repeat graded_metric 3) None None
  = Ok graded_metric /\
  metric_relaxation interpolate_stub [graded_metric; iso_cell_field 4] (Some [1; 2; 3]) None
  = Raise ValueError.
Proof.
  assert (Hwf : Forall (wf 2) (dat graded_metric))
    by (repeat (apply Forall_cons; [apply wf_iso2|]); apply Forall_nil).
  destruct (metric_relaxation_uniform interpolate_stub graded_metric 3 2)
    as (H1 & _ & H3); [lia|reflexivity|reflexivity|exact Hwf|].
  split; [exact H1|].
  apply H3; [discriminate|discriminate|simpl; lia].
Defined.

(** C5, counterexample. An explicit empty weight list with one metric has
    the wrong length, and no value error is raised: the metric comes back
    as with uniform weights. *)
Lemma metric_relaxation_empty_weights_counterexample :
  length (@nil R) <> length [graded_metric] /\
  metric_relaxation interpolate_stub [graded_metric] (Some []) None = Ok graded_metric.
Proof.
  split; [simpl; lia|].
  apply (metric_relaxation_copies interpolate_stub graded_metric 1 2);
    [lia|reflexivity|reflexivity| |now right].
  repeat (apply Forall_cons; [apply wf_iso2|]); apply Forall_nil.
Qed.

(** ** Matrix algebra *)

Lemma mmul_assoc (n : nat) (A B C : Mat) :
  mmul n (mmul n A B) C = mmul n A (mmul n B C).
Proof.
  apply (mat_ext n); [apply wf_mmk|apply wf_mmk|].
  intros i j Hi Hj. rewrite !mget_mmul by assumption.
  rewrite (rsum_ext n _
    (fun k => rsum n (fun l => mget A i l * mget B l k * mget C k j))).
  - rewrite rsum_swap. apply rsum_ext. intros l Hl.
    rewrite mget_mmul by assumption. rewrite <- rsum_scal.
    apply rsum_ext. intros; ring.
  - intros k Hk. rewrite mget_mmul by assumption.
    rewrite <- rsum_scal_r. reflexivity.
Qed.

Lemma mtrans_mmul (n : nat) (A B : Mat) :
  mtrans n (mmul n A B) = mmul n (mtrans n B) (mtrans n A).
Proof.
  apply (mat_ext n); [apply wf_mmk|apply wf_mmk|].
  intros i j Hi Hj. rewrite mget_mtrans, !mget_mmul by assumption.
  apply rsum_ext. intros k Hk. rewrite !mget_mtrans by assumption. ring.
Qed.

Lemma mtrans_mtrans (n : nat) (A : Mat) : wf n A -> mtrans n (mtrans n A) = A.
Proof.
  intros HA. apply (mat_ext n); [apply wf_mmk|assumption|].
  intros i j Hi Hj. now rewrite !mget_mtrans.
Qed.

Lemma mtrans_mid (n : nat) : mtrans n (mid n) = mid n.
Proof.
  apply (mat_ext n); [apply wf_mmk|apply wf_mmk|].
  intros i j Hi Hj. rewrite mget_mtrans, !mget_mid by assumption.
  now rewrite Nat.eqb_sym.
Qed.

Lemma mmul_id_l (n : nat) (A : Mat) : wf n A -> mmul n (mid n) A = A.
Proof.
  intros HA. apply (mat_ext n); [apply wf_mmk|assumption|].
  intros i j Hi Hj. rewrite mget_mmul by assumption.
  rewrite (rsum_ext n _ (fun k => (if Nat.eqb i k then 1 else 0) * mget A k j)).
  - now apply (rsum_delta n i (fun k => mget A k j)).
  - intros k Hk. now rewrite mget_mid.
Qed.

Lemma mmul_id_r (n : nat) (A : Mat) : wf n A -> mmul n A (mid n) = A.
Proof.
  intros HA. apply (mat_ext n); [apply wf_mmk|assumption|].
  intros i j Hi Hj. rewrite mget_mmul by assumption.
  rewrite (rsum_ext n _ (fun k => mget A i k * (if Nat.eqb k j then 1 else 0))).
  - now apply (rsum_delta_r n j (fun k => mget A i k)).
  - intros k Hk. now rewrite mget_mid.
Qed.

Lemma wf_mmul (n : nat) (A B : Mat) : wf n (mmul n A B).
Proof. apply wf_mmk. Qed.

Lemma wf_mtrans (n : nat) (A : Mat) : wf n (mtrans n A).
Proof. apply wf_mmk. Qed.

Lemma wf_mdiag (n : nat) (v : list R) : wf n (mdiag n v).
Proof. apply wf_mmk. Qed.

Lemma length_diagonal (n : nat) (M : Mat) : length (diagonal n M) = n.
Proof. unfold diagonal. now rewrite length_map, length_seq. Qed.

Lemma nth_diagonal (n : nat) (M : Mat) (i : nat) :
  (i < n)%nat -> nth i (diagonal n M) 0 = mget M i i.
Proof. intros Hi. unfold diagonal. now rewrite nth_map_seq. Qed.

Lemma nth_vmax (a b : list R) (i : nat) :
  length a = length b ->
  nth i (vmax a b) 0 = Rmax (nth i a 0) (nth i b 0).
Proof.
  intros Hl. unfold vmax.
  replace 0 with (Rmax (fst (0, 0)) (snd (0, 0))) at 1
    by (simpl; apply Rmax_left; lra).
  rewrite (map_nth (fun xy => Rmax (fst xy) (snd xy))).
  now rewrite combine_nth.
Qed.

Lemma mdiag_diagonal (n : nat) (M : Mat) :
  wf n M -> is_diagonal n M -> mdiag n (diagonal n M) = M.
Proof.
  intros HM Hd. apply (mat_ext n); [apply wf_mmk|assumption|].
  intros i j Hi Hj. rewrite mget_mdiag by assumption.
  destruct (Nat.eqb_spec i j) as [->|Hne].
  - now apply nth_diagonal.
  - symmetry. now apply Hd.
Qed.

Lemma mget_mmul_diag_l (n : nat) (v : list R) (A : Mat) (i j : nat) :
  (i < n)%nat -> (j < n)%nat ->
  mget (mmul n (mdiag n v) A) i j = nth i v 0 * mget A i j.
Proof.
  intros Hi Hj. rewrite mget_mmul by assumption.
  rewrite (rsum_ext n _ (fun k => (if Nat.eqb i k then 1 else 0) * (nth i v 0 * mget A k j))).
  - now rewrite (rsum_delta n i (fun k => nth i v 0 * mget A k j)).
  - intros k Hk. rewrite mget_mdiag by assumption.
    destruct (Nat.eqb i k); ring.
Qed.

(** ** The intersection kernel *)

Lemma vmax_idem (a : list R) : vmax a a = a.
Proof.
  unfold vmax. induction a as [|x a IH]; simpl; [reflexivity|].
  rewrite IH. f_equal. apply Rmax_left. lra.
Qed.

Lemma vmax_comm (a b : list R) : vmax a b = vmax b a.
Proof.
  unfold vmax. revert b. induction a as [|x a IH]; intros [|y b]; simpl;
    try reflexivity.
  now rewrite IH, Rmax_comm.
Qed.

(** Undoing a change of basis: [Q^T (P^T A P) Q = A] when [P Q = 1]. *)
Lemma congruence_cancel (n : nat) (A P Q : Mat) :
  wf n A -> mmul n P Q = mid n ->
  mmul n (mmul n (mtrans n Q) (mmul n (mmul n (mtrans n P) A) P)) Q = A.
Proof.
  intros HA HPQ.
  rewrite !mmul_assoc, HPQ, (mmul_id_r n A HA).
  rewrite <- mmul_assoc, <- mtrans_mmul, HPQ, mtrans_mid.
  now apply mmul_id_l.
Qed.

Lemma mget_congruence_diag (n : nat) (S : Mat) (v : list R) (j k : nat) :
  (j < n)%nat -> (k < n)%nat ->
  mget (mmul n (mmul n (mtrans n S) (mdiag n v)) S) j k =
  rsum n (fun i => mget S i j * nth i v 0 * mget S i k).
Proof.
  intros Hj Hk. rewrite mget_mmul by assumption.
  apply rsum_ext. intros i Hi.
  now rewrite mget_mmul_diag_r, mget_mtrans.
Qed.

(** The diagonal of [P^T A P] is the quadratic form of [A] at the columns
    of [P]. *)
Lemma mget_congruence (n : nat) (A P : Mat) (i : nat) :
  (i < n)%nat ->
  mget (mmul n (mmul n (mtrans n P) A) P) i i = quad n A (column n P i).
Proof.
  intros Hi. rewrite mget_mmul by assumption. unfold quad.
  rewrite rsum_swap. apply rsum_ext. intros k Hk.
  rewrite mget_mmul by assumption. rewrite <- rsum_scal_r.
  apply rsum_ext. intros l Hl.
  rewrite mget_mtrans, !nth_column by assumption. ring.
Qed.

Lemma congruence_diag_pos (n : nat) (A P Q : Mat) (i : nat) :
  pos_def n A -> mmul n Q P = mid n -> (i < n)%nat ->
  0 < mget (mmul n (mmul n (mtrans n P) A) P) i i.
Proof.
  intros Hpd HQP Hi. rewrite mget_congruence by assumption.
  apply Hpd.
  assert (Hone : rsum n (fun k => mget Q i k * mget P k i) = 1).
  { rewrite <- mget_mmul, HQP, mget_mid by assumption.
    now rewrite Nat.eqb_refl. }
  assert (Hne : rsum n (fun k => mget Q i k * mget P k i) <> 0) by lra.
  apply rsum_nonzero in Hne. destruct Hne as [k [Hk Hne]].
  exists k. split; [assumption|]. rewrite nth_column by assumption.
  intros Hz. apply Hne. rewrite Hz. ring.
Qed.

Lemma Rmax_proportional (a b a' b' : R) :
  0 < a -> 0 < a' -> b * a' = a * b' ->
  Rmax a b * a' = a * Rmax a' b'.
Proof.
  intros Ha Ha' H. unfold Rmax.
  destruct (Rle_dec a b), (Rle_dec a' b'); nra.
Qed.

Section BasisIndependence.

Variables (n : nat) (P Q P' Q' : Mat).
Hypothesis HP : wf n P.
Hypothesis HQ : wf n Q.
Hypothesis HPQ : mmul n P Q = mid n.
Hypothesis HQP : mmul n Q P = mid n.
Hypothesis HPQ' : mmul n P' Q' = mid n.

Let S := mmul n Q P'.
Let T := mmul n Q' P.

Lemma basis_ST_id : mmul n S T = mid n.
Proof.
  unfold S, T. rewrite mmul_assoc, <- (mmul_assoc n P' Q' P), HPQ'.
  now rewrite (mmul_id_l n P HP).
Qed.

Lemma basis_SQ' : mmul n S Q' = Q.
Proof.
  unfold S. rewrite mmul_assoc, HPQ'. now apply mmul_id_r.
Qed.

(** The two diagonal forms of one tensor are congruent through [S]. *)
Lemma basis_change (X : Mat) :
  wf n X ->
  mmul n (mmul n (mtrans n S) (mmul n (mmul n (mtrans n P) X) P)) S
  = mmul n (mmul n (mtrans n P') X) P'.
Proof.
  intros HX. unfold S. rewrite mtrans_mmul.
  transitivity
    (mmul n (mmul n (mtrans n P')
               (mmul n (mmul n (mtrans n Q) (mmul n (mmul n (mtrans n P) X) P)) Q))
            P').
  - now rewrite !mmul_assoc.
  - now rewrite (congruence_cancel n X P Q HX HPQ).
Qed.

(** Entry by entry, [S] intertwines the diagonal forms. *)
Lemma basis_intertwine (X : Mat) (i k : nat) :
  wf n X ->
  is_diagonal n (mmul n (mmul n (mtrans n P) X) P) ->
  is_diagonal n (mmul n (mmul n (mtrans n P') X) P') ->
  (i < n)%nat -> (k < n)%nat ->
  mget (mmul n (mmul n (mtrans n P) X) P) i i * mget S i k =
  mget T k i * mget (mmul n (mmul n (mtrans n P') X) P') k k.
Proof.
  intros HX Hd Hd' Hi Hk.
  set (D := mmul n (mmul n (mtrans n P) X) P) in *.
  set (D' := mmul n (mmul n (mtrans n P') X) P') in *.
  assert (H : mmul n (mtrans n T) D' = mmul n D S).
  { unfold D'. rewrite <- (basis_change X HX). fold D.
    rewrite <- !mmul_assoc, <- mtrans_mmul, basis_ST_id, mtrans_mid.
    now rewrite (mmul_id_l n D) by apply wf_mmul. }
  assert (HD : D = mdiag n (diagonal n D))
    by (symmetry; apply mdiag_diagonal; [apply wf_mmul|assumption]).
  assert (HD' : D' = mdiag n (diagonal n D'))
    by (symmetry; apply mdiag_diagonal; [apply wf_mmul|assumption]).
  assert (E : mget (mmul n (mtrans n T) D') i k = mget (mmul n D S) i k)
    by now rewrite H.
  rewrite HD' in E at 1. rewrite HD in E at 1.
  rewrite mget_mmul_diag_r, mget_mmul_diag_l, mget_mtrans in E by assumption.
  rewrite !nth_diagonal in E by assumption. lra.
Qed.

Variables (A B : Mat).
Hypothesis HA : wf n A.
Hypothesis HB : wf n B.

Let Da := mmul n (mmul n (mtrans n P) A) P.
Let Db := mmul n (mmul n (mtrans n P) B) P.
Let Da' := mmul n (mmul n (mtrans n P') A) P'.
Let Db' := mmul n (mmul n (mtrans n P') B) P'.

Hypothesis HDa : is_diagonal n Da.
Hypothesis HDb : is_diagonal n Db.
Hypothesis HDa' : is_diagonal n Da'.
Hypothesis HDb' : is_diagonal n Db'.
Hypothesis Hpos : forall i, (i < n)%nat -> 0 < mget Da i i.
Hypothesis Hpos' : forall i, (i < n)%nat -> 0 < mget Da' i i.

(** The intersection does not depend on the diagonalising basis. *)
Lemma intersection_basis_independent :
  mmul n (mmul n (mtrans n Q) (mdiag n (vmax (diagonal n Da) (diagonal n Db)))) Q =
  mmul n (mmul n (mtrans n Q') (mdiag n (vmax (diagonal n Da') (diagonal n Db')))) Q'.
Proof.
  set (mx := vmax (diagonal n Da) (diagonal n Db)).
  set (mx' := vmax (diagonal n Da') (diagonal n Db')).
  assert (Hmx : forall i, (i < n)%nat ->
                nth i mx 0 = Rmax (mget Da i i) (mget Db i i)).
  { intros i Hi. unfold mx.
    rewrite nth_vmax by now rewrite !length_diagonal.
    now rewrite !nth_diagonal. }
  assert (Hmx' : forall i, (i < n)%nat ->
                 nth i mx' 0 = Rmax (mget Da' i i) (mget Db' i i)).
  { intros i Hi. unfold mx'.
    rewrite nth_vmax by now rewrite !length_diagonal.
    now rewrite !nth_diagonal. }
  assert (Hkey : mmul n (mmul n (mtrans n S) (mdiag n mx)) S = mdiag n mx').
  { apply (mat_ext n); [apply wf_mmul|apply wf_mdiag|].
    intros j k Hj Hk.
    rewrite mget_congruence_diag, mget_mdiag by assumption.
    apply (Rmult_eq_reg_r (mget Da' k k));
      [|apply Rgt_not_eq, Rlt_gt, Hpos'; assumption].
    rewrite <- rsum_scal_r.
    rewrite (rsum_ext n _
      (fun i => Rmax (mget Da' k k) (mget Db' k k) *
                (mget S i j * nth i (diagonal n Da) 0 * mget S i k))).
    - rewrite rsum_scal.
      rewrite <- mget_congruence_diag by assumption.
      rewrite (mdiag_diagonal n Da) by (try apply wf_mmul; assumption).
      unfold Da. rewrite (basis_change A HA). fold Da'.
      destruct (Nat.eqb_spec j k) as [->|Hne].
      + rewrite Hmx' by assumption. ring.
      + rewrite (HDa' j k) by assumption. ring.
    - intros i Hi. rewrite Hmx, nth_diagonal by assumption.
      pose proof (basis_intertwine A i k HA HDa HDa' Hi Hk) as Ea.
      pose proof (basis_intertwine B i k HB HDb HDb' Hi Hk) as Eb.
      fold Da Da' in Ea. fold Db Db' in Eb.
      destruct (Req_dec (mget S i k) 0) as [Hz|Hnz]; [rewrite Hz; ring|].
      assert (Hprop : mget Db i i * mget Da' k k = mget Da i i * mget Db' k k).
      { apply (Rmult_eq_reg_r (mget S i k)); [|assumption].
        replace (mget Db i i * mget Da' k k * mget S i k)
          with (mget Db i i * mget S i k * mget Da' k k) by ring.
        replace (mget Da i i * mget Db' k k * mget S i k)
          with (mget Da i i * mget S i k * mget Db' k k) by ring.
        rewrite Ea, Eb. ring. }
      pose proof (Rmax_proportional _ _ _ _ (Hpos i Hi) (Hpos' k Hk) Hprop) as Hm.
      transitivity (mget S i j * mget S i k *
                    (Rmax (mget Da i i) (mget Db i i) * mget Da' k k)); [ring|].
      rewrite Hm. ring. }
  rewrite <- Hkey, <- basis_SQ'.
  rewrite mtrans_mmul. now rewrite !mmul_assoc.
Qed.

End BasisIndependence.

Lemma intersect_self (eigenbasis : nat -> Mat -> Mat -> Mat)
    (inverse : nat -> Mat -> Mat) (n : nat) (A : Mat) :
  wf n A -> eigenbasis_ok eigenbasis inverse n A A ->
  intersect eigenbasis inverse n A A = A.
Proof.
  intros HA (HP & HQ & HPQ & HQP & HD & _). unfold intersect.
  rewrite vmax_idem, mdiag_diagonal by (try apply wf_mmul; assumption).
  now apply congruence_cancel.
Qed.

Lemma intersect_comm (eigenbasis : nat -> Mat -> Mat -> Mat)
    (inverse : nat -> Mat -> Mat) (n : nat) (A B : Mat) :
  spd n A -> spd n B ->
  eigenbasis_ok eigenbasis inverse n A B ->
  eigenbasis_ok eigenbasis inverse n B A ->
  intersect eigenbasis inverse n A B = intersect eigenbasis inverse n B A.
Proof.
  intros (HA & _ & HpA) (HB & _ & HpB)
         (HP & HQ & HPQ & HQP & HDa & HDb)
         (HP' & HQ' & HPQ' & HQP' & HDb' & HDa').
  unfold intersect.
  rewrite (vmax_comm (diagonal n (mmul n (mmul n (mtrans n (eigenbasis n B A)) B)
                                         (eigenbasis n B A)))).
  apply intersection_basis_independent; try assumption.
  - intros i Hi. now apply (congruence_diag_pos n A _ (inverse n (eigenbasis n A B))).
  - intros i Hi. now apply (congruence_diag_pos n A _ (inverse n (eigenbasis n B A))).
Qed.

(** ** The store *)

Lemma load_ok (h : heap) (l : loc) (f : Function Mat) :
  nth_error h l = Some f -> load l h = Ok (f, h).
Proof. intros H. unfold load. now rewrite H. Qed.

Lemma nth_error_extend (h t : heap) (l : loc) (f : Function Mat) :
  nth_error h l = Some f -> nth_error (h ++ t) l = Some f.
Proof.
  intros H. rewrite nth_error_app1; [assumption|].
  apply nth_error_Some. congruence.
Qed.

Lemma operands_extend (h t : heap) (ms : list loc) (fs : list (Function Mat)) :
  operands h ms fs -> operands (h ++ t) ms fs.
Proof.
  intros H. induction H; constructor; [|assumption].
  now apply nth_error_extend.
Qed.

Lemma list_set_last {A : Type} (h : list A) (x y : A) :
  list_set (h ++ [x]) (length h) y = h ++ [y].
Proof. induction h as [|a h IH]; simpl; [reflexivity|now rewrite IH]. Qed.

Lemma nth_error_last {A : Type} (h : list A) (x : A) :
  nth_error (h ++ [x]) (length h) = Some x.
Proof.
  rewrite nth_error_app2 by lia. now rewrite Nat.sub_diag.
Qed.

Section IntersectionRun.

Variable interpolate : Function Mat -> option FunctionSpace -> result (Function Mat).
Variable eigenbasis : nat -> Mat -> Mat -> Mat.
Variable inverse : nat -> Mat -> Mat.

Lemma intersect_pair_run (dim : nat) (nodes : list nat) (M1 M2 : loc)
    (f1 f2 : Function Mat) (h : heap) :
  nth_error h M1 = Some f1 -> nth_error h M2 = Some f2 ->
  intersect_pair eigenbasis inverse dim nodes M1 M2 h =
  Ok (length h,
      h ++ [{| function_space := function_space f1;
               dat := par_loop2 (intersect eigenbasis inverse dim) nodes
                                (dat f1) (dat f1) (dat f2) |}]).
Proof.
  intros H1 H2. unfold intersect_pair, bindS.
  rewrite (load_ok h M1 f1 H1). unfold new_function.
  rewrite (load_ok (h ++ [f1]) M2 f2) by now apply nth_error_extend.
  unfold store_dat. rewrite nth_error_last, list_set_last. reflexivity.
Qed.

Lemma intersect_rest_run (dim : nat) (nodes : list nat) (rest : list loc) :
  forall (values : list (Function Mat)) (cur : loc) (fcur : Function Mat) (h : heap),
    nth_error h cur = Some fcur ->
    operands h rest values ->
    exists l t,
      intersect_rest eigenbasis inverse dim nodes cur rest h = Ok (l, h ++ t) /\
      (l = cur \/ (length h <= l)%nat) /\
      nth_error (h ++ t) l =
        Some (intersection_value eigenbasis inverse dim nodes fcur values).
Proof.
  induction rest as [|m rest IH]; intros values cur fcur h Hcur Hops.
  - inversion Hops; subst. exists cur, []. simpl. unfold ret.
    rewrite app_nil_r. split; [reflexivity|]. split; [now left|].
    rewrite Hcur. now destruct fcur.
  - inversion Hops as [|? f ? fs Hm Hrest]; subst.
    cbn [intersect_rest]. unfold bindS.
    rewrite (intersect_pair_run dim nodes cur m fcur f h Hcur Hm).
    set (f12 := {| function_space := function_space fcur;
                   dat := par_loop2 (intersect eigenbasis inverse dim) nodes
                                    (dat fcur) (dat fcur) (dat f) |}).
    destruct (IH fs (length h) f12 (h ++ [f12])) as (l & t & Hrun & Hl & Hval).
    + apply nth_error_last.
    + now apply operands_extend.
    + exists l, ([f12] ++ t). rewrite app_assoc. split; [exact Hrun|].
      split.
      * right. rewrite length_app in Hl. simpl in Hl. lia.
      * rewrite Hval. reflexivity.
Qed.

Lemma interpolate_operands_extends (fs : FunctionSpace) (fso : option FunctionSpace)
    (metrics : list loc) :
  forall (h h1 : heap) (u : unit),
    interpolate_operands interpolate fs fso metrics h = Ok (u, h1) ->
    exists t, h1 = h ++ t.
Proof.
  induction metrics as [|m metrics IH]; intros h h1 u Hrun.
  - inversion Hrun; subst. exists []. now rewrite app_nil_r.
  - cbn [interpolate_operands] in Hrun. unfold bindS, load in Hrun.
    destruct (nth_error h m) as [f|]; [|discriminate].
    destruct (fs_eqb (function_space f) fs).
    + unfold ret in Hrun. now apply IH in Hrun.
    + unfold lift, new_function, ret in Hrun.
      destruct (interpolate f fso) as [g|e]; [|discriminate].
      apply IH in Hrun. destruct Hrun as [t ->].
      exists ([g] ++ t). now rewrite app_assoc.
Qed.

Lemma interpolate_operands_same_space (fs : FunctionSpace) (fso : option FunctionSpace)
    (metrics : list loc) (values : list (Function Mat)) (h : heap) :
  operands h metrics values ->
  Forall (fun f => fs_eqb (function_space f) fs = true) values ->
  interpolate_operands interpolate fs fso metrics h = Ok (tt, h).
Proof.
  intros Hops. induction Hops as [|m f ms fs' Hm _ IH]; intros Hfs.
  - reflexivity.
  - inversion Hfs; subst. cbn [interpolate_operands]. unfold bindS.
    rewrite (load_ok _ _ _ Hm). rewrite H1. unfold ret. now apply IH.
Qed.

(** A run of [metric_intersection], once the interpolation loop has gone
    through. *)
Lemma metric_intersection_run (first : loc) (rest : list loc)
    (f0 : Function Mat) (values : list (Function Mat))
    (fso : option FunctionSpace) (boundary_tag : option (list nat)) (h : heap) :
  let fs := match fso with Some fs => fs | None => function_space f0 end in
  let dim := topological_dimension (fs_mesh fs) in
  nth_error h first = Some f0 ->
  operands h rest values ->
  forall t0,
    interpolate_operands interpolate fs fso (first :: rest) h = Ok (tt, h ++ t0) ->
    boundary_tag <> Some [] ->
    dim = 2%nat \/ dim = 3%nat ->
    exists l t,
      metric_intersection interpolate eigenbasis inverse (first :: rest) fso boundary_tag h
        = Ok (l, h ++ t) /\
      (length h <= l)%nat /\
      nth_error (h ++ t) l =
        Some (intersection_value eigenbasis inverse dim
                (intersection_nodes fs boundary_tag) f0 values).
Proof.
  intros fs dim Hfirst Hops t0 Hinterp Htag Hdim.
  assert (Hb : (Nat.eqb dim 2 || Nat.eqb dim 3)%bool = true)
    by (destruct Hdim as [-> | ->]; reflexivity).
  destruct (intersect_rest_run dim (intersection_nodes fs boundary_tag) rest values
              (length (h ++ t0)) f0 ((h ++ t0) ++ [f0]))
    as (l & t & Hrun & Hl & Hval).
  { apply nth_error_last. }
  { rewrite <- app_assoc. now apply operands_extend. }
  exists l, (t0 ++ [f0] ++ t).
  replace (h ++ t0 ++ [f0] ++ t) with (((h ++ t0) ++ [f0]) ++ t)
    by now rewrite <- !app_assoc.
  split; [|split; [|exact Hval]].
  - unfold metric_intersection, bindS.
    rewrite (load_ok h first f0 Hfirst). fold fs. rewrite Hinterp.
    unfold new_function. fold dim.
    destruct boundary_tag as [[|t1 ts]|]; [contradiction| |];
      unfold ret; rewrite Hb; simpl lift; cbv iota; exact Hrun.
  - rewrite !length_app in Hl. simpl in Hl. lia.
Qed.

End IntersectionRun.

(** ** Intersection of fields *)

Lemma length_par_loop2 (k : Mat -> Mat -> Mat) (nodes : list nat)
    (out in1 in2 : list Mat) :
  length (par_loop2 k nodes out in1 in2) = length out.
Proof. unfold par_loop2. now rewrite length_map, length_indexed. Qed.

Lemma nth_par_loop2 (k : Mat -> Mat -> Mat) (nodes : list nat)
    (out in1 in2 : list Mat) (i : nat) :
  (i < length out)%nat ->
  nth i (par_loop2 k nodes out in1 in2) [] =
  if existsb (Nat.eqb i) nodes then k (nth i in1 []) (nth i in2 [])
  else nth i out [].
Proof.
  intros Hi. unfold par_loop2.
  set (f := fun io : nat * Mat =>
              if existsb (Nat.eqb (fst io)) nodes
              then k (nth (fst io) in1 []) (nth (fst io) in2 []) else snd io).
  rewrite (nth_indep _ [] (f (0%nat, [])))
    by now rewrite length_map, length_indexed.
  rewrite (map_nth f), nth_indexed by assumption. reflexivity.
Qed.

Lemma Forall2_nth_pair {A : Type} (P : A -> A -> Prop) (d : A) (l1 l2 : list A) (i : nat) :
  Forall2 P l1 l2 -> (i < length l1)%nat -> P (nth i l1 d) (nth i l2 d).
Proof.
  intros H. revert i. induction H as [|x y l1 l2 Hxy _ IH]; intros i Hi;
    simpl in *; [lia|].
  destruct i as [|i]; [assumption|]. apply IH. lia.
Qed.

Lemma Forall_nth_in {A : Type} (P : A -> Prop) (d : A) (l : list A) (i : nat) :
  Forall P l -> (i < length l)%nat -> P (nth i l d).
Proof. intros H Hi. rewrite Forall_forall in H. now apply H, nth_In. Qed.

(** Intersecting a field with itself changes no node, on any node set. *)
Lemma par_loop2_intersect_self (eigenbasis : nat -> Mat -> Mat -> Mat)
    (inverse : nat -> Mat -> Mat) (n : nat) (nodes : list nat) (data : list Mat) :
  Forall (wf n) data ->
  Forall (fun A => eigenbasis_ok eigenbasis inverse n A A) data ->
  par_loop2 (intersect eigenbasis inverse n) nodes data data data = data.
Proof.
  intros Hwf Hok. apply (list_ext []); [apply length_par_loop2|].
  intros i Hi. rewrite length_par_loop2 in Hi.
  rewrite nth_par_loop2 by assumption.
  destruct (existsb (Nat.eqb i) nodes); [|reflexivity].
  apply intersect_self; now apply Forall_nth_in.
Qed.

(** Over the whole node set, the intersection of two fields does not
    depend on their order. *)
Lemma par_loop2_intersect_comm (eigenbasis : nat -> Mat -> Mat -> Mat)
    (inverse : nat -> Mat -> Mat) (n N : nat) (d1 d2 : list Mat) :
  length d1 = N -> length d2 = N ->
  Forall (spd n) d1 -> Forall (spd n) d2 ->
  Forall2 (fun A B => eigenbasis_ok eigenbasis inverse n A B /\
                      eigenbasis_ok eigenbasis inverse n B A) d1 d2 ->
  par_loop2 (intersect eigenbasis inverse n) (seq 0 N) d1 d1 d2 =
  par_loop2 (intersect eigenbasis inverse n) (seq 0 N) d2 d2 d1.
Proof.
  intros H1 H2 Hs1 Hs2 Hok. apply (list_ext []).
  - rewrite !length_par_loop2. congruence.
  - intros i Hi. rewrite length_par_loop2 in Hi.
    rewrite !nth_par_loop2 by lia.
    rewrite existsb_eqb_seq by lia.
    destruct (Forall2_nth_pair _ [] d1 d2 i Hok Hi) as [Hab Hba].
    apply intersect_comm; try assumption; apply Forall_nth_in; try assumption; lia.
Qed.

Lemma metric_intersection_pair_run
    (interpolate : Function Mat -> option FunctionSpace -> result (Function Mat))
    (eigenbasis : nat -> Mat -> Mat -> Mat) (inverse : nat -> Mat -> Mat)
    (h : heap) (m1 m2 : loc) (M1 M2 : Function Mat) :
  let fs := function_space M1 in
  let dim := topological_dimension (fs_mesh fs) in
  nth_error h m1 = Some M1 -> nth_error h m2 = Some M2 ->
  function_space M2 = fs ->
  dim = 2%nat \/ dim = 3%nat ->
  exists l t,
    metric_intersection interpolate eigenbasis inverse [m1; m2] None None h
      = Ok (l, h ++ t) /\
    (length h <= l)%nat /\
    nth_error (h ++ t) l =
      Some {| function_space := fs;
              dat := par_loop2 (intersect eigenbasis inverse dim) (node_set fs)
                               (dat M1) (dat M1) (dat M2) |}.
Proof.
  intros fs dim H1 H2 Hfs Hdim.
  assert (Hops : operands h [m2] [M2])
    by (constructor; [assumption|constructor]).
  assert (Hinterp : interpolate_operands interpolate fs None [m1; m2] h = Ok (tt, h ++ [])).
  { rewrite app_nil_r.
    apply (interpolate_operands_same_space interpolate _ None [m1; m2] [M1; M2]).
    - constructor; [assumption|]. constructor; [assumption|constructor].
    - constructor; [apply fs_eqb_refl|]. constructor; [|constructor].
      rewrite Hfs. apply fs_eqb_refl. }
  assert (Htag : @None (list nat) <> Some []) by discriminate.
  exact (metric_intersection_run interpolate eigenbasis inverse m1 [m2] M1 [M2]
           None None h H1 Hops [] Hinterp Htag Hdim).
Qed.

(** C4. For a valid metric [M1] in the store, [metric_intersection(M1, M1)]
    returns a new field equal to [M1]; and for two valid metrics on the same
    function space, [metric_intersection(M1, M2)] and
    [metric_intersection(M2, M1)] return equal fields.  The dense linear
    algebra behind the kernel is assumed correct on the nodal values. *)
Theorem metric_intersection_self_comm
    (interpolate : Function Mat -> option FunctionSpace -> result (Function Mat))
    (eigenbasis : nat -> Mat -> Mat -> Mat) (inverse : nat -> Mat -> Mat)
    (h : heap) (m1 m2 : loc) (M1 M2 : Function Mat) :
  let dim := topological_dimension (fs_mesh (function_space M1)) in
  nth_error h m1 = Some M1 -> nth_error h m2 = Some M2 ->
  valid_metric M1 -> valid_metric M2 ->
  function_space M2 = function_space M1 ->
  dim = 2%nat \/ dim = 3%nat ->
  Forall (fun A => eigenbasis_ok eigenbasis inverse dim A A) (dat M1) ->
  Forall2 (fun A B => eigenbasis_ok eigenbasis inverse dim A B /\
                      eigenbasis_ok eigenbasis inverse dim B A) (dat M1) (dat M2) ->
  (exists l t,
      metric_intersection interpolate eigenbasis inverse [m1; m1] None None h
        = Ok (l, h ++ t) /\
      (length h <= l)%nat /\
      nth_error (h ++ t) l = Some M1) /\
  (exists l t l' t' r,
      metric_intersection interpolate eigenbasis inverse [m1; m2] None None h
        = Ok (l, h ++ t) /\
      metric_intersection interpolate eigenbasis inverse [m2; m1] None None h
        = Ok (l', h ++ t') /\
      nth_error (h ++ t) l = Some r /\
      nth_error (h ++ t') l' = Some r).
Proof.
  intros dim H1 H2 (_ & _ & Hlen1 & Hspd1) (_ & _ & Hlen2 & Hspd2) Hfs Hdim Hself Hpair.
  rewrite Hfs in Hlen2, Hspd2. fold dim in Hspd1, Hspd2.
  split.
  - destruct (metric_intersection_pair_run interpolate eigenbasis inverse h m1 m1 M1 M1
                H1 H1 eq_refl Hdim) as (l & t & Hrun & Hl & Hval).
    exists l, t. split; [exact Hrun|]. split; [exact Hl|].
    rewrite Hval. fold dim. rewrite par_loop2_intersect_self.
    + now destruct M1.
    + eapply Forall_impl; [|exact Hspd1]. intros A HA. apply HA.
    + exact Hself.
  - destruct (metric_intersection_pair_run interpolate eigenbasis inverse h m1 m2 M1 M2
                H1 H2 Hfs Hdim) as (l & t & Hrun & Hl & Hval).
    assert (Hdim' : topological_dimension (fs_mesh (function_space M2)) = 2%nat \/
                    topological_dimension (fs_mesh (function_space M2)) = 3%nat)
      by (rewrite Hfs; exact Hdim).
    destruct (metric_intersection_pair_run interpolate eigenbasis inverse h m2 m1 M2 M1
                H2 H1 (eq_sym Hfs) Hdim') as (l' & t' & Hrun' & Hl' & Hval').
    eexists l, t, l', t', _. split; [exact Hrun|]. split; [exact Hrun'|].
    split; [exact Hval|]. rewrite Hval', Hfs. fold dim. do 2 f_equal.
    unfold node_set. symmetry.
    apply par_loop2_intersect_comm; assumption.
Qed.

Lemma is_diagonal_iso2 (a : R) : is_diagonal 2 (iso2 a).
Proof. intros [|[|i]] [|[|j]] Hi Hj Hne; try lia; reflexivity. Qed.

Lemma canonical_basis_ok (a b : R) :
  eigenbasis_ok canonical_basis canonical_inverse 2 (iso2 a) (iso2 b).
Proof.
  unfold eigenbasis_ok, canonical_basis, canonical_inverse.
  assert (Hc : forall c, mmul 2 (mmul 2 (mtrans 2 (mid 2)) (iso2 c)) (mid 2) = iso2 c).
  { intros c. rewrite mtrans_mid, mmul_id_l, mmul_id_r by apply wf_iso2.
    reflexivity. }
  rewrite !Hc.
  repeat split; try apply wf_mmk; try apply is_diagonal_iso2;
    apply mmul_id_l, wf_mmk.
Qed.

Lemma metric_intersection_self_comm_witness :
  (exists l t,
      metric_intersection interpolate_stub canonical_basis canonical_inverse
        [0%nat; 0%nat] None None example_store = Ok (l, example_store ++ t) /\
      (length example_store <= l)%nat /\
      nth_error (example_store ++ t) l = Some (iso_field 1 2 3)) /\
  (exists l t l' t' r,
      metric_intersection interpolate_stub canonical_basis canonical_inverse
        [0%nat; 1%nat] None None example_store = Ok (l, example_store ++ t) /\
      metric_intersection interpolate_stub canonical_basis canonical_inverse
        [1%nat; 0%nat] None None example_store = Ok (l', example_store ++ t') /\
      nth_error (example_store ++ t) l = Some r /\
      nth_error (example_store ++ t') l' = Some r).
Proof.
  apply (metric_intersection_self_comm interpolate_stub canonical_basis
           canonical_inverse example_store 0%nat 1%nat
           (iso_field 1 2 3) (iso_field 4 1 2)).
  - reflexivity.
  - reflexivity.
  - apply valid_iso_field; lra.
  - apply valid_iso_field; lra.
  - reflexivity.
  - left. reflexivity.
  - repeat (apply Forall_cons; [apply canonical_basis_ok|]). apply Forall_nil.
  - repeat (apply Forall2_cons; [split; apply canonical_basis_ok|]). apply Forall2_nil.
Defined.

Lemma metric_intersection_returns
    (interpolate : Function Mat -> option FunctionSpace -> result (Function Mat))
    (eigenbasis : nat -> Mat -> Mat -> Mat) (inverse : nat -> Mat -> Mat)
    (metrics : list loc) (values : list (Function Mat))
    (fso : option FunctionSpace) (boundary_tag : option (list nat))
    (h h' : heap) (l : loc) :
  operands h metrics values ->
  metric_intersection interpolate eigenbasis inverse metrics fso boundary_tag h
    = Ok (l, h') ->
  exists f0 others t,
    values = f0 :: others /\
    h' = h ++ t /\
    (length h <= l)%nat /\
    let fs := match fso with Some fs => fs | None => function_space f0 end in
    nth_error h' l
    = Some (intersection_value eigenbasis inverse (topological_dimension (fs_mesh fs))
              (intersection_nodes fs boundary_tag) f0 others).
Proof.
  intros Hops Hrun.
  destruct Hops as [|first f0 rest others Hfirst Hrest]; [discriminate|].
  set (fs := match fso with Some fs => fs | None => function_space f0 end).
  set (dim := topological_dimension (fs_mesh fs)).
  pose proof Hrun as Hrun0.
  unfold metric_intersection, bindS in Hrun.
  rewrite (load_ok h first f0 Hfirst) in Hrun. fold fs in Hrun.
  destruct (interpolate_operands interpolate fs fso (first :: rest) h)
    as [[[] h1]|e] eqn:Hinterp; [|discriminate].
  destruct (interpolate_operands_extends interpolate fs fso _ _ _ _ Hinterp) as [t0 ->].
  unfold new_function in Hrun. fold dim in Hrun.
  assert (Htag : boundary_tag <> Some []).
  { intros ->. discriminate. }
  assert (Hdim : dim = 2%nat \/ dim = 3%nat).
  { destruct boundary_tag as [[|t1 ts]|]; [contradiction| |];
      unfold ret in Hrun;
      destruct (Nat.eqb_spec dim 2); auto;
      destruct (Nat.eqb_spec dim 3); auto;
      discriminate. }
  destruct (metric_intersection_run interpolate eigenbasis inverse first rest f0 others
              fso boundary_tag h Hfirst Hrest t0 Hinterp Htag Hdim)
    as (l0 & t & Hrun1 & Hl & Hval).
  assert (Heq : Ok (l, h') = Ok (l0, h ++ t))
    by (rewrite <- Hrun0; exact Hrun1).
  inversion Heq; subst l h'.
  exists f0, others, t.
  split; [reflexivity|]. split; [reflexivity|]. split; [exact Hl|].
  exact Hval.
Qed.

Lemma length_fold_par_loop2 (K : Mat -> Mat -> Mat) (nodes : list nat)
    (others : list (Function Mat)) (d0 : list Mat) :
  length (fold_left (fun acc f => par_loop2 K nodes acc acc (dat f)) others d0)
  = length d0.
Proof.
  revert d0. induction others as [|f others IH]; intros d0; simpl; [reflexivity|].
  rewrite IH. apply length_par_loop2.
Qed.

(** Node by node, the loop over the later operands folds the kernel over
    the values the operands hold at that node. *)
Lemma nth_fold_par_loop2 (K : Mat -> Mat -> Mat) (nodes : list nat)
    (others : list (Function Mat)) (d0 : list Mat) (k : nat) :
  (k < length d0)%nat ->
  nth k (fold_left (fun acc f => par_loop2 K nodes acc acc (dat f)) others d0) []
  = if existsb (Nat.eqb k) nodes
    then fold_left (fun A f => K A (nth k (dat f) [])) others (nth k d0 [])
    else nth k d0 [].
Proof.
  revert d0. induction others as [|f others IH]; intros d0 Hk; simpl.
  - now destruct (existsb (Nat.eqb k) nodes).
  - rewrite IH by now rewrite length_par_loop2.
    rewrite nth_par_loop2 by assumption.
    now destruct (existsb (Nat.eqb k) nodes).
Qed.

Lemma interpolate_operands_returns
    (interpolate : Function Mat -> option FunctionSpace -> result (Function Mat))
    (fs : FunctionSpace) (fso : option FunctionSpace)
    (metrics : list loc) (values : list (Function Mat)) :
  forall h : heap,
    operands h metrics values ->
    Forall (fun f => fs_eqb (function_space f) fs = true \/
                     exists g, interpolate f fso = Ok g) values ->
    exists t, interpolate_operands interpolate fs fso metrics h = Ok (tt, h ++ t).
Proof.
  revert values. induction metrics as [|m metrics IH]; intros values h Hops Hok.
  - exists []. now rewrite app_nil_r.
  - inversion Hops as [|? f ? vs Hm Hrest]; subst.
    inversion Hok as [|? ? Hf Hvs]; subst.
    cbn [interpolate_operands]. unfold bindS. rewrite (load_ok _ _ _ Hm).
    destruct (fs_eqb (function_space f) fs) eqn:E.
    + unfold ret. now apply (IH vs).
    + destruct Hf as [Hf|[g Hg]]; [discriminate|].
      unfold lift, new_function, ret. rewrite Hg.
      destruct (IH vs (h ++ [g])) as [t Ht];
        [now apply operands_extend|assumption|].
      exists ([g] ++ t). rewrite app_assoc. exact Ht.
Qed.

(** C10. [metric_intersection] returns a new object of the store and
    leaves the objects that were there unchanged.  The new field lives in
    the function space of the first metric and has as many nodal values;
    with a single metric it is a copy of it.  At a node of the node set
    its value is the kernel folded over the values the later operands
    held at that node on entry, in their own function spaces; at any
    other node it is the value of the first metric.  Nothing that
    [interpolate] returns reaches the result: any other interpolation
    routine with which the call returns gives the same field.  The call
    returns when each operand is in the target space or is accepted by
    [interpolate], the list of boundary tags is not empty and the
    dimension is 2 or 3. *)
Theorem metric_intersection_fresh
    (interpolate : Function Mat -> option FunctionSpace -> result (Function Mat))
    (eigenbasis : nat -> Mat -> Mat -> Mat) (inverse : nat -> Mat -> Mat)
    (metrics : list loc) (values : list (Function Mat))
    (fso : option FunctionSpace) (boundary_tag : option (list nat)) (h : heap) :
  operands h metrics values ->
  (forall l h',
     metric_intersection interpolate eigenbasis inverse metrics fso boundary_tag h
       = Ok (l, h') ->
     exists f0 others t r,
       values = f0 :: others /\
       h' = h ++ t /\
       (length h <= l)%nat /\
       nth_error h' l = Some r /\
       function_space r = function_space f0 /\
       length (dat r) = length (dat f0) /\
       (others = [] -> r = f0) /\
       (let fs := match fso with Some fs => fs | None => function_space f0 end in
        Forall (fun f => (length (dat f0) <= length (dat f))%nat) others ->
        forall k, (k < length (dat f0))%nat ->
          nth k (dat r) [] =
          if existsb (Nat.eqb k) (intersection_nodes fs boundary_tag)
          then fold_left (fun A f => intersect eigenbasis inverse
                                       (topological_dimension (fs_mesh fs))
                                       A (nth k (dat f) []))
                         others (nth k (dat f0) [])
          else nth k (dat f0) []) /\
       (forall interpolate' l' h'',
          metric_intersection interpolate' eigenbasis inverse metrics fso boundary_tag h
            = Ok (l', h'') ->
          nth_error h'' l' = Some r)) /\
  (forall f0 others,
     values = f0 :: others ->
     let fs := match fso with Some fs => fs | None => function_space f0 end in
     Forall (fun f => length (dat f) = node_count fs) values ->
     Forall (fun f => fs_eqb (function_space f) fs = true \/
                      exists g, interpolate f fso = Ok g) values ->
     boundary_tag <> Some [] ->
     topological_dimension (fs_mesh fs) = 2%nat \/
     topological_dimension (fs_mesh fs) = 3%nat ->
     exists l h',
       metric_intersection interpolate eigenbasis inverse metrics fso boundary_tag h
         = Ok (l, h')).
Proof.
  intros Hops. split.
  - intros l h' Hrun.
    destruct (metric_intersection_returns interpolate eigenbasis inverse metrics values
                fso boundary_tag h h' l Hops Hrun)
      as (f0 & others & t & Hv & Hh & Hl & Hr).
    cbv zeta in Hr.
    exists f0, others, t. eexists.
    split; [exact Hv|]. split; [exact Hh|]. split; [exact Hl|].
    split; [exact Hr|]. split; [reflexivity|].
    split; [apply length_fold_par_loop2|].
    split; [intros ->; simpl; now destruct f0|].
    split.
    + intros fs _ k Hk. cbn [dat intersection_value].
      now apply nth_fold_par_loop2.
    + intros interpolate' l' h'' Hrun'.
      destruct (metric_intersection_returns interpolate' eigenbasis inverse metrics
                  values fso boundary_tag h h'' l' Hops Hrun')
        as (f0' & others' & t' & Hv' & _ & _ & Hr').
      rewrite Hv in Hv'. injection Hv' as <- <-. exact Hr'.
  - intros f0 others Hv fs _ Hok Htag Hdim. subst values.
    inversion Hops as [|first ? rest ? Hfirst Hrest]; subst.
    destruct (interpolate_operands_returns interpolate fs fso (first :: rest)
                (f0 :: others) h Hops Hok) as [t0 Hinterp].
    destruct (metric_intersection_run interpolate eigenbasis inverse first rest f0 others
                fso boundary_tag h Hfirst Hrest t0 Hinterp Htag Hdim)
      as (l & t & Hrun & _).
    now exists l, (h ++ t).
Qed.

Lemma metric_intersection_fresh_witness :
  exists l t r,
    metric_intersection interpolate_zero canonical_basis canonical_inverse
      [0%nat; 1%nat] (Some (tensor_space triangle_mesh P1)) None mixed_store
      = Ok (l, mixed_store ++ t) /\
    (length mixed_store <= l)%nat /\
    nth_error (mixed_store ++ t) l = Some r /\
    function_space r = tensor_space triangle_mesh P1 /\
    length (dat r) = 3%nat /\
    forall k, (k < 3)%nat ->
      nth k (dat r) [] =
      intersect canonical_basis canonical_inverse 2
        (nth k [iso2 1; iso2 2; iso2 3] []) (nth k [iso2 4; iso2 1; iso2 2] []).
Proof.
  assert (Hops : operands mixed_store [0%nat; 1%nat] mixed_store)
    by (repeat (apply Forall2_cons; [reflexivity|]); apply Forall2_nil).
  destruct (metric_intersection_fresh interpolate_zero canonical_basis
              canonical_inverse [0%nat; 1%nat] mixed_store
              (Some (tensor_space triangle_mesh P1)) None mixed_store Hops)
    as [Hret Hrun].
  destruct (Hrun (iso_field 1 2 3)
              [{| function_space := tensor_space triangle_mesh_copy P1;
                  dat := [iso2 4; iso2 1; iso2 2] |}] eq_refl)
    as (l & h' & Hl).
  - repeat (apply Forall_cons; [reflexivity|]). apply Forall_nil.
  - apply Forall_cons; [left; reflexivity|].
    apply Forall_cons; [right; eexists; reflexivity|]. apply Forall_nil.
  - discriminate.
  - left. reflexivity.
  - destruct (Hret l h' Hl)
      as (f0 & others & t & r & Hv & Hh & Hlen & Hr & Hfs & Hdat & _ & Hnodes & _).
    injection Hv as <- <-. subst h'.
    exists l, t, r.
    split; [exact Hl|]. split; [exact Hlen|]. split; [exact Hr|].
    split; [exact Hfs|]. split; [exact Hdat|].
    intros k Hk. cbv zeta in Hnodes.
    rewrite (Hnodes ltac:(repeat constructor) k Hk).
    destruct k as [|[|[|k]]]; [reflexivity|reflexivity|reflexivity|simpl in Hk; lia].
Defined.

(** ** Validation of element constraints *)

Lemma vector_min_nonempty (l : list R) : l <> [] -> exists m, vector_min l = Ok m.
Proof. destruct l as [|x l]; [contradiction|]. intros _. now eexists. Qed.

(** The validation block either accepts, exactly when its four tests hold,
    or stops with an assertion error. *)
Lemma check_bounds_cases (mesh : Mesh) (hmin hmax amax : Function R) :
  dat hmin <> [] -> dat hmax <> [] -> dat amax <> [] ->
  (bounds_accepted mesh hmin hmax amax /\ check_bounds mesh hmin hmax amax = Ok tt) \/
  (~ bounds_accepted mesh hmin hmax amax /\
   check_bounds mesh hmin hmax amax = Raise AssertionError).
Proof.
  intros H1 H2 H3.
  destruct (vector_min_nonempty _ H1) as [a Ha].
  destruct (vector_min_nonempty _ H2) as [b Hb].
  destruct (vector_min_nonempty _ H3) as [c Hc].
  unfold check_bounds, bounds_accepted, isclose.
  rewrite Ha, Hb, Hc. cbn [bind].
  set (I := assemble_scalar2 (scalar_space mesh P1) (dat hmax) (dat hmin)
              (fun x y => if Rlt_dec x y then 1 else 0)).
  destruct (Rlt_dec 0 a) as [Hpa|Hpa]; cbn [assert bind];
    [|right; split; [|reflexivity]; intros (a' & b' & c' & E1 & E2 & E3 & HP);
      inversion E1; subst; tauto].
  destruct (Rlt_dec a b) as [Hab|Hab]; cbn [assert bind];
    [|right; split; [|reflexivity]; intros (a' & b' & c' & E1 & E2 & E3 & HP);
      inversion E1; inversion E2; subst; tauto].
  destruct (Rle_dec (Rabs (I - 0)) (1e-8 + 1e-5 * Rabs 0)) as [HI|HI]; cbn [assert bind];
    [|right; split; [|reflexivity]; intros (a' & b' & c' & E1 & E2 & E3 & HP);
      tauto].
  destruct (Rlt_dec 1 c) as [Hc1|Hc1]; cbn [assert bind];
    [|right; split; [|reflexivity]; intros (a' & b' & c' & E1 & E2 & E3 & HP);
      inversion E3; subst; tauto].
  left. split; [|reflexivity]. exists a, b, c. tauto.
Qed.

Lemma constrain_metric_cases (clement : Function R -> Function R)
    (postproc : nat -> Mat -> R -> R -> R -> Mat)
    (metric : Function Mat) (hmin hmax amax : hval) (tag : option (list nat)) :
  let mesh := fs_mesh (function_space metric) in
  let lmin := lift_bound clement mesh hmin in
  let lmax := lift_bound clement mesh hmax in
  let lamax := lift_bound clement mesh amax in
  dat lmin <> [] -> dat lmax <> [] -> dat lamax <> [] ->
  ((bounds_accepted mesh lmin lmax lamax /\
    exists M, constrain_metric clement postproc metric hmin hmax amax tag false = Ok M) \/
   (~ bounds_accepted mesh lmin lmax lamax /\
    constrain_metric clement postproc metric hmin hmax amax tag false
      = Raise AssertionError)) /\
  exists M, constrain_metric clement postproc metric hmin hmax amax tag true = Ok M.
Proof.
  intros mesh lmin lmax lamax H1 H2 H3. split.
  - unfold constrain_metric. fold mesh lmin lmax lamax.
    destruct (check_bounds_cases mesh lmin lmax lamax H1 H2 H3) as [[Hacc ->]|[Hrej ->]].
    + left. split; [exact Hacc|]. cbn [bind]. now eexists.
    + right. split; [exact Hrej|reflexivity].
  - unfold constrain_metric. cbn [bind]. now eexists.
Qed.

Lemma vector_min_repeat (r : R) (n : nat) : vector_min (repeat r (S n)) = Ok r.
Proof.
  simpl. f_equal. induction n as [|n IH]; simpl; [reflexivity|].
  rewrite IH. apply Rmin_left. lra.
Qed.

Lemma eval_scalar_constant (r : R) (N : nat) (phi : list (nat * R)) :
  convex_basis N phi -> eval_scalar (repeat r N) phi = r.
Proof.
  intros [Hphi Hsum]. unfold eval_scalar.
  rewrite (lincomb_ext _ (fun _ => r * 1)).
  - rewrite lincomb_scal, Hsum. ring.
  - intros kp Hin. rewrite Forall_forall in Hphi.
    destruct (Hphi kp Hin) as [Hk _].
    rewrite nth_repeat_lt by assumption. ring.
Qed.

Lemma weighted_sum_zero {A : Type} (F : A -> R) (Q : list (R * A)) :
  (forall wp, In wp Q -> F (snd wp) = 0) ->
  weighted_sum (map (fun wp => (fst wp, F (snd wp))) Q) = 0.
Proof.
  induction Q as [|wp Q IH]; intros H; simpl; [reflexivity|].
  rewrite IH, (H wp) by (intros; try apply H; simpl; auto). ring.
Qed.

(** For bounds given as numbers, the four tests are the three conditions
    [h_min > 0], [h_max > h_min], [a_max > 1]. *)
Lemma bounds_accepted_numbers (clement : Function R -> Function R)
    (mesh : Mesh) (a b c : R) :
  valid_mesh mesh -> (0 < num_vertices mesh)%nat ->
  bounds_accepted mesh (lift_bound clement mesh (Number a))
                  (lift_bound clement mesh (Number b))
                  (lift_bound clement mesh (Number c))
  <-> (0 < a /\ a < b /\ 1 < c).
Proof.
  intros Hmesh Hnv. unfold bounds_accepted. simpl lift_bound. simpl dat.
  destruct (num_vertices mesh) as [|n] eqn:En; [lia|].
  rewrite !vector_min_repeat. split.
  - intros (a' & b' & c' & E1 & E2 & E3 & Ha & Hab & _ & Hc).
    inversion E1; inversion E2; inversion E3; subst. tauto.
  - intros (Ha & Hab & Hc). exists a, b, c.
    repeat (split; [first [reflexivity | assumption]|]).
    split; [|assumption].
    unfold assemble_scalar2.
    rewrite (weighted_sum_zero
               (fun phi => if Rlt_dec (eval_scalar (repeat b (S n)) phi)
                                      (eval_scalar (repeat a (S n)) phi)
                           then 1 else 0)).
    + rewrite Rminus_0_r, Rabs_R0. lra.
    + intros wp Hin.
      destruct (quad_dx_valid (scalar_space mesh P1) Hmesh) as [_ HQ].
      rewrite Forall_forall in HQ. destruct (HQ wp Hin) as [_ Hphi].
      unfold node_count in Hphi. simpl in Hphi. rewrite En in Hphi.
      rewrite !eval_scalar_constant by assumption.
      destruct (Rlt_dec b a); [lra|reflexivity].
Qed.

(** C9 (amended). With [optimise] unset, [enforce_element_constraints]
    accepts one metric with its bounds exactly when the four tests of the
    validation block hold for the bounds lifted to the vertices: the least
    nodal value of [h_min] is positive, the least nodal value of [h_max]
    exceeds the least nodal value of [h_min], the quadrature sum over the
    cells of the indicator of [h_max < h_min] is at most [1e-8] (a test at
    the quadrature points, not everywhere), and the least nodal value of
    [a_max] exceeds 1; otherwise it stops with an assertion error.  For
    bounds given as numbers the tests are [h_min > 0], [h_max > h_min],
    [a_max > 1].  With [optimise] set nothing is tested. *)
Theorem enforce_element_constraints_validation
    (clement : Function R -> Function R)
    (postproc : nat -> Mat -> R -> R -> R -> Mat)
    (metric : Function Mat) (hmin hmax amax : hval) (tag : option (list nat)) :
  let mesh := fs_mesh (function_space metric) in
  let lmin := lift_bound clement mesh hmin in
  let lmax := lift_bound clement mesh hmax in
  let lamax := lift_bound clement mesh amax in
  let run optimise :=
    enforce_element_constraints clement postproc [metric]
      (PerMetric [hmin]) (PerMetric [hmax]) (PerMetric [amax]) tag optimise in
  dat lmin <> [] -> dat lmax <> [] -> dat lamax <> [] ->
  ((exists M, run false = Ok [M]) <-> bounds_accepted mesh lmin lmax lamax) /\
  (~ bounds_accepted mesh lmin lmax lamax -> run false = Raise AssertionError) /\
  (exists M, run true = Ok [M]) /\
  (forall a b c,
      hmin = Number a -> hmax = Number b -> amax = Number c ->
      valid_mesh mesh -> (0 < num_vertices mesh)%nat ->
      ((exists M, run false = Ok [M]) <-> (0 < a /\ a < b /\ 1 < c))).
Proof.
  intros mesh lmin lmax lamax run H1 H2 H3.
  destruct (constrain_metric_cases clement postproc metric hmin hmax amax tag H1 H2 H3)
    as [Hfalse [Mt Htrue]].
  fold mesh lmin lmax lamax in Hfalse.
  assert (Hiff : (exists M, run false = Ok [M]) <-> bounds_accepted mesh lmin lmax lamax).
  { unfold run, enforce_element_constraints. cbn [length broadcast constrain_all].
    destruct Hfalse as [[Hacc [M HM]]|[Hrej HM]]; rewrite HM; cbn [bind].
    - split; [intros _; exact Hacc|intros _; now exists M].
    - split; [intros [M HMM]; discriminate|intros Hacc; contradiction]. }
  split; [exact Hiff|]. split; [|split].
  - intros Hrej. unfold run, enforce_element_constraints.
    cbn [length broadcast constrain_all].
    destruct Hfalse as [[Hacc _]|[_ HM]]; [contradiction|].
    now rewrite HM.
  - exists Mt. unfold run, enforce_element_constraints.
    cbn [length broadcast constrain_all]. now rewrite Htrue.
  - intros a b c -> -> -> Hmesh Hnv. rewrite Hiff.
    now apply bounds_accepted_numbers.
Qed.

Lemma clement_cell_field (a b : R) :
  dat (clement_patch_average (cell_field a b)) = [a; (a + b) / 2; (a + b) / 2; b].
Proof.
  unfold clement_patch_average, cell_field, weighted_sum. simpl.
  repeat (apply (f_equal2 (@cons _)); [field|]). reflexivity.
Qed.

Lemma crossing_bounds_integral :
  assemble_scalar2 (scalar_space square_mesh P1)
    [6; 25 / 4; 25 / 4; 13 / 2] [1; 4; 4; 7]
    (fun x y => if Rlt_dec x y then 1 else 0) = 0.
Proof.
  unfold assemble_scalar2, eval_scalar, lincomb, weighted_sum. simpl.
  repeat match goal with
         | |- context [Rlt_dec ?x ?y] => destruct (Rlt_dec x y); [exfalso; lra|]
         end.
  lra.
Qed.

Lemma crossing_bounds_accepted :
  bounds_accepted square_mesh
    (lift_bound clement_patch_average square_mesh (Field (cell_field 1 7)))
    (lift_bound clement_patch_average square_mesh (Field (cell_field 6 (13 / 2))))
    (lift_bound clement_patch_average square_mesh (Number 2)).
Proof.
  unfold bounds_accepted. cbn [lift_bound].
  rewrite !clement_cell_field.
  replace ((1 + 7) / 2) with 4 by lra.
  replace ((6 + 13 / 2) / 2) with (25 / 4) by lra.
  rewrite crossing_bounds_integral.
  exists 1, 6, 2. simpl dat. simpl vector_min.
  assert (E1 : Rmin 4 (Rmin 4 (Rmin 7 1)) = 1).
  { rewrite (Rmin_right 7 1), (Rmin_right 4 1), (Rmin_right 4 1) by lra. reflexivity. }
  assert (E2 : Rmin (25 / 4) (Rmin (25 / 4) (Rmin (13 / 2) 6)) = 6).
  { rewrite (Rmin_right (13 / 2) 6), (Rmin_right (25 / 4) 6), (Rmin_right (25 / 4) 6)
      by lra. reflexivity. }
  assert (E3 : Rmin 2 (Rmin 2 (Rmin 2 2)) = 2).
  { rewrite !(Rmin_left 2 2) by lra. reflexivity. }
  rewrite E1, E2, E3.
  repeat (split; [first [reflexivity | lra]|]).
  split; [|lra]. rewrite Rminus_0_r, Rabs_R0. lra.
Qed.

(** C9, counterexample. On the square cut into two triangles, with
    [h_min = (1, 7)] and [h_max = (6, 13/2)] given per cell, the bounds
    lifted to the vertices are [1, 4, 4, 7] and [6, 25/4, 25/4, 13/2]:
    [h_max] is below [h_min] at vertex 3 and around it (for instance at
    the point of the second cell with barycentric coordinates
    [1/20, 1/20, 9/10]), but at no quadrature point; the validation
    accepts the bounds. *)
Lemma enforce_element_constraints_counterexample :
  let hmin := clement_patch_average (cell_field 1 7) in
  let hmax := clement_patch_average (cell_field 6 (13 / 2)) in
  nth 3 (dat hmax) 0 < nth 3 (dat hmin) 0 /\
  eval_scalar (dat hmax) [(1%nat, / 20); (2%nat, / 20); (3%nat, 9 / 10)]
  < eval_scalar (dat hmin) [(1%nat, / 20); (2%nat, / 20); (3%nat, 9 / 10)] /\
  exists M,
    enforce_element_constraints clement_patch_average postproc_identity
      [unit_square_metric]
      (PerMetric [Field (cell_field 1 7)]) (PerMetric [Field (cell_field 6 (13 / 2))])
      (Scalar 2) None false = Ok [M].
Proof.
  cbv zeta. rewrite !clement_cell_field.
  split; [simpl; lra|]. split; [unfold eval_scalar, lincomb; simpl; lra|].
  destruct (constrain_metric_cases clement_patch_average postproc_identity
              unit_square_metric (Field (cell_field 1 7))
              (Field (cell_field 6 (13 / 2)))
              (Number 2) None) as [[[_ [M HM]]|[Hrej _]] _];
    try (cbn [lift_bound]; rewrite ?clement_cell_field; discriminate).
  - exists M. unfold enforce_element_constraints.
    cbn [length broadcast repeat constrain_all]. now rewrite HM.
  - exfalso. apply Hrej. exact crossing_bounds_accepted.
Qed.

Lemma valid_qpoint3 (w x y z : R) :
  0 < w -> 0 <= x -> 0 <= y -> 0 <= z -> x + y + z = 1 ->
  valid_qpoint 3 {| qweight := w; qbary := [x; y; z] |}.
Proof.
  intros Hw Hx Hy Hz Hs. split; [assumption|]. split; [reflexivity|].
  split; [repeat (apply Forall_cons; [assumption|]); apply Forall_nil|].
  simpl. lra.
Qed.

Lemma valid_square_mesh : valid_mesh square_mesh.
Proof.
  split; [discriminate|]. split.
  - repeat (apply Forall_cons;
            [split; [reflexivity|];
             split; [repeat (apply Forall_cons; [simpl; lia|]); apply Forall_nil|];
             split; [simpl; lra|]; split; [discriminate|];
             repeat (apply Forall_cons; [apply valid_qpoint3; lra|]); apply Forall_nil|]);
      apply Forall_nil.
  - repeat (apply Forall_cons;
            [split; [simpl; lia|];
             apply Forall_cons; [apply valid_qpoint3; lra|apply Forall_nil]|]);
      apply Forall_nil.
Qed.

Lemma enforce_element_constraints_validation_witness :
  ((exists M,
       enforce_element_constraints clement_patch_average postproc_identity
         [unit_square_metric] (PerMetric [Number 1]) (PerMetric [Number 2])
         (PerMetric [Number 3]) None false = Ok [M])
   <-> (0 < 1 /\ 1 < 2 /\ 1 < 3)) /\
  (exists M,
      enforce_element_constraints clement_patch_average postproc_identity
        [unit_square_metric] (PerMetric [Number 1]) (PerMetric [Number 2])
        (PerMetric [Number 3]) None true = Ok [M]).
Proof.
  destruct (enforce_element_constraints_validation clement_patch_average
              postproc_identity unit_square_metric (Number 1) (Number 2) (Number 3) None)
    as (_ & _ & Htrue & Hnum); try discriminate.
  split; [|exact Htrue].
  apply Hnum; try reflexivity; [|simpl; lia].
  apply valid_square_mesh.
Defined.

(** * Error estimation *)

Lemma integral_type_eqb_eq (a b : IntegralType) :
  integral_type_eqb a b = true <-> a = b.
Proof.
  destruct a, b; simpl; split; intros H; try reflexivity; try discriminate.
  - apply String.eqb_eq in H. now subst.
  - inversion H. apply String.eqb_refl.
Qed.

Lemma in_integrals_by_type (F : Form) (t : IntegralType) (I : Integral) :
  In I (integrals_by_type F t) <-> In I F /\ integral_type I = t.
Proof.
  unfold integrals_by_type. rewrite filter_In. now rewrite integral_type_eqb_eq.
Qed.

Lemma integrals_by_type_nil (F : Form) (t : IntegralType) :
  (forall I, In I F -> integral_type I <> t) -> integrals_by_type F t = [].
Proof.
  intros H. destruct (integrals_by_type F t) as [|I l] eqn:E; [reflexivity|].
  assert (Hin : In I (integrals_by_type F t)) by (rewrite E; now left).
  apply in_integrals_by_type in Hin. destruct Hin as [Hin Ht].
  now apply H in Hin.
Qed.

Lemma indicator_rhs_empty (P : FunctionSpace) (F : Form) :
  (forall I, In I F -> ~ domain_integral I) -> indicator_rhs P F = [].
Proof.
  intros H. unfold indicator_rhs.
  rewrite !integrals_by_type_nil; [reflexivity| | |];
    intros I HI Ht; apply (H I HI); unfold domain_integral; auto.
Qed.

Lemma indicator_rhs_nonempty (P : FunctionSpace) (F : Form) :
  (exists I, In I F /\ domain_integral I) -> length (indicator_rhs P F) <> 0%nat.
Proof.
  intros [I [HI Ht]] Hlen. apply length_zero_iff_nil in Hlen.
  unfold indicator_rhs in Hlen.
  apply app_eq_nil in Hlen. destruct Hlen as [Hext Hrest].
  apply app_eq_nil in Hrest. destruct Hrest as [Hint Hcell].
  destruct Ht as [Ht|[Ht|Ht]].
  - assert (Hin : In I (integrals_by_type F cell)) by now apply in_integrals_by_type.
    destruct (integrals_by_type F cell); [contradiction|discriminate].
  - assert (Hin : In I (integrals_by_type F exterior_facet))
      by now apply in_integrals_by_type.
    destruct (integrals_by_type F exterior_facet); [contradiction|discriminate].
  - assert (Hin : In I (integrals_by_type F interior_facet))
      by now apply in_integrals_by_type.
    destruct (integrals_by_type F interior_facet); [contradiction|discriminate].
Qed.

Lemma indicator_rhs_terms (P : FunctionSpace) (F : Form) :
  Forall (weighted_term P F) (indicator_rhs P F).
Proof.
  unfold indicator_rhs. apply Forall_app. split; [|apply Forall_app; split].
  - apply Forall_forall. intros J HJ. apply in_map_iff in HJ.
    destruct HJ as [I [<- HI]]. apply in_integrals_by_type in HI.
    destruct HI as [HI Ht]. exists I, (Product CellVolume (TestFunction P)).
    unfold domain_integral. simpl. rewrite Ht. repeat split; auto.
  - apply Forall_forall. intros J HJ. apply in_flat_map in HJ.
    destruct HJ as [I [HI HJ]]. apply in_integrals_by_type in HI.
    destruct HI as [HI Ht]. unfold domain_integral.
    destruct HJ as [<-|[<-|[]]].
    + exists I, (Product (Restricted CellVolume Plus) (Restricted (TestFunction P) Plus)).
      simpl. repeat split; auto; unfold domain_integral; auto.
    + exists I, (Product (Restricted CellVolume Minus) (Restricted (TestFunction P) Minus)).
      simpl. repeat split; auto; unfold domain_integral; auto.
  - apply Forall_forall. intros J HJ. apply in_map_iff in HJ.
    destruct HJ as [I [<- HI]]. apply in_integrals_by_type in HI.
    destruct HI as [HI Ht]. exists I, (Product CellVolume (TestFunction P)).
    unfold domain_integral. simpl. rewrite Ht. repeat split; auto.
Qed.

Lemma weighted_term_arguments (P : FunctionSpace) (F : Form) (J : Integral) :
  is_zero_form F -> weighted_term P F J -> arguments (integrand J) = [(0%nat, P)].
Proof.
  intros Hz (I & w & HI & _ & _ & _ & -> & Hw).
  unfold is_zero_form in Hz. rewrite Forall_forall in Hz.
  simpl. rewrite (Hz I HI), app_nil_r.
  destruct Hw as [-> | [-> | ->]]; reflexivity.
Qed.

Lemma integrals_by_type_cons (I : Integral) (F : Form) (t : IntegralType) :
  integrals_by_type (I :: F) t
  = if integral_type_eqb (integral_type I) t then I :: integrals_by_type F t
    else integrals_by_type F t.
Proof. reflexivity. Qed.

(** The right-hand side holds, up to the order of the terms, exactly the
    terms the integrals of the form call for. *)
Lemma indicator_rhs_expected (P : FunctionSpace) (F : Form) :
  Permutation (indicator_rhs P F) (expected_terms P F).
Proof.
  apply Permutation_sym. unfold indicator_rhs, expected_terms.
  induction F as [|I F IH]; [constructor|].
  rewrite !integrals_by_type_cons. cbn [flat_map].
  destruct (integral_type I) eqn:Et; cbn [integral_type_eqb weights_of map app].
  - (* cell *)
    unfold weighted at 1. rewrite Et.
    rewrite app_assoc. apply Permutation_cons_app. rewrite <- app_assoc. exact IH.
  - (* exterior facet *)
    unfold weighted at 1. rewrite Et. now apply perm_skip.
  - (* interior facet *)
    cbn [flat_map app]. unfold weighted at 1 2. rewrite Et.
    match goal with |- Permutation _ (?A ++ ?x :: ?y :: ?B) =>
      apply (Permutation_cons_app A (y :: B) x);
      apply (Permutation_cons_app A B y) end.
    exact IH.
  - (* another type *)
    exact IH.
Qed.

Lemma expected_terms_arguments (P : FunctionSpace) (F : Form) :
  is_zero_form F ->
  Forall (fun J => arguments (integrand J) = [(0%nat, P)]) (expected_terms P F).
Proof.
  intros Hz. unfold expected_terms. apply Forall_forall. intros J HJ.
  apply in_flat_map in HJ. destruct HJ as [I [HI HJ]].
  apply in_map_iff in HJ. destruct HJ as [w [<- Hw]].
  unfold is_zero_form in Hz. rewrite Forall_forall in Hz.
  simpl. rewrite (Hz I HI), app_nil_r.
  destruct (integral_type I); simpl in Hw;
    repeat (destruct Hw as [<-|Hw]; [reflexivity|]); contradiction.
Qed.

Lemma zero_form_passes (F : Form) (l : list Integral) :
  is_zero_form F -> (forall I, In I l -> In I F) ->
  forallb (fun I => Nat.eqb (length (arguments (integrand I))) 0) l = true.
Proof.
  intros Hz Hl. apply forallb_forall. intros I HI.
  unfold is_zero_form in Hz. rewrite Forall_forall in Hz.
  now rewrite (Hz I (Hl I HI)).
Qed.

Lemma visited_in_form (F : Form) (I : Integral) :
  In I (integrals_by_type F exterior_facet
        ++ integrals_by_type F interior_facet
        ++ integrals_by_type F cell) -> In I F.
Proof.
  intros H. repeat (apply in_app_or in H; destruct H as [H|H]);
    now apply in_integrals_by_type in H.
Qed.

(** C7. [form2indicator] fails on every form without integrals over cells,
    exterior facets or interior facets: with an assertion error, once the
    form has a domain.  On a 0-form with such an integral it returns a
    field of the piecewise-constant space P0 on the mesh of the form,
    whose values solve the P0 mass-matrix system for the right-hand side
    that holds, for every integral over cells or exterior facets, its
    integrand weighted by the cell volume and the P0 test function, for
    every integral over interior facets the two terms weighted by their
    restrictions to the [+] and to the [-] side, and nothing else. *)
Theorem form2indicator_outcome (ufl_domain : Form -> result Mesh)
    (solve : FunctionSpace -> Form -> list R) (F : Form) :
  form2indicator ufl_domain solve NotForm = Raise TypeError /\
  ((forall I, In I F -> ~ domain_integral I) ->
   form2indicator ufl_domain solve (IsForm F)
   = match ufl_domain F with
     | Ok _ => Raise AssertionError
     | Raise e => Raise e
     end) /\
  (forall mesh,
      ufl_domain F = Ok mesh ->
      (exists I, In I F /\ domain_integral I) ->
      is_zero_form F ->
      exists indicator rhs,
        form2indicator ufl_domain solve (IsForm F) = Ok indicator /\
        function_space indicator = scalar_space mesh P0 /\
        dat indicator = solve (scalar_space mesh P0) rhs /\
        Permutation rhs (expected_terms (scalar_space mesh P0) F) /\
        Forall (fun J => arguments (integrand J) = [(0%nat, scalar_space mesh P0)])
               rhs).
Proof.
  split; [reflexivity|]. split.
  - intros Hnone. unfold form2indicator.
    destruct (ufl_domain F) as [mesh|e]; [|reflexivity].
    cbn [bind]. rewrite !integrals_by_type_nil;
      try (intros I HI Ht; apply (Hnone I HI); unfold domain_integral; auto).
    cbn [app forallb bind]. rewrite indicator_rhs_empty by assumption.
    reflexivity.
  - intros mesh Hdom Hex Hz. unfold form2indicator. rewrite Hdom. cbn [bind].
    set (P := scalar_space mesh P0).
    rewrite (zero_form_passes F) by (try assumption; apply visited_in_form).
    cbn [bind].
    destruct (Nat.eqb_spec (length (indicator_rhs P F)) 0) as [H0|_];
      [now apply indicator_rhs_nonempty in H0|].
    cbn [negb assert bind]. eexists. exists (indicator_rhs P F).
    split; [reflexivity|]. split; [reflexivity|]. split; [reflexivity|].
    split; [apply indicator_rhs_expected|].
    apply Forall_forall. intros J HJ.
    pose proof (expected_terms_arguments P F Hz) as HA.
    rewrite Forall_forall in HA. apply HA.
    eapply Permutation_in; [apply indicator_rhs_expected|exact HJ].
Qed.

Lemma form2indicator_outcome_witness :
  let F := replace residual_form [(space adjoint_error_z, adjoint_error_z)] in
  form2indicator domain_triangle solve_zero (IsForm []) = Raise AssertionError /\
  exists indicator rhs,
    form2indicator domain_triangle solve_zero (IsForm F) = Ok indicator /\
    function_space indicator = scalar_space triangle_mesh P0 /\
    dat indicator = solve_zero (scalar_space triangle_mesh P0) rhs /\
    Permutation rhs (expected_terms (scalar_space triangle_mesh P0) F) /\
    Forall (fun J => arguments (integrand J)
                     = [(0%nat, scalar_space triangle_mesh P0)]) rhs.
Proof.
  cbv zeta. split.
  - destruct (form2indicator_outcome domain_triangle solve_zero []) as (_ & H & _).
    apply H. intros I [].
  - destruct (form2indicator_outcome domain_triangle solve_zero
                (replace residual_form [(space adjoint_error_z, adjoint_error_z)]))
      as (_ & _ & H).
    apply (H triangle_mesh).
    + reflexivity.
    + eexists. split; [left; reflexivity|]. left. reflexivity.
    + repeat (apply Forall_cons; [reflexivity|]). apply Forall_nil.
Defined.

(** ** Validation in [get_dwr_indicator] *)

Section DwrValidation.

Variable ufl_domain : Form -> result Mesh.
Variable solve : FunctionSpace -> Form -> list R.
Variable F : Form.
Variable mesh : Mesh.
Hypothesis Hdomain : ufl_domain F = Ok mesh.

(** One turn of the loop on a component that passes the checks. *)
Lemma build_mapping_step (test_space : list (string * SpaceEntry))
    (key : string) (err : NamedFunction) (rest : list (string * NamedFunction))
    (mapping : list (FunctionSpace * NamedFunction)) (V : FunctionSpace) :
  lookup test_space key = Some (IsSpace V) ->
  mesh_eqb mesh (fs_mesh (space err)) = true ->
  mesh_eqb mesh (fs_mesh V) = true ->
  build_mapping ufl_domain F test_space ((key, err) :: rest) mapping =
  build_mapping ufl_domain F test_space rest (mapping_set mapping V err).
Proof.
  intros Hl H1 H2. cbn [build_mapping]. rewrite Hl, Hdomain. cbn [bind].
  rewrite H1. cbn [negb]. now rewrite H2.
Qed.

(** The first component that fails a check decides the error. *)
Lemma build_mapping_first_defect (test_space : list (string * SpaceEntry))
    (pre post : list (string * NamedFunction)) (key : string) (err : NamedFunction) :
  forall mapping,
    Forall (component_ok mesh test_space) pre ->
    (lookup test_space key = None ->
     build_mapping ufl_domain F test_space (pre ++ (key, err) :: post) mapping
       = Raise ValueError) /\
    (lookup test_space key = Some NotSpace ->
     build_mapping ufl_domain F test_space (pre ++ (key, err) :: post) mapping
       = Raise TypeError) /\
    (forall V, lookup test_space key = Some (IsSpace V) ->
               mesh_eqb mesh (fs_mesh (space err)) = false \/
               mesh_eqb mesh (fs_mesh V) = false ->
     build_mapping ufl_domain F test_space (pre ++ (key, err) :: post) mapping
       = Raise ValueError).
Proof.
  induction pre as [|[k e] pre IH]; intros mapping Hpre.
  - cbn [app build_mapping]. split; [|split].
    + intros ->. reflexivity.
    + intros ->. reflexivity.
    + intros V -> Hmis. rewrite Hdomain. cbn [bind].
      destruct (mesh_eqb mesh (fs_mesh (space err))); [|reflexivity].
      destruct Hmis as [Hm|Hm]; [discriminate|]. rewrite Hm. reflexivity.
  - inversion Hpre as [|? ? (V & Hl & H1 & H2) Hrest]; subst. simpl in Hl, H1, H2.
    rewrite <- app_comm_cons.
    rewrite (build_mapping_step test_space k e _ mapping V Hl H1 H2).
    now apply IH.
Qed.

(** The loop goes through exactly when every component passes. *)
Lemma build_mapping_ok (test_space : list (string * SpaceEntry))
    (items : list (string * NamedFunction)) :
  forall mapping,
    (exists m, build_mapping ufl_domain F test_space items mapping = Ok m) <->
    Forall (component_ok mesh test_space) items.
Proof.
  induction items as [|[k e] items IH]; intros mapping.
  - split; [constructor|]. intros _. now exists mapping.
  - cbn [build_mapping].
    destruct (lookup test_space k) as [[V|]|] eqn:Hl.
    + rewrite Hdomain. cbn [bind].
      destruct (mesh_eqb mesh (fs_mesh (space e))) eqn:H1; cbn [negb].
      * destruct (mesh_eqb mesh (fs_mesh V)) eqn:H2; cbn [negb].
        -- rewrite IH. split.
           ++ intros Hrest. constructor; [|assumption]. now exists V.
           ++ intros Hall. now inversion Hall.
        -- split; [intros [m Hm]; discriminate|].
           intros Hall. inversion Hall as [|? ? (V' & Hl' & _ & H2') _]; subst.
           simpl in Hl'. rewrite Hl in Hl'. inversion Hl'; subst. congruence.
      * split; [intros [m Hm]; discriminate|].
        intros Hall. inversion Hall as [|? ? (V' & _ & H1' & _) _]; subst.
        simpl in H1'. congruence.
    + split; [intros [m Hm]; discriminate|].
      intros Hall. inversion Hall as [|? ? (V' & Hl' & _) _]; subst.
      simpl in Hl'. congruence.
    + split; [intros [m Hm]; discriminate|].
      intros Hall. inversion Hall as [|? ? (V' & Hl' & _) _]; subst.
      simpl in Hl'. congruence.
Qed.

(** The loop raises nothing but type and value errors. *)
Lemma build_mapping_errors (test_space : list (string * SpaceEntry))
    (items : list (string * NamedFunction)) :
  forall mapping e,
    build_mapping ufl_domain F test_space items mapping = Raise e ->
    e = TypeError \/ e = ValueError.
Proof.
  induction items as [|[k err] items IH]; intros mapping e Hrun.
  - discriminate.
  - cbn [build_mapping] in Hrun.
    destruct (lookup test_space k) as [[V|]|].
    + rewrite Hdomain in Hrun. cbn [bind] in Hrun.
      destruct (mesh_eqb mesh (fs_mesh (space err))); cbn [negb] in Hrun;
        [|inversion Hrun; now right].
      destruct (mesh_eqb mesh (fs_mesh V)); cbn [negb] in Hrun;
        [|inversion Hrun; now right].
      now apply IH in Hrun.
    + inversion Hrun. now left.
    + inversion Hrun. now right.
Qed.

(** When every entry of the test space is a function space, the loop
    raises nothing but value errors. *)
Lemma build_mapping_value_errors (test_space : list (string * SpaceEntry))
    (items : list (string * NamedFunction)) :
  Forall (fun kv => exists V, snd kv = IsSpace V) test_space ->
  forall mapping e,
    build_mapping ufl_domain F test_space items mapping = Raise e ->
    e = ValueError.
Proof.
  intros Hts. induction items as [|[k err] items IH]; intros mapping e Hrun.
  - discriminate.
  - cbn [build_mapping] in Hrun. unfold lookup in Hrun.
    destruct (find (fun kv => String.eqb (fst kv) k) test_space) as [[k' v]|] eqn:Hf;
      cbn [option_map snd] in Hrun.
    + apply find_some in Hf. destruct Hf as [Hin _].
      rewrite Forall_forall in Hts. destruct (Hts _ Hin) as [V HV]. simpl in HV.
      subst v. rewrite Hdomain in Hrun. cbn [bind] in Hrun.
      destruct (mesh_eqb mesh (fs_mesh (space err))); cbn [negb] in Hrun;
        [|now inversion Hrun].
      destruct (mesh_eqb mesh (fs_mesh V)); cbn [negb] in Hrun;
        [|now inversion Hrun].
      now apply IH in Hrun.
    + now inversion Hrun.
Qed.

End DwrValidation.

(** Looking a component up in the default dictionary of test spaces. *)
Lemma lookup_default_space (d : list (string * NamedFunction)) (k : string)
    (e : NamedFunction) :
  NoDup (map fst d) -> In (k, e) d ->
  lookup (map (fun kv => (fst kv, IsSpace (space (snd kv)))) d) k
  = Some (IsSpace (space e)).
Proof.
  unfold lookup. induction d as [|[k' e'] d IH]; intros Hnd Hin; [contradiction|].
  cbn [map find fst snd]. inversion Hnd as [|? ? Hnin Hnd']; subst.
  destruct (String.eqb_spec k' k) as [->|Hne].
  - destruct Hin as [E|Hin]; [now inversion E|].
    exfalso. apply Hnin. now apply (in_map fst) in Hin.
  - destruct Hin as [E|Hin]; [inversion E; contradiction|]. now apply IH.
Qed.

Lemma component_ok_default (mesh : Mesh) (d : list (string * NamedFunction)) :
  NoDup (map fst d) ->
  (Forall (component_ok mesh (map (fun kv => (fst kv, IsSpace (space (snd kv)))) d)) d
   <-> Forall (fun kv => mesh_eqb mesh (fs_mesh (space (snd kv))) = true) d).
Proof.
  intros Hnd. rewrite !Forall_forall. split; intros H [k e] Hin.
  - destruct (H _ Hin) as (V & _ & H1 & _). exact H1.
  - exists (space e). simpl.
    split; [now apply lookup_default_space|]. split; now apply (H (k, e)).
Qed.

(** C6. [get_dwr_indicator] raises a type error when [F] is not a form,
    when the adjoint error is neither a function nor a dictionary and when
    the test space is neither absent, a function space nor a dictionary,
    and a value error when a single function space is given for an
    adjoint error that has not exactly one component.  In every other
    call the loop over the components runs, also for the default test
    space: the call returns only if every component of the adjoint error
    has an entry in the test space that is a function space, on the mesh
    of the form like the component itself; and the first component that
    fails decides the error: a value error for a missing key or a mesh
    that differs, a type error for an entry that is not a function space.
    With the default test space this is a value error exactly for a
    component on another mesh than the form. *)
Theorem get_dwr_indicator_validation (ufl_domain : Form -> result Mesh)
    (solve : FunctionSpace -> Form -> list R) (F : Form) (mesh : Mesh)
    (d : list (string * NamedFunction)) :
  ufl_domain F = Ok mesh ->
  let run := get_dwr_indicator ufl_domain solve in
  (forall a t, run NotForm a t = Raise TypeError) /\
  (forall t, run (IsForm F) AdjOther t = Raise TypeError) /\
  run (IsForm F) (AdjDict d) TsOther = Raise TypeError /\
  (forall V, length d <> 1%nat ->
             run (IsForm F) (AdjDict d) (TsSpace V) = Raise ValueError) /\
  (forall t ts,
      test_space_dict d t = Some ts ->
      (forall indicator,
          run (IsForm F) (AdjDict d) t = Ok indicator ->
          Forall (component_ok mesh ts) d) /\
      (Forall (component_ok mesh ts) d ->
       exists mapping,
         run (IsForm F) (AdjDict d) t =
         form2indicator ufl_domain solve (IsForm (replace F mapping))) /\
      (forall pre key err post,
          d = pre ++ (key, err) :: post ->
          Forall (component_ok mesh ts) pre ->
          (lookup ts key = None ->
           run (IsForm F) (AdjDict d) t = Raise ValueError) /\
          (lookup ts key = Some NotSpace ->
           run (IsForm F) (AdjDict d) t = Raise TypeError) /\
          (forall V, lookup ts key = Some (IsSpace V) ->
                     mesh_eqb mesh (fs_mesh (space err)) = false \/
                     mesh_eqb mesh (fs_mesh V) = false ->
           run (IsForm F) (AdjDict d) t = Raise ValueError))) /\
  (NoDup (map fst d) ->
   (forall indicator,
       run (IsForm F) (AdjDict d) TsNone = Ok indicator ->
       Forall (fun kv => mesh_eqb mesh (fs_mesh (space (snd kv))) = true) d) /\
   (~ Forall (fun kv => mesh_eqb mesh (fs_mesh (space (snd kv))) = true) d ->
    run (IsForm F) (AdjDict d) TsNone = Raise ValueError)) /\
  (forall f t,
      run (IsForm F) (AdjFunction f) t =
      run (IsForm F) (AdjDict [(name f, f)])
          match t with
          | TsNone => TsDict [(name f, IsSpace (space f))]
          | _ => t
          end) /\
  (forall f,
      mesh_eqb mesh (fs_mesh (space f)) = false ->
      run (IsForm F) (AdjFunction f) TsNone = Raise ValueError).
Proof.
  intros Hdomain run. unfold run.
  assert (Hrun : forall t ts, test_space_dict d t = Some ts ->
            get_dwr_indicator ufl_domain solve (IsForm F) (AdjDict d) t
            = (mapping <- build_mapping ufl_domain F ts d [] ;;
               form2indicator ufl_domain solve (IsForm (replace F mapping)))).
  { intros t ts Ht. unfold get_dwr_indicator. cbn [bind fst snd].
    destruct t as [|V|ts'|]; cbn [test_space_dict] in Ht.
    - inversion Ht. reflexivity.
    - destruct (Nat.eqb (length d) 1); [|discriminate]. inversion Ht. reflexivity.
    - inversion Ht. reflexivity.
    - discriminate. }
  split; [reflexivity|]. split; [reflexivity|]. split; [reflexivity|].
  split; [|split; [|split; [|split]]].
  - intros V Hlen. unfold get_dwr_indicator. cbn [bind fst snd].
    destruct (Nat.eqb_spec (length d) 1); [contradiction|reflexivity].
  - intros t ts Ht. rewrite (Hrun t ts Ht). split; [|split].
    + intros indicator Hok.
      apply (build_mapping_ok ufl_domain F mesh Hdomain ts d []).
      destruct (build_mapping ufl_domain F ts d []) as [m|e]; [|discriminate].
      now exists m.
    + intros Hall.
      apply (build_mapping_ok ufl_domain F mesh Hdomain ts d []) in Hall.
      destruct Hall as [m Hm]. exists m. now rewrite Hm.
    + intros pre key err post -> Hpre.
      destruct (build_mapping_first_defect ufl_domain F mesh Hdomain ts pre post key err
                  [] Hpre) as (H1 & H2 & H3).
      split; [|split].
      * intros Hl. now rewrite (H1 Hl).
      * intros Hl. now rewrite (H2 Hl).
      * intros V Hl Hmis. now rewrite (H3 V Hl Hmis).
  - intros Hnd. rewrite (Hrun TsNone _ eq_refl).
    set (ts := map (fun kv => (fst kv, IsSpace (space (snd kv)))) d).
    split.
    + intros indicator Hok. apply (component_ok_default mesh d Hnd).
      apply (build_mapping_ok ufl_domain F mesh Hdomain ts d []).
      destruct (build_mapping ufl_domain F ts d []) as [m|e]; [|discriminate].
      now exists m.
    + intros Hbad.
      destruct (build_mapping ufl_domain F ts d []) as [m|e] eqn:Em.
      * exfalso. apply Hbad, (component_ok_default mesh d Hnd).
        apply (build_mapping_ok ufl_domain F mesh Hdomain ts d []). now exists m.
      * cbn [bind]. f_equal.
        apply (build_mapping_value_errors ufl_domain F mesh Hdomain ts d) in Em;
          [exact Em|].
        unfold ts. apply Forall_map, Forall_forall. intros kv _. simpl. eauto.
  - intros f t. unfold get_dwr_indicator. cbn [bind fst snd].
    destruct t; reflexivity.
  - intros f Hf. unfold get_dwr_indicator. cbn [bind fst snd map build_mapping].
    unfold lookup. cbn [find fst]. rewrite String.eqb_refl. cbn [option_map snd].
    rewrite Hdomain. cbn [bind]. now rewrite Hf.
Qed.

Lemma get_dwr_indicator_validation_witness :
  get_dwr_indicator domain_triangle solve_zero NotForm AdjOther TsNone = Raise TypeError /\
  get_dwr_indicator domain_triangle solve_zero (IsForm residual_form)
    (AdjDict [("z"%string, adjoint_error_z)]) (TsDict []) = Raise ValueError /\
  get_dwr_indicator domain_triangle solve_zero (IsForm residual_form)
    (AdjDict [("z"%string, adjoint_error_z)]) (TsDict [("z"%string, NotSpace)])
    = Raise TypeError /\
  get_dwr_indicator domain_triangle solve_zero (IsForm residual_form)
    (AdjDict [("y"%string, adjoint_error_z); ("z"%string, adjoint_error_on_square)])
    TsNone = Raise ValueError /\
  get_dwr_indicator domain_triangle solve_zero (IsForm residual_form)
    (AdjFunction adjoint_error_on_square) TsNone = Raise ValueError.
Proof.
  destruct (get_dwr_indicator_validation domain_triangle solve_zero residual_form
              triangle_mesh [("z"%string, adjoint_error_z)] eq_refl)
    as (H1 & _ & _ & _ & H5 & _ & _ & H8).
  destruct (get_dwr_indicator_validation domain_triangle solve_zero residual_form
              triangle_mesh
              [("y"%string, adjoint_error_z); ("z"%string, adjoint_error_on_square)]
              eq_refl)
    as (_ & _ & _ & _ & _ & H6 & _).
  split; [apply H1|]. split; [|split; [|split]].
  - destruct (H5 (TsDict []) [] eq_refl) as (_ & _ & H).
    apply (H [] "z"%string adjoint_error_z []); [reflexivity|constructor|reflexivity].
  - destruct (H5 (TsDict [("z"%string, NotSpace)]) [("z"%string, NotSpace)] eq_refl)
      as (_ & _ & H).
    apply (H [] "z"%string adjoint_error_z []); [reflexivity|constructor|reflexivity].
  - destruct H6 as [_ H].
    + repeat constructor; simpl; intuition discriminate.
    + apply H. intros Hall. inversion Hall as [|? ? _ Hrest]; subst.
      inversion Hrest as [|? ? Hz _]; subst. discriminate.
  - apply H8. reflexivity.
Defined.

(* ================================================================== *)
(** * Further properties of the drivers *)

(** ** Complexity *)

Lemma quad_mscale (n : nat) (c : R) (A : Mat) (x : list R) :
  quad n (mscale c A) x = c * quad n A x.
Proof.
  unfold quad. rewrite <- rsum_scal. apply rsum_ext. intros i _.
  rewrite <- rsum_scal. apply rsum_ext. intros j _.
  rewrite mget_mscale. ring.
Qed.

Lemma spd_mscale (n : nat) (c : R) (A : Mat) :
  0 < c -> spd n A -> spd n (mscale c A).
Proof.
  intros Hc (Hwf & Hsym & Hpd). split; [now apply wf_mscale|]. split.
  - intros i j Hi Hj. rewrite !mget_mscale. f_equal. now apply Hsym.
  - intros x Hx. rewrite quad_mscale. apply Rmult_lt_0_compat; [assumption|].
    now apply Hpd.
Qed.

Lemma complexity_of_scaled (M : Function Mat) (c : R) (boundary : bool) :
  0 <= c ->
  (1 <= topological_dimension (fs_mesh (function_space M)) <= 3)%nat ->
  metric_complexity {| function_space := function_space M;
                       dat := map (mscale c) (dat M) |} boundary
  = sqrt (c ^ topological_dimension (fs_mesh (function_space M)))
    * metric_complexity M boundary.
Proof.
  intros Hc Hd. unfold metric_complexity, assemble_tensor. simpl.
  set (d := topological_dimension (fs_mesh (function_space M))) in *.
  apply (weighted_sum_scal (sqrt (c ^ d))
           (fun phi => sqrt (det (eval_tensor d (dat M) phi)))
           (fun phi => sqrt (det (eval_tensor d (map (mscale c) (dat M)) phi)))).
  intros wp _. rewrite eval_tensor_scaled.
  rewrite (det_mscale d) by (try apply length_mmk; lia).
  apply sqrt_mult_alt. now apply pow_le.
Qed.




(** The integrand of a normalisation is positive at every quadrature
    point of a valid metric, so the integral is positive. *)
Lemma assemble_positive (M : Function Mat) (f : Mat -> R) :
  valid_metric M ->
  (1 <= topological_dimension (fs_mesh (function_space M)) <= 3)%nat ->
  (forall A, 0 < det A -> 0 < f A) ->
  0 < assemble_tensor false M f.
Proof.
  intros Hvalid Hd Hf. unfold assemble_tensor.
  pose proof (fun wp => det_eval_pos M wp Hvalid Hd) as Hdet.
  destruct Hvalid as (Hmesh & _).
  destruct (quad_dx_valid _ Hmesh) as [Hne _].
  apply (weighted_sum_pos
           (fun phi => f (eval_tensor (topological_dimension
                                         (fs_mesh (function_space M))) (dat M) phi)));
    [assumption|].
  intros wp Hin. destruct (Hdet wp Hin) as [Hw HD]. split; [assumption|].
  now apply Hf.
Qed.

(** X2. The complexity of a valid metric is positive. *)
Theorem metric_complexity_positive (M : Function Mat) :
  valid_metric M ->
  (1 <= topological_dimension (fs_mesh (function_space M)) <= 3)%nat ->
  0 < metric_complexity M false.
Proof.
  intros Hvalid Hd. unfold metric_complexity.
  apply assemble_positive; try assumption.
  intros A HA. now apply sqrt_lt_R0.
Qed.

Lemma metric_complexity_positive_witness : 0 < metric_complexity graded_metric false.
Proof.
  apply (metric_complexity_positive graded_metric);
    [apply (valid_iso_field 1 1 49); lra|simpl; lia].
Defined.

(** ** Space normalisation keeps a metric a metric *)

Lemma pow_positive (x y : R) : 0 < x -> 0 < pow x y.
Proof. intros Hx. rewrite pow_Rpower by assumption. apply Rpower_pos. Qed.

(** X3. For a valid metric, a positive target and a valid order,
    [space_normalise] (no precomputed factor, over the domain) returns a
    valid metric on the same function space, whatever the element. *)
Theorem space_normalise_valid (metric : Function Mat) (target : R) (p : norm_order) :
  valid_metric metric ->
  (1 <= topological_dimension (fs_mesh (function_space metric)) <= 3)%nat ->
  0 < target ->
  valid_order p = true ->
  exists M', space_normalise metric target p None false = Ok M' /\
             function_space M' = function_space metric /\
             valid_metric M'.
Proof.
  intros Hvalid Hd Htarget Hp.
  set (d := topological_dimension (fs_mesh (function_space metric))) in *.
  unfold space_normalise. rewrite Hp. cbn [assert bind]. fold d.
  rewrite Nat.sub_0_r.
  destruct (Nat.eqb_spec d 0) as [H0|_]; [lia|]. cbn [bind].
  set (ex := match p with Inf => 0.5 | Order p0 => p0 / (2 * p0 + INR d) end).
  assert (HI : 0 < assemble_tensor false metric (fun M => pow (det M) ex)).
  { apply assemble_positive; try assumption. intros A HA. now apply pow_positive. }
  set (I := assemble_tensor false metric (fun M => pow (det M) ex)) in *.
  assert (Hfac : 0 < pow (target / I) (2 / INR d))
    by (apply pow_positive, Rdiv_lt_0_compat; assumption).
  eexists. split; [reflexivity|]. split; [reflexivity|].
  destruct Hvalid as (Hmesh & Hshape & Hlen & Hspd).
  split; [exact Hmesh|]. split; [exact Hshape|].
  split; [simpl; rewrite length_map; exact Hlen|].
  simpl. fold d in Hspd |- *. apply Forall_map.
  eapply Forall_impl; [|exact Hspd]. intros A HA.
  apply spd_mscale; [|exact HA].
  apply Rmult_lt_0_compat; [exact Hfac|].
  destruct p; [lra|]. apply pow_positive. now apply (spd_det_pos d).
Qed.

Lemma space_normalise_valid_witness :
  exists M', space_normalise graded_metric 100 (Order 2) None false = Ok M' /\
             function_space M' = function_space graded_metric /\
             valid_metric M'.
Proof.
  apply (space_normalise_valid graded_metric 100 (Order 2)).
  - apply (valid_iso_field 1 1 49); lra.
  - simpl. lia.
  - lra.
  - simpl. destruct (Rle_dec 1 2); [reflexivity|lra].
Defined.



(** X5. On a mesh of dimension 1 a normalisation over the boundary that
    has to compute its factor never returns: the order is checked first
    (assertion error), then the exponent [2/d] is taken with [d = 0]. *)
Theorem space_normalise_boundary_1d (metric : Function Mat) (target : R)
    (p : norm_order) :
  topological_dimension (fs_mesh (function_space metric)) = 1%nat ->
  space_normalise metric target p None true
  = Raise (if valid_order p then ZeroDivisionError else AssertionError).
Proof.
  intros Hd. unfold space_normalise. rewrite Hd.
  destruct (valid_order p); reflexivity.
Qed.

Lemma space_normalise_boundary_1d_witness :
  space_normalise (interval_metric 4 9) 10 (Order 2) None true
  = Raise (if valid_order (Order 2) then ZeroDivisionError else AssertionError).
Proof.
  apply (space_normalise_boundary_1d (interval_metric 4 9) 10 (Order 2)).
  reflexivity.
Defined.

(** ** Normalisation over the boundary *)

Lemma quad_ds_valid (V : FunctionSpace) :
  valid_mesh (fs_mesh V) ->
  Forall (fun wp => 0 < fst wp /\ convex_basis (node_count V) (snd wp)) (quad_ds V).
Proof.
  intros (_ & Hcells & Hfacets).
  apply Forall_forall. intros [w phi] Hin.
  unfold quad_ds in Hin. apply in_flat_map in Hin.
  destruct Hin as [f [Hf Hin]].
  rewrite Forall_forall in Hfacets. destruct (Hfacets f Hf) as [Hc HF].
  destruct (nth_error (cells (fs_mesh V)) (facet_cell f)) as [K|] eqn:EK;
    [|contradiction].
  apply in_map_iff in Hin. destruct Hin as [q [Heq Hq]].
  inversion Heq; subst; clear Heq.
  rewrite Forall_forall in HF, Hcells. simpl. split.
  - now destruct (HF q Hq).
  - apply basis_at_convex; auto.
    apply Hcells. eapply nth_error_In, EK.
Qed.

Lemma det_eval_pos_ds (M : Function Mat) (wp : R * list (nat * R)) :
  valid_metric M ->
  (1 <= topological_dimension (fs_mesh (function_space M)) <= 3)%nat ->
  In wp (quad_ds (function_space M)) ->
  0 < fst wp /\
  0 < det (eval_tensor (topological_dimension (fs_mesh (function_space M)))
                       (dat M) (snd wp)).
Proof.
  intros (Hmesh & _ & Hlen & Hspd) Hd Hin.
  pose proof (quad_ds_valid _ Hmesh) as HQ.
  rewrite Forall_forall in HQ. destruct (HQ wp Hin) as [Hw Hphi].
  split; [assumption|].
  apply (spd_det_pos _ _ Hd), spd_eval_tensor; [assumption|].
  now rewrite Hlen.
Qed.

(** X6. Over the boundary the normalisation takes the exponent [2/(n-1)]
    but rescales the full [n x n] determinant: for a valid metric on a mesh
    of dimension [n] = 2 or 3 with boundary complexity [I > 0], the call
    with [p = "inf"] and [boundary=True] returns a metric whose boundary
    complexity is [(target/I)^(n/(n-1)) * I]. *)
Theorem space_normalise_boundary_complexity (metric : Function Mat) (target : R) :
  valid_metric metric ->
  (2 <= topological_dimension (fs_mesh (function_space metric)) <= 3)%nat ->
  0 < target ->
  quad_ds (function_space metric) <> [] ->
  exists M', space_normalise metric target Inf None true = Ok M' /\
             0 < metric_complexity metric true /\
             metric_complexity M' true
             = Rpower (target / metric_complexity metric true)
                      (INR (topological_dimension (fs_mesh (function_space metric)))
                       / INR (topological_dimension (fs_mesh (function_space metric)) - 1))
               * metric_complexity metric true.
Proof.
  intros Hvalid Hd Htarget Hne.
  set (n := topological_dimension (fs_mesh (function_space metric))) in *.
  assert (Hd' : (1 <= n <= 3)%nat) by lia.
  pose proof (fun wp => det_eval_pos_ds metric wp Hvalid Hd') as Hdet. fold n in Hdet.
  assert (HI : assemble_tensor true metric (fun M => pow (det M) 0.5)
               = metric_complexity metric true).
  { unfold metric_complexity, assemble_tensor. fold n. f_equal.
    apply map_ext_in. intros wp Hin. f_equal.
    destruct (Hdet wp Hin) as [_ HD]. rewrite pow_Rpower by assumption.
    replace 0.5 with (/ 2) by lra. now apply Rpower_sqrt. }
  assert (HIpos : 0 < metric_complexity metric true).
  { unfold metric_complexity, assemble_tensor. fold n.
    apply (weighted_sum_pos (fun phi => sqrt (det (eval_tensor n (dat metric) phi))));
      [assumption|].
    intros wp Hin. destruct (Hdet wp Hin) as [Hw HD].
    split; [assumption|now apply sqrt_lt_R0]. }
  unfold space_normalise. cbn [valid_order assert bind]. fold n.
  destruct (Nat.eqb_spec (n - 1) 0) as [H0|_]; [lia|]. cbn [bind].
  rewrite HI. set (I := metric_complexity metric true) in *.
  set (a := target / I).
  assert (Ha : 0 < a) by (apply Rdiv_lt_0_compat; assumption).
  rewrite (pow_Rpower a) by assumption.
  set (g := Rpower a (2 / INR (n - 1))).
  assert (E : map (fun M => mscale (g * 1) M) (dat metric)
              = map (mscale g) (dat metric))
    by (apply map_ext; intros A; now rewrite Rmult_1_r).
  rewrite E. eexists. split; [reflexivity|]. split; [assumption|].
  rewrite complexity_of_scaled by (try assumption; left; apply Rpower_pos).
  fold n I. f_equal. unfold g.
  rewrite Rpower_nat_pow by assumption.
  rewrite <- Rpower_sqrt by apply Rpower_pos.
  rewrite Rpower_mult. f_equal.
  assert (INR (n - 1) <> 0) by (apply not_0_INR; lia).
  field. assumption.
Qed.

Lemma space_normalise_boundary_complexity_witness :
  exists M', space_normalise graded_metric 10 Inf None true = Ok M' /\
             0 < metric_complexity graded_metric true /\
             metric_complexity M' true
             = Rpower (10 / metric_complexity graded_metric true)
                      (INR 2 / INR (2 - 1))
               * metric_complexity graded_metric true.
Proof.
  apply (space_normalise_boundary_complexity graded_metric 10).
  - apply (valid_iso_field 1 1 49); lra.
  - simpl. lia.
  - lra.
  - simpl. discriminate.
Defined.

(** ** Normalisation in space and time *)

Lemma space_time_density (d : nat) (a tau D : R) (p : norm_order) :
  (1 <= d)%nat -> 0 < a -> 0 < tau -> 0 < D -> valid_order p = true ->
  tau * sqrt ((Rpower a (2 / INR d)
               * match p with
                 | Inf => 1
                 | Order p => pow (tau ^ 2 * D) (- 1 / (2 * p + INR d))
                 end) ^ d * D)
  = a * match p with
        | Inf => tau * sqrt D
        | Order p => pow (tau ^ 2 * D) (p / (2 * p + INR d))
        end.
Proof.
  intros Hd Ha Htau HD Hp. destruct p as [|p0].
  - rewrite Rmult_1_r, normalised_density_inf by (try lia; lra). ring.
  - simpl in Hp. destruct (Rle_dec 1 p0) as [Hp0|]; [|discriminate].
    assert (0 <= INR d) by apply pos_INR.
    assert (HD' : 0 < tau ^ 2 * D) by (apply Rmult_lt_0_compat; [nra|assumption]).
    rewrite !pow_Rpower by assumption.
    rewrite <- (normalised_density d a (tau ^ 2 * D) p0) by (try assumption; try lia; lra).
    rewrite <- (sqrt_square_pos tau) at 1 by assumption.
    rewrite <- sqrt_mult_alt by nra. f_equal. ring.
Qed.

Lemma space_time_metric (metric : Function Mat) (d : nat) (a tau : R) (p : norm_order) :
  valid_metric metric ->
  topological_dimension (fs_mesh (function_space metric)) = d ->
  (1 <= d <= 3)%nat -> 0 < a -> 0 < tau -> valid_order p = true ->
  p = Inf \/ fs_element (function_space metric) = P0 ->
  tau * metric_complexity (normalise_subinterval (Rpower a (2 / INR d)) p d (metric, tau)) false
  = a * space_time_term p d metric tau.
Proof.
  intros Hvalid Hdim Hd Ha Htau Hp Hcase.
  set (V := function_space metric) in *.
  rewrite <- Hdim in Hd.
  pose proof (fun wp => det_eval_pos metric wp Hvalid Hd) as Hdet.
  fold V in Hdet. rewrite Hdim in Hdet, Hd.
  destruct Hvalid as (Hmesh & _ & Hlen & Hspd). fold V in Hmesh, Hlen, Hspd.
  rewrite Hdim in Hspd.
  destruct (quad_dx_valid V Hmesh) as [Hne HQ].
  pose (F := fun phi =>
               match p with
               | Inf => tau * sqrt (det (eval_tensor d (dat metric) phi))
               | Order p0 => pow (tau ^ 2 * det (eval_tensor d (dat metric) phi))
                                 (p0 / (2 * p0 + INR d))
               end).
  assert (HT : space_time_term p d metric tau
               = weighted_sum (map (fun wp => (fst wp, F (snd wp))) (quad_dx V))).
  { unfold space_time_term, assemble_tensor, F. fold V. rewrite Hdim.
    destruct p; reflexivity. }
  rewrite HT.
  unfold metric_complexity, assemble_tensor, normalise_subinterval.
  cbn [function_space dat fst snd]. fold V. rewrite Hdim.
  set (dat' := map _ (dat metric)).
  rewrite <- (weighted_sum_scal tau
                (fun phi => sqrt (det (eval_tensor d dat' phi)))
                (fun phi => tau * sqrt (det (eval_tensor d dat' phi)))
                (quad_dx V)) by (intros; reflexivity).
  apply (weighted_sum_scal a F
           (fun phi => tau * sqrt (det (eval_tensor d dat' phi)))).
  intros wp Hin. unfold dat'. clear dat'.
  destruct (Hdet wp Hin) as [_ HD]. unfold F.
  rewrite <- (space_time_density d a tau _ p) by (try assumption; lia).
  f_equal. f_equal.
  destruct Hcase as [->|HP0].
  - rewrite (map_ext _ (mscale (Rpower a (2 / INR d) * 1))) by reflexivity.
    rewrite eval_tensor_scaled.
    apply (det_mscale d); [apply length_mmk|lia].
  - destruct (quad_dx_P0 V wp HP0 Hin) as [c Hc]. rewrite Hc in *.
    rewrite Forall_forall in HQ, Hspd.
    destruct (HQ wp Hin) as [_ [Hnodes _]]. rewrite Hc in Hnodes.
    apply Forall_inv in Hnodes. destruct Hnodes as [Hcn _]. simpl in Hcn.
    assert (Hwf : spd d (nth c (dat metric) [])).
    { apply Hspd, nth_In. now rewrite Hlen. }
    set (g := fun M : Mat => mscale _ M).
    assert (Eg : nth c (map g (dat metric)) [] = g (nth c (dat metric) [])).
    { change (@nil (list R)) with (g []) at 1. apply map_nth. }
    rewrite !eval_tensor_nodal.
    + rewrite Eg. unfold g. destruct Hwf as ([Hl _] & _).
      apply (det_mscale d); [assumption|lia].
    + apply Hwf.
    + rewrite Eg. apply wf_mscale, Hwf.
Qed.

Lemma dt_per_mesh_ok (end_time : R) (n : nat) (timesteps : list R) :
  Forall (fun dt => dt <> 0) timesteps ->
  dt_per_mesh end_time n timesteps
  = Ok (map (fun dt => end_time / INR n / dt) timesteps).
Proof.
  induction 1 as [|dt ts Hdt _ IH]; simpl; [reflexivity|].
  destruct (Req_dec_T dt 0); [contradiction|]. now rewrite IH.
Qed.

Lemma fold_left_Rplus {A : Type} (f : A -> R) (l : list A) (a0 : R) :
  fold_left (fun acc x => acc + f x) l a0 = a0 + fold_right Rplus 0 (map f l).
Proof.
  revert a0. induction l as [|x l IH]; intros a0; simpl; [ring|].
  rewrite IH. ring.
Qed.

Lemma space_time_term_pos (metric : Function Mat) (d : nat) (tau : R) (p : norm_order) :
  valid_metric metric ->
  (1 <= topological_dimension (fs_mesh (function_space metric)) <= 3)%nat ->
  0 < tau ->
  0 < space_time_term p d metric tau.
Proof.
  intros Hvalid Hd Htau. unfold space_time_term.
  destruct p; apply assemble_positive; try assumption; intros A HA.
  - apply Rmult_lt_0_compat; [assumption|now apply sqrt_lt_R0].
  - apply pow_positive, Rmult_lt_0_compat; [nra|assumption].
Qed.

Section SpaceTime.
Variables (p : norm_order) (d : nat) (c a : R).
Hypotheses (Hd : (1 <= d <= 3)%nat) (Hc : 0 < c) (Ha : 0 < a)
           (Hp : valid_order p = true).

Lemma space_time_sum (metrics : list (Function Mat)) (timesteps : list R) :
  Forall (normalisable p d) metrics ->
  Forall (fun dt => 0 < dt) timesteps ->
  fold_right Rplus 0
    (map (fun mt => c / snd mt * metric_complexity (fst mt) false)
         (combine (map (normalise_subinterval (Rpower a (2 / INR d)) p d)
                       (combine metrics (map (fun dt => c / dt) timesteps)))
                  timesteps))
  = a * fold_right Rplus 0
          (map (fun mt => space_time_term p d (fst mt) (snd mt))
               (combine metrics (map (fun dt => c / dt) timesteps))).
Proof.
  intros HM. revert timesteps.
  induction HM as [|M Ms (HvM & HdM & HcM) _ IH]; intros ts Hts; simpl; [ring|].
  destruct Hts as [|dt ts Hdt Hts]; simpl; [ring|].
  rewrite IH by assumption.
  rewrite (space_time_metric M d a (c / dt) p); try assumption.
  - ring.
  - now apply Rdiv_lt_0_compat.
Qed.

Lemma space_time_sum_pos (metrics : list (Function Mat)) (timesteps : list R) :
  Forall (normalisable p d) metrics ->
  Forall (fun dt => 0 < dt) timesteps ->
  0 <= fold_right Rplus 0
         (map (fun mt => space_time_term p d (fst mt) (snd mt))
              (combine metrics (map (fun dt => c / dt) timesteps))).
Proof.
  intros HM. revert timesteps.
  induction HM as [|M Ms (HvM & HdM & HcM) _ IH]; intros ts Hts; simpl; [lra|].
  destruct Hts as [|dt ts Hdt Hts]; simpl; [lra|].
  specialize (IH ts Hts).
  assert (0 < space_time_term p d M (c / dt)).
  { apply space_time_term_pos; [assumption|rewrite HdM; assumption|].
    now apply Rdiv_lt_0_compat. }
  lra.
Qed.

End SpaceTime.

Lemma normalise_subinterval_spaces (g : R) (p : norm_order) (d : nat)
    (metrics : list (Function Mat)) (taus : list R) :
  length taus = length metrics ->
  map (@function_space Mat) (map (normalise_subinterval g p d) (combine metrics taus))
  = map (@function_space Mat) metrics.
Proof.
  revert taus. induction metrics as [|M Ms IH]; intros [|t ts] Hl;
    try discriminate; simpl; [reflexivity|].
  f_equal. apply IH. now injection Hl.
Qed.

(** X7. Space-time normalisation reaches its target: for a non-empty list
    of valid metrics on meshes of one dimension [d] (any element for the
    order ["inf"], piecewise constant otherwise), as many positive
    timesteps, a positive end time and a positive target, the call
    returns metrics on the same spaces whose complexities, weighted by
    the number of timesteps of their subintervals, add up to [target]. *)
Theorem space_time_normalise_complexity (metrics : list (Function Mat))
    (end_time : R) (timesteps : list R) (target : R) (p : norm_order) (d : nat) :
  metrics <> [] ->
  Forall (normalisable p d) metrics ->
  (1 <= d <= 3)%nat ->
  length timesteps = length metrics ->
  Forall (fun dt => 0 < dt) timesteps ->
  0 < end_time -> 0 < target ->
  valid_order p = true ->
  exists metrics',
    space_time_normalise metrics end_time timesteps target p = Ok metrics' /\
    map (@function_space Mat) metrics' = map (@function_space Mat) metrics /\
    space_time_complexity metrics' end_time timesteps = target.
Proof.
  intros Hne HM Hd Hlen Hts HT Htarget Hp.
  unfold space_time_normalise. rewrite Hp, Hlen, Nat.eqb_refl. cbn [assert bind].
  rewrite dt_per_mesh_ok
    by (eapply Forall_impl; [|exact Hts]; simpl; intros; lra).
  cbn [bind].
  set (c := end_time / INR (length metrics)).
  assert (Hc : 0 < c).
  { apply Rdiv_lt_0_compat; [assumption|].
    apply lt_0_INR. destruct metrics; [contradiction|simpl; lia]. }
  set (taus := map (fun dt => c / dt) timesteps).
  assert (Hdim : match metrics with
                 | [] => Raise IndexError
                 | metric :: _ =>
                     Ok (topological_dimension (fs_mesh (function_space metric)))
                 end = Ok d).
  { destruct metrics as [|M Ms]; [contradiction|].
    apply Forall_inv in HM. destruct HM as (_ & -> & _). reflexivity. }
  rewrite Hdim. cbn [bind].
  rewrite fold_left_Rplus, Rplus_0_l.
  set (I := fold_right Rplus 0 _).
  assert (HI : 0 < I).
  { unfold I, taus. destruct HM as [|M Ms (HvM & HdM & HcM) HMs]; [contradiction|].
    destruct Hts as [|dt ts Hdt Hts]; [discriminate|]. simpl.
    pose proof (space_time_sum_pos p d c Hd Hc Ms ts HMs Hts).
    assert (0 < space_time_term p d M (c / dt)).
    { apply space_time_term_pos; [assumption|rewrite HdM; assumption|].
      now apply Rdiv_lt_0_compat. }
    lra. }
  destruct (Req_dec_T I 0) as [E|_]; [lra|].
  destruct (Nat.eqb_spec d 0) as [E|_]; [lia|]. cbn [bind].
  set (a := target / I).
  assert (Ha : 0 < a) by (apply Rdiv_lt_0_compat; assumption).
  rewrite (pow_Rpower a) by assumption.
  eexists. split; [reflexivity|]. split.
  - apply normalise_subinterval_spaces. unfold taus. now rewrite length_map.
  - unfold space_time_complexity.
    rewrite length_map, length_combine. unfold taus at 1.
    rewrite length_map, Hlen, Nat.min_id. fold c.
    unfold taus. rewrite (space_time_sum p d c a) by assumption.
    fold taus I. unfold a. field. lra.
Qed.

Lemma space_time_normalise_complexity_witness :
  exists metrics',
    space_time_normalise [graded_metric; iso_cell_field 4] 1 [/ 4; / 10] 50 Inf
    = Ok metrics' /\
    map (@function_space Mat) metrics'
    = map (@function_space Mat) [graded_metric; iso_cell_field 4] /\
    space_time_complexity metrics' 1 [/ 4; / 10] = 50.
Proof.
  apply (space_time_normalise_complexity
           [graded_metric; iso_cell_field 4] 1 [/ 4; / 10] 50 Inf 2).
  - discriminate.
  - apply Forall_cons; [|apply Forall_cons; [|apply Forall_nil]].
    + split; [apply (valid_iso_field 1 1 49); lra|]. split; [reflexivity|now left].
    + split; [apply valid_iso_cell_field; lra|]. split; [reflexivity|now left].
  - lia.
  - reflexivity.
  - apply Forall_cons; [lra|apply Forall_cons; [lra|apply Forall_nil]].
  - lra.
  - lra.
  - reflexivity.
Defined.

Lemma dt_per_mesh_zero (end_time : R) (n : nat) (timesteps : list R) :
  In 0 timesteps ->
  dt_per_mesh end_time n timesteps = Raise ZeroDivisionError.
Proof.
  induction timesteps as [|dt ts IH]; intros Hin; [contradiction|]. simpl.
  destruct (Req_dec_T dt 0) as [|Hdt]; [reflexivity|].
  destruct Hin as [E|Hin]; [now subst|]. now rewrite IH.
Qed.

(** X8. Bad input to [space_time_normalise] with a valid order: lists of
    different lengths stop with an assertion error; otherwise a zero
    timestep divides by zero; otherwise an empty list of metrics is an
    index error. In none of these cases is a metric returned. *)
Theorem space_time_normalise_errors (metrics : list (Function Mat))
    (end_time : R) (timesteps : list R) (target : R) (p : norm_order) :
  valid_order p = true ->
  length timesteps <> length metrics \/ In 0 timesteps \/ metrics = [] ->
  space_time_normalise metrics end_time timesteps target p
  = Raise (if Nat.eqb (length timesteps) (length metrics)
           then if in_dec Req_dec_T 0 timesteps
                then ZeroDivisionError else IndexError
           else AssertionError).
Proof.
  intros Hp H. unfold space_time_normalise. rewrite Hp. cbn [assert bind].
  destruct (Nat.eqb_spec (length timesteps) (length metrics)) as [Hlen|Hlen];
    [|reflexivity].
  cbn [assert bind].
  destruct (in_dec Req_dec_T 0 timesteps) as [Hin|Hnin].
  - now rewrite dt_per_mesh_zero.
  - destruct H as [H|[H|H]]; [contradiction|contradiction|]. subst metrics.
    destruct timesteps; [reflexivity|discriminate].
Qed.

Lemma space_time_normalise_errors_witness :
  space_time_normalise [graded_metric; iso_cell_field 4] 1 [/ 4; 0] 50 (Order 2)
  = Raise (if Nat.eqb (length [/ 4; 0]) (length [graded_metric; iso_cell_field 4])
           then if in_dec Req_dec_T 0 [/ 4; 0]
                then ZeroDivisionError else IndexError
           else AssertionError).
Proof.
  apply (space_time_normalise_errors [graded_metric; iso_cell_field 4] 1 [/ 4; 0] 50
           (Order 2)).
  - simpl. destruct (Rle_dec 1 2); [reflexivity|lra].
  - right. left. simpl. auto.
Defined.

(** ** The symmetry test *)

Lemma nth_vadd (u v : list R) (j : nat) :
  length u = length v ->
  nth j (vadd u v) 0 = nth j u 0 + nth j v 0.
Proof.
  revert v j. induction u as [|x u IH]; intros [|y v] j Hl; try discriminate.
  - destruct j; simpl; ring.
  - destruct j; simpl; [reflexivity|]. apply IH. now injection Hl.
Qed.

Lemma mget_madd (n : nat) (A B : Mat) (i j : nat) :
  wf n A -> wf n B -> (i < n)%nat ->
  mget (madd A B) i j = mget A i j + mget B i j.
Proof.
  intros [HlA HA] [HlB HB] Hi. unfold mget, madd.
  assert (E : nth i (map (fun rs => vadd (fst rs) (snd rs)) (combine A B)) []
              = vadd (nth i A []) (nth i B [])).
  { change (@nil R) with ((fun rs => vadd (fst rs) (snd rs)) ([], [])) at 1.
    rewrite map_nth, combine_nth by congruence. reflexivity. }
  rewrite E. apply nth_vadd.
  rewrite Forall_forall in HA, HB.
  rewrite (HA (nth i A [])), (HB (nth i B [])); auto; apply nth_In; lia.
Qed.

Lemma length_madd (A B : Mat) : length A = length B -> length (madd A B) = length A.
Proof.
  intros H. unfold madd. rewrite length_map, length_combine, <- H. apply Nat.min_id.
Qed.

(** The antisymmetric part of the value at a point. *)
Lemma mget_antisymmetric (n : nat) (A : Mat) (i j : nat) :
  wf n A -> (i < n)%nat -> (j < n)%nat ->
  mget (madd A (mscale (-1) (mtrans n A))) i j = mget A i j - mget A j i.
Proof.
  intros HA Hi Hj.
  rewrite (mget_madd n) by (try assumption; apply wf_mscale, wf_mmk).
  rewrite mget_mscale, mget_mtrans by assumption. ring.
Qed.

Lemma length_antisymmetric (n : nat) (A : Mat) :
  wf n A -> length (madd A (mscale (-1) (mtrans n A))) = n.
Proof.
  intros [Hl _]. rewrite length_madd; [assumption|].
  rewrite length_mscale. unfold mtrans. now rewrite length_mmk.
Qed.

Lemma det_antisymmetric_3 (A : Mat) :
  wf 3 A -> det (madd A (mscale (-1) (mtrans 3 A))) = 0.
Proof.
  intros HA. unfold det. rewrite (length_antisymmetric 3) by assumption.
  rewrite !(mget_antisymmetric 3) by (try assumption; lia). ring.
Qed.

Lemma det_antisymmetric_2 (A : Mat) :
  wf 2 A ->
  det (madd A (mscale (-1) (mtrans 2 A))) = (mget A 0 1 - mget A 1 0) ^ 2.
Proof.
  intros HA. unfold det. rewrite (length_antisymmetric 2) by assumption.
  rewrite !(mget_antisymmetric 2) by (try assumption; lia). ring.
Qed.

Lemma det_antisymmetric_sym (n : nat) (A : Mat) :
  (1 <= n <= 3)%nat -> wf n A -> msym n A ->
  det (madd A (mscale (-1) (mtrans n A))) = 0.
Proof.
  intros Hn HA Hs. unfold det. rewrite (length_antisymmetric n) by assumption.
  destruct n as [|[|[|[|n]]]]; try lia;
    rewrite !(mget_antisymmetric _ A) by (try assumption; lia);
    rewrite ?(Hs 1%nat 0%nat), ?(Hs 2%nat 0%nat), ?(Hs 2%nat 1%nat) by lia; ring.
Qed.

Lemma assemble_zero (M : Function Mat) (f : Mat -> R) :
  (forall A, wf (topological_dimension (fs_mesh (function_space M))) A -> f A = 0) ->
  assemble_tensor false M f = 0.
Proof.
  intros Hf. unfold assemble_tensor.
  apply (weighted_sum_zero (fun phi => f (eval_tensor _ (dat M) phi))).
  intros wp _. apply Hf, wf_mmk.
Qed.

Lemma is_symmetric_no_error (M : Function Mat) (rtol : R) :
  assemble_tensor false M (fun A => Rabs (det A)) <> 0 ->
  0 < rtol ->
  assemble_tensor false M
    (fun A => Rabs (det (madd A (mscale (-1)
                (mtrans (topological_dimension (fs_mesh (function_space M))) A))))) = 0 ->
  is_symmetric M rtol = Ok true.
Proof.
  intros Htot Hr Herr. unfold is_symmetric. rewrite Herr.
  destruct (Req_dec_T _ 0) as [E|_]; [contradiction|].
  unfold Rdiv. rewrite Rmult_0_l.
  destruct (Rlt_dec 0 rtol); [reflexivity|contradiction].
Qed.

(** X9. In dimension 3 the symmetry test cannot fail: the determinant of
    the antisymmetric part of a 3 x 3 tensor is zero, so for any tensor
    field whose determinant has a non-zero integral and any positive
    tolerance, [is_symmetric] returns [True]. *)
Theorem is_symmetric_dimension_3 (M : Function Mat) (rtol : R) :
  topological_dimension (fs_mesh (function_space M)) = 3%nat ->
  assemble_tensor false M (fun A => Rabs (det A)) <> 0 ->
  0 < rtol ->
  is_symmetric M rtol = Ok true.
Proof.
  intros Hn Htot Hr. apply is_symmetric_no_error; try assumption.
  apply assemble_zero. rewrite Hn. intros A HA.
  rewrite det_antisymmetric_3 by assumption. apply Rabs_R0.
Qed.

Lemma assemble_sheared_field (f : Mat -> R) :
  assemble_tensor false sheared_field f
  = / 6 * f [[1; 1; 0]; [0; 1; 0]; [0; 0; 1]] + 0.
Proof.
  unfold assemble_tensor, sheared_field.
  cbn [function_space dat tensor_space fs_mesh fs_element tet_mesh
       topological_dimension quad_dx cells indexed length seq combine flat_map
       map fst snd cell_quad basis_at qweight app weighted_sum fold_right].
  rewrite eval_tensor_nodal; [reflexivity|].
  split; [reflexivity|]. repeat (apply Forall_cons; [reflexivity|]). apply Forall_nil.
Qed.

Lemma is_symmetric_dimension_3_witness :
  is_symmetric sheared_field (1 / 10 ^ 8) = Ok true /\
  mget (nth 0 (dat sheared_field) []) 0 1 <> mget (nth 0 (dat sheared_field) []) 1 0.
Proof.
  split.
  - apply (is_symmetric_dimension_3 sheared_field (1 / 10 ^ 8)).
    + reflexivity.
    + rewrite assemble_sheared_field. unfold det, mget. simpl.
      replace (1 * (1 * 1 - 0 * 0) - 1 * (0 * 1 - 0 * 0) + 0 * (0 * 0 - 1 * 0))
        with 1 by ring.
      rewrite Rabs_R1. lra.
    + apply Rdiv_lt_0_compat; [lra|]. apply pow_lt. lra.
  - unfold mget. simpl. lra.
Defined.

(** X10. In dimension 2 the symmetry test compares the integral of the
    squared difference of the off-diagonal entries with the tolerance
    times the integral of the absolute determinant. *)
Theorem is_symmetric_dimension_2 (M : Function Mat) (rtol : R) :
  topological_dimension (fs_mesh (function_space M)) = 2%nat ->
  0 < assemble_tensor false M (fun A => Rabs (det A)) ->
  (is_symmetric M rtol = Ok true <->
   assemble_tensor false M (fun A => (mget A 0 1 - mget A 1 0) ^ 2)
   < rtol * assemble_tensor false M (fun A => Rabs (det A))).
Proof.
  intros Hn Htot. unfold is_symmetric.
  set (total := assemble_tensor false M (fun A => Rabs (det A))) in *.
  assert (Herr : assemble_tensor false M
                   (fun A => Rabs (det (madd A (mscale (-1)
                      (mtrans (topological_dimension (fs_mesh (function_space M))) A)))))
                 = assemble_tensor false M (fun A => (mget A 0 1 - mget A 1 0) ^ 2)).
  { unfold assemble_tensor. rewrite Hn. f_equal. apply map_ext. intros wp. f_equal.
    rewrite det_antisymmetric_2 by apply wf_mmk.
    apply Rabs_pos_eq, pow2_ge_0. }
  rewrite Herr. set (err := assemble_tensor false M _).
  destruct (Req_dec_T total 0) as [E|_]; [lra|].
  assert (Hdiv : err / total < rtol <-> err < rtol * total).
  { split; intros H.
    - replace err with (err / total * total) by (field; lra).
      now apply Rmult_lt_compat_r.
    - apply (Rmult_lt_reg_r total); [assumption|].
      replace (err / total * total) with err by (field; lra). assumption. }
  destruct (Rlt_dec (err / total) rtol) as [H|H]; split; intros H';
    try reflexivity; try tauto; discriminate.
Qed.

Lemma total_determinant_pos (M : Function Mat) :
  valid_metric M ->
  (1 <= topological_dimension (fs_mesh (function_space M)) <= 3)%nat ->
  0 < assemble_tensor false M (fun A => Rabs (det A)).
Proof.
  intros Hv Hd. apply assemble_positive; try assumption.
  intros A HA. apply Rabs_pos_lt. lra.
Qed.

Lemma is_symmetric_dimension_2_witness :
  is_symmetric graded_metric (1 / 10 ^ 8) = Ok true <->
  assemble_tensor false graded_metric (fun A => (mget A 0 1 - mget A 1 0) ^ 2)
  < 1 / 10 ^ 8 * assemble_tensor false graded_metric (fun A => Rabs (det A)).
Proof.
  apply (is_symmetric_dimension_2 graded_metric (1 / 10 ^ 8)).
  - reflexivity.
  - apply total_determinant_pos; [apply (valid_iso_field 1 1 49); lra|simpl; lia].
Defined.

Lemma msym_eval_tensor (n : nat) (data : list Mat) (phi : list (nat * R)) :
  Forall (msym n) data -> msym n (eval_tensor n data phi).
Proof.
  intros Hs i j Hi Hj. rewrite !mget_eval_tensor by assumption.
  apply lincomb_ext. intros kp _.
  destruct (Nat.lt_ge_cases (fst kp) (length data)) as [Hk|Hk].
  - rewrite Forall_forall in Hs. apply (Hs (nth (fst kp) data [])); try assumption.
    now apply nth_In.
  - rewrite nth_overflow by assumption. unfold mget.
    destruct i, j; reflexivity.
Qed.

Lemma is_symmetric_of_msym (M : Function Mat) (rtol : R) :
  (1 <= topological_dimension (fs_mesh (function_space M)) <= 3)%nat ->
  Forall (msym (topological_dimension (fs_mesh (function_space M)))) (dat M) ->
  assemble_tensor false M (fun A => Rabs (det A)) <> 0 ->
  0 < rtol ->
  is_symmetric M rtol = Ok true.
Proof.
  intros Hn Hs Htot Hr. apply is_symmetric_no_error; try assumption.
  unfold assemble_tensor.
  apply (weighted_sum_zero
           (fun phi => Rabs (det (madd (eval_tensor _ (dat M) phi)
                                       (mscale (-1) (mtrans _ (eval_tensor _ (dat M) phi))))))).
  intros wp _.
  rewrite (det_antisymmetric_sym _ _ Hn); [apply Rabs_R0|apply wf_mmk|].
  now apply msym_eval_tensor.
Qed.

(** X11. A field whose nodal values are symmetric passes the symmetry
    test, for every positive tolerance, whenever the integral of the
    absolute determinant is not zero. *)
Theorem is_symmetric_accepts_symmetric (M : Function Mat) (rtol : R) :
  (1 <= topological_dimension (fs_mesh (function_space M)) <= 3)%nat ->
  Forall (msym (topological_dimension (fs_mesh (function_space M)))) (dat M) ->
  assemble_tensor false M (fun A => Rabs (det A)) <> 0 ->
  0 < rtol ->
  is_symmetric M rtol = Ok true.
Proof. exact (is_symmetric_of_msym M rtol). Qed.

Lemma is_symmetric_accepts_symmetric_witness :
  is_symmetric graded_metric (1 / 10 ^ 8) = Ok true.
Proof.
  assert (Hv : valid_metric graded_metric) by (apply (valid_iso_field 1 1 49); lra).
  apply (is_symmetric_accepts_symmetric graded_metric (1 / 10 ^ 8)).
  - simpl. lia.
  - destruct Hv as (_ & _ & _ & Hspd).
    eapply Forall_impl; [|exact Hspd]. intros A HA. apply HA.
  - apply Rgt_not_eq, total_determinant_pos; [exact Hv|simpl; lia].
  - apply Rdiv_lt_0_compat; [lra|]. apply pow_lt. lra.
Defined.

(** ** The positive-definiteness test *)

Lemma fold_left_Rmin_pos (l : list R) (x : R) :
  0 < fold_left Rmin l x <-> 0 < x /\ Forall (fun y => 0 < y) l.
Proof.
  revert x. induction l as [|y l IH]; intros x; simpl.
  - split; [intros H; split; [assumption|apply Forall_nil]|tauto].
  - rewrite IH. split.
    + intros [Hm Hl]. unfold Rmin in Hm.
      destruct (Rle_dec x y); (split; [lra|apply Forall_cons; [lra|assumption]]).
    + intros [Hx Hl]. apply Forall_cons_iff in Hl. destruct Hl as [Hy Hl].
      split; [|assumption]. unfold Rmin. destruct (Rle_dec x y); assumption.
Qed.

Lemma array_min_pos (v : list R) :
  v <> [] ->
  exists m, array_min v = Ok m /\ (0 < m <-> Forall (fun y => 0 < y) v).
Proof.
  destruct v as [|x rest]; [contradiction|]. intros _.
  eexists. split; [reflexivity|]. rewrite fold_left_Rmin_pos.
  split; [intros [? ?]; now apply Forall_cons|].
  intros H. now apply Forall_cons_iff in H.
Qed.

Lemma map_node_values {A B : Type} (f : A -> B) (d : A) (l : list A) :
  map (fun k => f (nth k l d)) (seq 0 (length l)) = map f l.
Proof.
  induction l as [|a l IH]; [reflexivity|].
  simpl. f_equal. rewrite <- seq_shift, map_map. exact IH.
Qed.

Lemma concat_nonempty (n : nat) (ls : list (list R)) :
  (1 <= n)%nat -> ls <> [] -> Forall (fun l => length l = n) ls -> concat ls <> [].
Proof.
  intros Hn Hne HF. destruct ls as [|l ls]; [contradiction|].
  apply Forall_inv in HF. destruct l; [simpl in HF; lia|discriminate].
Qed.

Lemma eigenvalues_pos_def (eig : nat -> Mat -> Mat * list R) (n : nat) (A : Mat) :
  eig_ok eig n A ->
  (Forall (fun y => 0 < y) (snd (eig n A)) <-> pos_def n A).
Proof.
  intros (HV & Hlen & HA). split.
  - intros Hpos. rewrite HA. apply pos_def_recompose; [assumption|].
    intros k Hk. rewrite Forall_forall in Hpos. apply Hpos, nth_In. lia.
  - intros Hpd. rewrite HA in Hpd. apply Forall_forall. intros y Hy.
    destruct (In_nth _ _ 0 Hy) as [k [Hk <-]].
    apply (spd_eigenvalues_pos n (fst (eig n A))); try assumption. lia.
Qed.

Lemma is_pos_def_cases (eig : nat -> Mat -> Mat * list R) (M : Function Mat)
    (n : nat) :
  topological_dimension (fs_mesh (function_space M)) = n ->
  (1 <= n)%nat ->
  dat M <> [] ->
  length (dat M) = node_count (function_space M) ->
  Forall (eig_ok eig n) (dat M) ->
  exists b, is_pos_def eig M = Ok b /\
            (b = true <-> Forall (pos_def n) (dat M)).
Proof.
  intros Hdim Hn Hne Hlen Hok. unfold is_pos_def, node_set. rewrite Hdim.
  rewrite <- Hlen, (map_node_values (fun A => snd (eig n A))).
  assert (Hneq : concat (map (fun A => snd (eig n A)) (dat M)) <> []).
  { apply (concat_nonempty n); [assumption| |].
    - destruct (dat M); [contradiction|discriminate].
    - apply Forall_map. eapply Forall_impl; [|exact Hok].
      intros A (_ & HA & _). exact HA. }
  destruct (array_min_pos _ Hneq) as [m [-> Hm]]. cbn [bind].
  eexists. split; [reflexivity|].
  assert (Hall : Forall (fun y => 0 < y) (concat (map (fun A => snd (eig n A)) (dat M)))
                 <-> Forall (pos_def n) (dat M)).
  { rewrite Forall_concat, Forall_map. split; intros H.
    - rewrite Forall_forall in *. intros A HA.
      apply (eigenvalues_pos_def eig); auto.
    - rewrite Forall_forall in *. intros A HA.
      apply (eigenvalues_pos_def eig); auto. }
  rewrite <- Hall, <- Hm.
  destruct (Rlt_dec 0 m); split; intros H; try reflexivity; try assumption;
    try discriminate; contradiction.
Qed.

(** X12. With an eigensolver that is exact on the nodal values,
    [is_pos_def] returns, and it returns [True] exactly when every nodal
    value is positive-definite. *)
Theorem is_pos_def_iff (eig : nat -> Mat -> Mat * list R) (M : Function Mat)
    (n : nat) :
  topological_dimension (fs_mesh (function_space M)) = n ->
  (1 <= n)%nat ->
  dat M <> [] ->
  length (dat M) = node_count (function_space M) ->
  Forall (eig_ok eig n) (dat M) ->
  exists b, is_pos_def eig M = Ok b /\
            (b = true <-> Forall (pos_def n) (dat M)).
Proof. exact (is_pos_def_cases eig M n). Qed.

Lemma is_pos_def_iff_witness :
  exists b, is_pos_def diag_eig example_hessian = Ok b /\
            (b = true <-> Forall (pos_def 2) (dat example_hessian)).
Proof.
  apply (is_pos_def_iff diag_eig example_hessian 2).
  - reflexivity.
  - simpl. lia.
  - discriminate.
  - reflexivity.
  - repeat (apply Forall_cons; [apply diag_eig_ok|]). apply Forall_nil.
Defined.

(** ** The combined test *)

(** X13. For a field of symmetric nodal values, an eigensolver exact on
    them and a determinant of non-zero integral, [check_spd] returns
    without error exactly when every nodal value is positive-definite,
    and [is_spd] returns [True] in exactly that case. *)
Theorem check_spd_iff (eig : nat -> Mat -> Mat * list R) (M : Function Mat)
    (n : nat) :
  topological_dimension (fs_mesh (function_space M)) = n ->
  (1 <= n <= 3)%nat ->
  dat M <> [] ->
  length (dat M) = node_count (function_space M) ->
  Forall (fun A => msym n A /\ eig_ok eig n A) (dat M) ->
  assemble_tensor false M (fun A => Rabs (det A)) <> 0 ->
  (check_spd eig M = Ok tt <-> Forall (pos_def n) (dat M)) /\
  (is_spd eig M = Ok true <-> Forall (pos_def n) (dat M)).
Proof.
  intros Hdim Hn Hne Hlen HF Htot.
  assert (Hsym : is_symmetric M (1 / 10 ^ 8) = Ok true).
  { apply is_symmetric_of_msym; try assumption.
    - now rewrite Hdim.
    - rewrite Hdim. eapply Forall_impl; [|exact HF]. now intros A [HA _].
    - apply Rdiv_lt_0_compat; [lra|]. apply pow_lt. lra. }
  assert (Hok : Forall (eig_ok eig n) (dat M))
    by (eapply Forall_impl; [|exact HF]; now intros A [_ HA]).
  destruct (is_pos_def_cases eig M n Hdim (proj1 Hn) Hne Hlen Hok) as [b [Hb Hiff]].
  unfold check_spd, is_spd. rewrite Hsym. cbn [bind]. rewrite Hb. cbn [bind].
  rewrite <- Hiff.
  destruct b; split; split; intros H; try reflexivity; discriminate.
Qed.

Lemma check_spd_iff_witness :
  (check_spd diag_eig graded_metric = Ok tt <-> Forall (pos_def 2) (dat graded_metric)) /\
  (is_spd diag_eig graded_metric = Ok true <-> Forall (pos_def 2) (dat graded_metric)).
Proof.
  apply (check_spd_iff diag_eig graded_metric 2).
  - reflexivity.
  - lia.
  - discriminate.
  - reflexivity.
  - repeat (apply Forall_cons;
            [split; [apply spd_iso2; lra|exact (diag_eig_ok _ _)]|]).
    apply Forall_nil.
  - apply Rgt_not_eq, total_determinant_pos;
      [apply (valid_iso_field 1 1 49); lra|simpl; lia].
Defined.

(** ** Density and quotients *)

Lemma product_pos (l : list R) : Forall (fun x => 0 < x) l -> 0 < product l.
Proof.
  induction 1 as [|x l Hx _ IH]; unfold product; simpl; [lra|].
  now apply Rmult_lt_0_compat.
Qed.

Lemma product_inv_sqrt (l : list R) :
  Forall (fun x => 0 < x) l ->
  product (map (fun x => 1 / sqrt x) l) = 1 / sqrt (product l).
Proof.
  induction 1 as [|x l Hx Hl IH]; unfold product in *; simpl.
  - rewrite sqrt_1. field.
  - rewrite IH. pose proof (product_pos l Hl) as HP. unfold product in HP.
    rewrite sqrt_mult by lra.
    assert (0 < sqrt x) by now apply sqrt_lt_R0.
    assert (0 < sqrt (fold_right Rmult 1 l)) by now apply sqrt_lt_R0.
    field. split; lra.
Qed.

Lemma product_scaled_pow (d : R) (n : nat) (l : list R) :
  product (map (fun x => d * x ^ n) l) = d ^ length l * product l ^ n.
Proof.
  induction l as [|x l IH]; unfold product in *; simpl.
  - rewrite pow1. ring.
  - rewrite IH, Rpow_mult_distr. ring.
Qed.

Lemma Rpower_sqrt_pow (x : R) (n : nat) :
  0 < x -> (1 <= n)%nat -> Rpower (sqrt x ^ n) (2 / INR n) = x.
Proof.
  intros Hx Hn.
  assert (Hs : 0 < sqrt x) by now apply sqrt_lt_R0.
  assert (Hn0 : INR n <> 0) by (apply not_0_INR; lia).
  rewrite <- Rpower_pow by assumption.
  rewrite Rpower_mult.
  replace (INR n * (2 / INR n)) with 2 by (field; assumption).
  rewrite Rpower_2 by assumption. apply sqrt_sqrt. lra.
Qed.

Lemma density_and_quotients_node
    (eig eig_reordered : nat -> Mat -> Mat * list R) (prod : list R -> R)
    (metric : Function Mat) (reorder : bool) (k : nat) (lam : list R) :
  (forall l, l <> [] -> prod l = product l) ->
  (1 <= topological_dimension (fs_mesh (function_space metric)))%nat ->
  (k < node_count (function_space metric))%nat ->
  snd ((if reorder then eig_reordered else eig)
         (topological_dimension (fs_mesh (function_space metric)))
         (nth k (dat metric) [])) = lam ->
  length lam = topological_dimension (fs_mesh (function_space metric)) ->
  Forall (fun l => 0 < l) lam ->
  exists d q,
    nth_error (dat (fst (density_and_quotients eig eig_reordered prod metric reorder))) k
    = Some d /\
    nth_error (dat (snd (density_and_quotients eig eig_reordered prod metric reorder))) k
    = Some q /\
    d = sqrt (product lam) /\
    length q = topological_dimension (fs_mesh (function_space metric)) /\
    product q = 1 /\
    forall i, (i < topological_dimension (fs_mesh (function_space metric)))%nat ->
              nth i lam 0
              = Rpower (d / nth i q 0)
                       (2 / INR (topological_dimension (fs_mesh (function_space metric)))).
Proof.
  intros Hprod Hdim Hk Hlam Hlen Hpos.
  set (dim := topological_dimension (fs_mesh (function_space metric))) in *.
  unfold density_and_quotients. fold dim. cbn [fst snd dat].
  set (kernel := if reorder then eig_reordered dim else eig dim).
  assert (Hkernel : snd (kernel (nth k (dat metric) [])) = lam)
    by (unfold kernel; destruct reorder; exact Hlam).
  set (hs := map (fun x => 1 / sqrt x) lam).
  assert (Hh : map (fun i => 1 / sqrt (nth i lam 0)) (seq 0 dim) = hs).
  { rewrite <- Hlen. apply (map_node_values (fun x => 1 / sqrt x)). }
  assert (Hne : hs <> []).
  { unfold hs. destruct lam; [simpl in Hlen; lia|discriminate]. }
  pose proof (product_pos lam Hpos) as HP.
  assert (HsP : 0 < sqrt (product lam)) by now apply sqrt_lt_R0.
  assert (Hd : 1 / prod hs = sqrt (product lam)).
  { rewrite Hprod by assumption. unfold hs. rewrite product_inv_sqrt by assumption.
    field. lra. }
  unfold node_set. rewrite !map_map.
  rewrite !nth_error_map, nth_error_seq.
  destruct (Nat.ltb_spec k (node_count (function_space metric))) as [_|]; [|lia].
  cbn [option_map Nat.add]. rewrite Hkernel, Hh, Hd.
  eexists. eexists. split; [reflexivity|]. split; [reflexivity|].
  split; [reflexivity|]. split; [|split].
  - unfold hs. now rewrite !length_map.
  - rewrite product_scaled_pow. unfold hs at 1. rewrite length_map, Hlen.
    rewrite <- Rpow_mult_distr. unfold hs. rewrite product_inv_sqrt by assumption.
    replace (sqrt (product lam) * (1 / sqrt (product lam))) with 1 by (field; lra).
    apply pow1.
  - intros i Hi.
    assert (Hli : 0 < nth i lam 0).
    { rewrite Forall_forall in Hpos. apply Hpos, nth_In. lia. }
    assert (Hsi : 0 < sqrt (nth i lam 0)) by now apply sqrt_lt_R0.
    set (f := fun hi => sqrt (product lam) * hi ^ dim).
    set (g := fun x => 1 / sqrt x).
    assert (E : nth i (map f hs) 0 = f (g (nth i lam 0))).
    { unfold hs. fold g.
      rewrite (nth_indep _ 0 (f (g 0))) by (rewrite !length_map; lia).
      now rewrite (map_nth f), (map_nth g). }
    rewrite E. unfold f, g.
    replace (sqrt (product lam) / (sqrt (product lam) * (1 / sqrt (nth i lam 0)) ^ dim))
      with (sqrt (nth i lam 0) ^ dim).
    + symmetry. now apply Rpower_sqrt_pow.
    + unfold Rdiv at 2. rewrite Rmult_1_l, pow_inv. field.
      split; [apply pow_nonzero|]; lra.
Qed.

(** X14. Density and quotients encode the eigenvalues: at a node whose
    kernel eigenvalues [lam] are positive, the density is
    [sqrt (prod lam)], the quotients multiply to 1, and each eigenvalue is
    recovered as [(density / quotient_i)^(2/dim)]. *)
Theorem density_and_quotients_round_trip
    (eig eig_reordered : nat -> Mat -> Mat * list R) (prod : list R -> R)
    (metric : Function Mat) (reorder : bool) (k : nat) (lam : list R) :
  (forall l, l <> [] -> prod l = product l) ->
  (1 <= topological_dimension (fs_mesh (function_space metric)))%nat ->
  (k < node_count (function_space metric))%nat ->
  snd ((if reorder then eig_reordered else eig)
         (topological_dimension (fs_mesh (function_space metric)))
         (nth k (dat metric) [])) = lam ->
  length lam = topological_dimension (fs_mesh (function_space metric)) ->
  Forall (fun l => 0 < l) lam ->
  exists d q,
    nth_error (dat (fst (density_and_quotients eig eig_reordered prod metric reorder))) k
    = Some d /\
    nth_error (dat (snd (density_and_quotients eig eig_reordered prod metric reorder))) k
    = Some q /\
    d = sqrt (product lam) /\
    length q = topological_dimension (fs_mesh (function_space metric)) /\
    product q = 1 /\
    forall i, (i < topological_dimension (fs_mesh (function_space metric)))%nat ->
              nth i lam 0
              = Rpower (d / nth i q 0)
                       (2 / INR (topological_dimension (fs_mesh (function_space metric)))).
Proof.
  exact (density_and_quotients_node eig eig_reordered prod metric reorder k lam).
Qed.

Lemma density_and_quotients_round_trip_witness :
  exists d q,
    nth_error (dat (fst (density_and_quotients diag_eig diag_eig product
                           graded_metric false))) 2 = Some d /\
    nth_error (dat (snd (density_and_quotients diag_eig diag_eig product
                           graded_metric false))) 2 = Some q /\
    d = sqrt (product [49; 49]) /\
    length q = 2%nat /\
    product q = 1 /\
    forall i, (i < 2)%nat -> nth i [49; 49] 0 = Rpower (d / nth i q 0) (2 / INR 2).
Proof.
  apply (density_and_quotients_round_trip diag_eig diag_eig product
           graded_metric false 2 [49; 49]).
  - reflexivity.
  - simpl. lia.
  - unfold node_count. simpl. lia.
  - reflexivity.
  - reflexivity.
  - repeat (apply Forall_cons; [lra|]). apply Forall_nil.
Defined.

(** ** Determinant of a recomposition *)

Lemma det_mmul (n : nat) (A B : Mat) :
  (1 <= n <= 3)%nat -> length A = n -> length B = n ->
  det (mmul n A B) = det A * det B.
Proof.
  intros Hn HA HB. unfold det at 1. unfold mmul at 1. rewrite length_mmk.
  unfold det. rewrite HA, HB.
  destruct n as [|[|[|[|n]]]]; try lia;
    rewrite !mget_mmul by lia; simpl; ring.
Qed.

Lemma det_mtrans (n : nat) (A : Mat) :
  (1 <= n <= 3)%nat -> length A = n -> det (mtrans n A) = det A.
Proof.
  intros Hn HA. unfold det. unfold mtrans at 1. rewrite length_mmk, HA.
  destruct n as [|[|[|[|n]]]]; try lia;
    rewrite !mget_mtrans by lia; ring.
Qed.

Lemma det_mid (n : nat) : (1 <= n <= 3)%nat -> det (mid n) = 1.
Proof.
  intros Hn. unfold det. unfold mid at 1. rewrite length_mmk.
  destruct n as [|[|[|[|n]]]]; try lia;
    rewrite !mget_mid by lia; simpl; ring.
Qed.

Lemma det_mdiag (n : nat) (lam : list R) :
  (1 <= n <= 3)%nat -> length lam = n -> det (mdiag n lam) = product lam.
Proof.
  intros Hn Hl. unfold det. unfold mdiag at 1. rewrite length_mmk.
  destruct n as [|[|[|[|n]]]]; try lia;
    rewrite !mget_mdiag by lia;
    repeat (destruct lam as [|? lam]; try discriminate);
    unfold product; simpl; ring.
Qed.

Lemma det_recompose (n : nat) (V : Mat) (lam : list R) :
  (1 <= n <= 3)%nat -> orthogonal n V -> length lam = n ->
  det (recompose n V lam) = product lam.
Proof.
  intros Hn ([HlV _] & HVtV & _) Hl. unfold recompose.
  rewrite !det_mmul; try assumption;
    try (unfold mmul, mtrans, mdiag; apply length_mmk).
  rewrite det_mdiag, det_mtrans by assumption.
  assert (E : det V * det V = 1).
  { rewrite <- (det_mtrans n V) at 1 by assumption.
    rewrite <- (det_mmul n); try assumption; [|unfold mtrans; apply length_mmk].
    rewrite HVtV. now apply det_mid. }
  replace (det V * product lam * det V) with (det V * det V * product lam) by ring.
  rewrite E. ring.
Qed.

(** X15. At a node whose value is positive-definite and on which the
    chosen kernel is exact, the density is the square root of the
    determinant of the metric, in dimension 1, 2 or 3. *)
Theorem density_is_sqrt_det
    (eig eig_reordered : nat -> Mat -> Mat * list R) (prod : list R -> R)
    (metric : Function Mat) (reorder : bool) (k : nat) :
  (forall l, l <> [] -> prod l = product l) ->
  (1 <= topological_dimension (fs_mesh (function_space metric)) <= 3)%nat ->
  (k < node_count (function_space metric))%nat ->
  eig_ok (if reorder then eig_reordered else eig)
         (topological_dimension (fs_mesh (function_space metric)))
         (nth k (dat metric) []) ->
  pos_def (topological_dimension (fs_mesh (function_space metric)))
          (nth k (dat metric) []) ->
  nth_error (dat (fst (density_and_quotients eig eig_reordered prod metric reorder))) k
  = Some (sqrt (det (nth k (dat metric) []))).
Proof.
  intros Hprod Hdim Hk Hok Hpd.
  set (dim := topological_dimension (fs_mesh (function_space metric))) in *.
  set (A := nth k (dat metric) []) in *.
  set (kernel := if reorder then eig_reordered else eig) in *.
  pose proof (proj2 (eigenvalues_pos_def kernel dim A Hok) Hpd) as Hpos.
  destruct Hok as (HV & Hlen & HA).
  destruct (density_and_quotients_node eig eig_reordered prod metric reorder k
              (snd (kernel dim A)))
    as (d & q & Hd & _ & Hval & _); try assumption; try reflexivity.
  - fold dim. lia.
  - rewrite Hd, Hval. f_equal. f_equal.
    rewrite HA at 2. symmetry. now apply det_recompose.
Qed.

Lemma density_is_sqrt_det_witness :
  nth_error (dat (fst (density_and_quotients diag_eig diag_eig product
                         graded_metric true))) 2
  = Some (sqrt (det (nth 2 (dat graded_metric) []))).
Proof.
  apply (density_is_sqrt_det diag_eig diag_eig product graded_metric true 2).
  - reflexivity.
  - simpl. lia.
  - unfold node_count. simpl. lia.
  - exact (diag_eig_ok 49 49).
  - apply (spd_iso2 49). lra.
Defined.

(** ** Weighted combinations of metrics *)

Lemma length_vadd (u v : list R) :
  length u = length v -> length (vadd u v) = length u.
Proof.
  intros H. unfold vadd. rewrite length_map, length_combine, <- H. apply Nat.min_id.
Qed.

Lemma wf_madd (n : nat) (A B : Mat) : wf n A -> wf n B -> wf n (madd A B).
Proof.
  intros [HlA HA] [HlB HB]. split.
  - rewrite length_madd; congruence.
  - unfold madd. apply Forall_map, Forall_forall. intros [r s] Hin. simpl.
    rewrite Forall_forall in HA, HB.
    pose proof (in_combine_l _ _ _ _ Hin) as Hr.
    pose proof (in_combine_r _ _ _ _ Hin) as Hs.
    rewrite length_vadd; rewrite (HA r Hr); [reflexivity|]. now rewrite (HB s Hs).
Qed.

Lemma quad_madd (n : nat) (A B : Mat) (x : list R) :
  wf n A -> wf n B -> quad n (madd A B) x = quad n A x + quad n B x.
Proof.
  intros HA HB. unfold quad. rewrite <- rsum_plus. apply rsum_ext. intros i Hi.
  rewrite <- rsum_plus. apply rsum_ext. intros j Hj.
  rewrite (mget_madd n) by assumption. ring.
Qed.

Lemma msym_madd_scaled (n : nat) (w : R) (Y X : Mat) :
  wf n Y -> wf n X -> msym n Y -> msym n X -> msym n (madd Y (mscale w X)).
Proof.
  intros HY HX HsY HsX i j Hi Hj.
  rewrite !(mget_madd n), !mget_mscale by (try assumption; now apply wf_mscale).
  now rewrite (HsY i j), (HsX i j).
Qed.

(** Adding a positive multiple of a positive-definite tensor. *)
Lemma spd_axpy (n : nat) (w : R) (Y X : Mat) :
  0 < w -> spd n X -> pos_semidef n Y \/ spd n Y -> spd n (madd Y (mscale w X)).
Proof.
  intros Hw (HwX & HsX & HpX) HY.
  assert (HY' : wf n Y /\ msym n Y /\ forall x, 0 <= quad n Y x).
  { destruct HY as [HY|(H1 & H2 & H3)]; [exact HY|].
    split; [assumption|]. split; [assumption|]. intros x.
    destruct (Req_dec (quad n Y x) 0) as [->|Hne]; [lra|].
    left. apply H3. unfold quad in Hne.
    destruct (rsum_nonzero _ _ Hne) as [i [Hi Hne']].
    exists i. split; [assumption|]. intros E.
    apply Hne'. transitivity (rsum n (fun _ => 0)); [|apply rsum_zero].
    apply rsum_ext. intros j _. rewrite E. ring. }
  destruct HY' as (HwY & HsY & HqY).
  split; [apply wf_madd; [assumption|now apply wf_mscale]|].
  split; [now apply msym_madd_scaled|].
  intros x Hx. rewrite quad_madd, quad_mscale by (try assumption; now apply wf_mscale).
  specialize (HqY x). specialize (HpX x Hx).
  assert (0 < w * quad n X x) by now apply Rmult_lt_0_compat. lra.
Qed.

Lemma field_axpy_Forall (P Q S : Mat -> Prop) (w : R) (x y : list Mat) :
  length y = length x -> Forall P y -> Forall Q x ->
  (forall a b, P a -> Q b -> S (madd a (mscale w b))) ->
  length (field_axpy w x y) = length x /\ Forall S (field_axpy w x y).
Proof.
  intros Hl HP HQ H. unfold field_axpy. split.
  - rewrite length_map, length_combine, Hl. apply Nat.min_id.
  - revert x Hl HQ. induction HP as [|a y Ha _ IH]; intros [|b x] Hl HQ;
      try discriminate; simpl; [apply Forall_nil|].
    apply Forall_cons_iff in HQ. destruct HQ as [Hb HQ].
    apply Forall_cons; [now apply H|]. apply IH; [now injection Hl|assumption].
Qed.

Lemma pos_semidef_mzero (n : nat) : pos_semidef n (mzero n).
Proof.
  split; [apply wf_mmk|]. split.
  - intros i j Hi Hj. unfold mzero. now rewrite !mget_mmk.
  - intros x. unfold quad. apply rsum_nonneg. intros i Hi.
    apply rsum_nonneg. intros j Hj. unfold mzero. rewrite mget_mmk by assumption. lra.
Qed.

Section RelaxationSPD.
Variable interpolate : Function Mat -> option FunctionSpace -> result (Function Mat).
Variables (fs : FunctionSpace) (fso : option FunctionSpace).

Lemma relaxation_loop_spd (ws : list R) (metrics : list (Function Mat))
    (acc : list Mat) :
  Forall (fun M => valid_metric M /\ function_space M = fs) metrics ->
  Forall (fun w => 0 < w) ws ->
  length acc = node_count fs ->
  Forall (spd (topological_dimension (fs_mesh fs))) acc ->
  exists out, relaxation_loop interpolate fs fso (combine ws metrics) acc = Ok out /\
              length out = node_count fs /\
              Forall (spd (topological_dimension (fs_mesh fs))) out.
Proof.
  intros HM. revert ws acc.
  induction HM as [|M Ms [HvM HfM] _ IH]; intros ws acc Hws Hl Hacc.
  - destruct ws; simpl; eauto.
  - destruct Hws as [|w ws Hw Hws]; [simpl; eauto|].
    cbn [combine relaxation_loop]. rewrite HfM, fs_eqb_refl. cbn [bind].
    destruct HvM as (_ & _ & HlM & HsM). rewrite HfM in HlM, HsM.
    destruct (field_axpy_Forall (spd (topological_dimension (fs_mesh fs)))
                (spd (topological_dimension (fs_mesh fs)))
                (spd (topological_dimension (fs_mesh fs))) w (dat M) acc)
      as [Hl' HF']; try assumption; [congruence| |].
    + intros a b Ha Hb. apply spd_axpy; auto.
    + apply IH; try assumption. congruence.
Qed.

Lemma relaxation_loop_from_zero (ws : list R) (metrics : list (Function Mat))
    (acc : list Mat) :
  metrics <> [] -> ws <> [] ->
  Forall (fun M => valid_metric M /\ function_space M = fs) metrics ->
  Forall (fun w => 0 < w) ws ->
  length acc = node_count fs ->
  Forall (pos_semidef (topological_dimension (fs_mesh fs))) acc ->
  exists out, relaxation_loop interpolate fs fso (combine ws metrics) acc = Ok out /\
              length out = node_count fs /\
              Forall (spd (topological_dimension (fs_mesh fs))) out.
Proof.
  intros Hm Hw HM Hws Hl Hacc.
  destruct HM as [|M Ms [HvM HfM] HMs]; [contradiction|].
  destruct Hws as [|w ws Hw0 Hws]; [contradiction|].
  cbn [combine relaxation_loop]. rewrite HfM, fs_eqb_refl. cbn [bind].
  destruct HvM as (_ & _ & HlM & HsM). rewrite HfM in HlM, HsM.
  destruct (field_axpy_Forall (pos_semidef (topological_dimension (fs_mesh fs)))
              (spd (topological_dimension (fs_mesh fs)))
              (spd (topological_dimension (fs_mesh fs))) w (dat M) acc)
    as [Hl' HF']; try assumption; [congruence| |].
  - intros a b Ha Hb. apply spd_axpy; auto.
  - apply relaxation_loop_spd; try assumption. congruence.
Qed.

End RelaxationSPD.

Lemma zeros_pos_semidef (fs : FunctionSpace) (n : nat) :
  value_shape fs = [n; n] ->
  length (zeros fs) = node_count fs /\ Forall (pos_semidef n) (zeros fs).
Proof.
  intros Hs. unfold zeros. rewrite Hs. simpl nth. split; [apply repeat_length|].
  apply Forall_forall. intros A HA. apply repeat_spec in HA. subst.
  apply pos_semidef_mzero.
Qed.

Lemma metric_relaxation_positive
    (interpolate : Function Mat -> option FunctionSpace -> result (Function Mat))
    (fs : FunctionSpace) (metrics : list (Function Mat)) (weights : option (list R)) :
  metrics <> [] ->
  Forall (fun M => valid_metric M /\ function_space M = fs) metrics ->
  (forall ws, weights = Some ws -> ws <> [] ->
              length ws = length metrics /\ Forall (fun w => 0 < w) ws) ->
  exists M', metric_relaxation interpolate metrics weights None = Ok M' /\
             function_space M' = fs /\
             valid_metric M'.
Proof.
  intros Hne HM Hw. unfold metric_relaxation.
  destruct metrics as [|first rest] eqn:Em; [contradiction|]. rewrite <- Em in *.
  set (n := length metrics).
  set (ws := match weights with
             | Some (w :: ws) => w :: ws
             | _ => repeat (1 / INR n) n
             end).
  assert (Hws : length ws = n /\ Forall (fun w => 0 < w) ws /\ ws <> []).
  { assert (Hn : (1 <= n)%nat) by (unfold n; rewrite Em; simpl; lia).
    assert (Hdef : length (repeat (1 / INR n) n) = n /\
                   Forall (fun w => 0 < w) (repeat (1 / INR n) n) /\
                   repeat (1 / INR n) n <> []).
    { split; [apply repeat_length|]. split.
      - apply Forall_forall. intros w Hin. apply repeat_spec in Hin. subst.
        apply Rdiv_lt_0_compat; [lra|]. apply lt_0_INR. lia.
      - destruct n; [lia|discriminate]. }
    unfold ws. destruct weights as [[|w l]|]; try exact Hdef.
    destruct (Hw (w :: l) eq_refl ltac:(discriminate)) as [H1 H2].
    split; [exact H1|]. split; [exact H2|discriminate]. }
  destruct Hws as (Hlen & Hpos & Hwne).
  replace (match weights with
           | Some (w :: ws0) => w :: ws0
           | _ => repeat (1 / INR n) n
           end) with ws by reflexivity.
  rewrite Hlen, Nat.eqb_refl. cbn [negb].
  assert (Hfirst : valid_metric first /\ function_space first = fs).
  { rewrite Em in HM. now apply Forall_inv in HM. }
  destruct Hfirst as [Hvf Hff]. rewrite Hff.
  destruct Hvf as (Hmesh & Hshape & _ & _). rewrite Hff in Hmesh, Hshape.
  destruct (zeros_pos_semidef fs _ Hshape) as [Hlz Hpz].
  destruct (relaxation_loop_from_zero interpolate fs None ws metrics (zeros fs))
    as (out & Hrun & Hlo & Hspd); try assumption.
  rewrite Hrun. cbn [bind]. eexists. split; [reflexivity|]. split; [reflexivity|].
  split; [exact Hmesh|]. split; [exact Hshape|]. split; assumption.
Qed.

(** X16. A weighted combination with positive weights keeps a metric a
    metric: for a non-empty list of valid metrics on one function space
    and as many positive weights, [metric_relaxation] returns a valid
    metric on that space (the weights need not add up to one). *)
Theorem metric_relaxation_spd
    (interpolate : Function Mat -> option FunctionSpace -> result (Function Mat))
    (fs : FunctionSpace) (metrics : list (Function Mat)) (ws : list R) :
  metrics <> [] ->
  Forall (fun M => valid_metric M /\ function_space M = fs) metrics ->
  length ws = length metrics ->
  Forall (fun w => 0 < w) ws ->
  exists M', metric_relaxation interpolate metrics (Some ws) None = Ok M' /\
             function_space M' = fs /\
             valid_metric M'.
Proof.
  intros Hne HM Hlen Hpos.
  apply metric_relaxation_positive; try assumption.
  intros ws' E _. injection E as <-. now split.
Qed.

Lemma metric_relaxation_spd_witness :
  exists M', metric_relaxation interpolate_stub
               [graded_metric; iso_field 2 3 4] (Some [3; / 2]) None = Ok M' /\
             function_space M' = tensor_space triangle_mesh P1 /\
             valid_metric M'.
Proof.
  apply (metric_relaxation_spd interpolate_stub (tensor_space triangle_mesh P1)
           [graded_metric; iso_field 2 3 4] [3; / 2]).
  - discriminate.
  - apply Forall_cons; [|apply Forall_cons; [|apply Forall_nil]].
    + split; [apply (valid_iso_field 1 1 49); lra|reflexivity].
    + split; [apply (valid_iso_field 2 3 4); lra|reflexivity].
  - reflexivity.
  - apply Forall_cons; [lra|apply Forall_cons; [lra|apply Forall_nil]].
Defined.

(** X17. The average of a non-empty list of valid metrics on one function
    space is a valid metric on that space. *)
Theorem metric_average_valid
    (interpolate : Function Mat -> option FunctionSpace -> result (Function Mat))
    (fs : FunctionSpace) (metrics : list (Function Mat)) :
  metrics <> [] ->
  Forall (fun M => valid_metric M /\ function_space M = fs) metrics ->
  exists M', metric_average interpolate metrics None = Ok M' /\
             function_space M' = fs /\
             valid_metric M'.
Proof.
  intros Hne HM. unfold metric_average.
  apply metric_relaxation_positive; try assumption.
  intros ws' E. discriminate.
Qed.

Lemma metric_average_valid_witness :
  exists M', metric_average interpolate_stub
               [graded_metric; iso_field 2 3 4; graded_metric] None = Ok M' /\
             function_space M' = tensor_space triangle_mesh P1 /\
             valid_metric M'.
Proof.
  apply (metric_average_valid interpolate_stub (tensor_space triangle_mesh P1)
           [graded_metric; iso_field 2 3 4; graded_metric]).
  - discriminate.
  - repeat (apply Forall_cons;
            [split; [apply valid_iso_field; lra|reflexivity]|]).
    apply Forall_nil.
Defined.

Lemma madd_swap (n : nat) (Z A B : Mat) :
  wf n Z -> wf n A -> wf n B ->
  madd (madd Z A) B = madd (madd Z B) A.
Proof.
  intros HZ HA HB.
  apply (mat_ext n); try (repeat apply wf_madd; assumption).
  intros i j Hi Hj.
  rewrite !(mget_madd n) by (try assumption; now apply wf_madd). ring.
Qed.

Lemma field_axpy_swap (n : nat) (w : R) (Z A B : list Mat) :
  length A = length Z -> length B = length Z ->
  Forall (wf n) Z -> Forall (wf n) A -> Forall (wf n) B ->
  field_axpy w B (field_axpy w A Z) = field_axpy w A (field_axpy w B Z).
Proof.
  intros HlA HlB HZ. revert A B HlA HlB.
  induction HZ as [|z Z Hz _ IH]; intros [|a A] [|b B] HlA HlB HA HB;
    try discriminate; [reflexivity|].
  apply Forall_cons_iff in HA, HB. destruct HA as [Ha HA], HB as [Hb HB].
  unfold field_axpy in *. simpl. f_equal.
  - apply (madd_swap n); try assumption; now apply wf_mscale.
  - apply IH; try assumption; [now injection HlA|now injection HlB].
Qed.

(** X18. The average of two valid metrics on one function space does not
    depend on their order. *)
Theorem metric_average_comm
    (interpolate : Function Mat -> option FunctionSpace -> result (Function Mat))
    (A B : Function Mat) :
  valid_metric A -> valid_metric B ->
  function_space A = function_space B ->
  metric_average interpolate [A; B] None = metric_average interpolate [B; A] None.
Proof.
  intros (_ & HsA & HlA & HA) (_ & _ & HlB & HB) Hfs.
  unfold metric_average, metric_relaxation.
  cbn [length repeat Nat.eqb negb combine relaxation_loop].
  rewrite <- Hfs, !fs_eqb_refl. cbn [bind].
  rewrite <- Hfs in HlB, HB.
  set (n := topological_dimension (fs_mesh (function_space A))) in *.
  destruct (zeros_pos_semidef _ _ HsA) as [Hlz Hpz]. fold n in Hpz.
  rewrite (field_axpy_swap n); try congruence.
  - eapply Forall_impl; [|exact Hpz]. now intros Z [HZ _].
  - eapply Forall_impl; [|exact HA]. now intros Z [HZ _].
  - eapply Forall_impl; [|exact HB]. now intros Z [HZ _].
Qed.

Lemma metric_average_comm_witness :
  metric_average interpolate_stub [graded_metric; iso_field 2 3 4] None
  = metric_average interpolate_stub [iso_field 2 3 4; graded_metric] None.
Proof.
  apply (metric_average_comm interpolate_stub graded_metric (iso_field 2 3 4)).
  - apply (valid_iso_field 1 1 49); lra.
  - apply (valid_iso_field 2 3 4); lra.
  - reflexivity.
Defined.

(** ** Errors and node sets of the intersection *)

Section IntersectionEdges.

Variable interpolate : Function Mat -> option FunctionSpace -> result (Function Mat).
Variable eigenbasis : nat -> Mat -> Mat -> Mat.
Variable inverse : nat -> Mat -> Mat.

Lemma interpolate_operands_one_space (first : loc) (rest : list loc)
    (f0 : Function Mat) (values : list (Function Mat)) (h : heap) :
  nth_error h first = Some f0 ->
  operands h rest values ->
  Forall (fun f => function_space f = function_space f0) values ->
  interpolate_operands interpolate (function_space f0) None (first :: rest) h
  = Ok (tt, h).
Proof.
  intros Hfirst Hops Hfs.
  apply (interpolate_operands_same_space interpolate _ None (first :: rest)
           (f0 :: values)).
  - constructor; assumption.
  - constructor; [apply fs_eqb_refl|].
    eapply Forall_impl; [|exact Hfs]. intros f ->. apply fs_eqb_refl.
Qed.

(** X19. Errors of [metric_intersection] on operands of one function
    space: no operand is an assertion error; an empty list of boundary
    tags is a [ValueError], raised before the dimension is looked at; a
    mesh of dimension other than 2 or 3 is an assertion error. *)
Theorem metric_intersection_errors (first : loc) (rest : list loc)
    (f0 : Function Mat) (values : list (Function Mat))
    (boundary_tag : option (list nat)) (h : heap) :
  nth_error h first = Some f0 ->
  operands h rest values ->
  Forall (fun f => function_space f = function_space f0) values ->
  boundary_tag = Some [] \/
  (topological_dimension (fs_mesh (function_space f0)) <> 2%nat /\
   topological_dimension (fs_mesh (function_space f0)) <> 3%nat) ->
  metric_intersection interpolate eigenbasis inverse (first :: rest) None boundary_tag h
  = Raise (match boundary_tag with
           | Some [] => ValueError
           | _ => AssertionError
           end) /\
  metric_intersection interpolate eigenbasis inverse [] None boundary_tag h
  = Raise AssertionError.
Proof.
  intros Hfirst Hops Hfs Hcase. split; [|reflexivity].
  unfold metric_intersection, bindS.
  rewrite (load_ok h first f0 Hfirst).
  rewrite (interpolate_operands_one_space first rest f0 values h) by assumption.
  unfold new_function.
  destruct boundary_tag as [[|t ts]|]; [reflexivity| |];
    (destruct Hcase as [E|[H2 H3]]; [discriminate|]);
    unfold ret, lift;
    destruct (Nat.eqb_spec (topological_dimension (fs_mesh (function_space f0))) 2);
    destruct (Nat.eqb_spec (topological_dimension (fs_mesh (function_space f0))) 3);
    try contradiction; reflexivity.
Qed.

Lemma fold_par_loop2_off_nodes (K : Mat -> Mat -> Mat) (nodes : list nat)
    (others : list (Function Mat)) (d0 : list Mat) (k : nat) :
  existsb (Nat.eqb k) nodes = false ->
  nth k (fold_left (fun acc f => par_loop2 K nodes acc acc (dat f)) others d0) []
  = nth k d0 [].
Proof.
  intros Hk. revert d0. induction others as [|f others IH]; intros d0; simpl;
    [reflexivity|].
  rewrite IH. destruct (Nat.lt_ge_cases k (length d0)) as [Hlt|Hge].
  - rewrite nth_par_loop2 by assumption. now rewrite Hk.
  - rewrite !nth_overflow; try assumption; [reflexivity|].
    now rewrite length_par_loop2.
Qed.

(** X20. With a non-empty list of boundary tags, the intersection touches
    only the nodes of the tagged boundary: at every other node the result
    holds the value of the first metric. *)
Theorem metric_intersection_off_boundary (first : loc) (rest : list loc)
    (f0 : Function Mat) (values : list (Function Mat))
    (tags : list nat) (h : heap) (k : nat) :
  nth_error h first = Some f0 ->
  operands h rest values ->
  Forall (fun f => function_space f = function_space f0) values ->
  tags <> [] ->
  topological_dimension (fs_mesh (function_space f0)) = 2%nat \/
  topological_dimension (fs_mesh (function_space f0)) = 3%nat ->
  existsb (Nat.eqb k) (boundary_node_set (function_space f0) tags) = false ->
  exists l t r,
    metric_intersection interpolate eigenbasis inverse (first :: rest) None (Some tags) h
    = Ok (l, h ++ t) /\
    nth_error (h ++ t) l = Some r /\
    function_space r = function_space f0 /\
    nth k (dat r) [] = nth k (dat f0) [].
Proof.
  intros Hfirst Hops Hfs Htags Hdim Hk.
  destruct (metric_intersection_run interpolate eigenbasis inverse first rest f0
              values None (Some tags) h Hfirst Hops [])
    as (l & t & Hrun & _ & Hval); try assumption.
  - rewrite app_nil_r.
    now apply (interpolate_operands_one_space first rest f0 values).
  - intros E. injection E as E. contradiction.
  - exists l, t. eexists. split; [exact Hrun|]. split; [exact Hval|].
    split; [reflexivity|]. cbn [dat intersection_value intersection_nodes].
    now apply fold_par_loop2_off_nodes.
Qed.

End IntersectionEdges.

Lemma metric_intersection_errors_witness :
  metric_intersection interpolate_stub canonical_basis canonical_inverse
    [0%nat; 1%nat] None (Some []) example_store
  = Raise ValueError /\
  metric_intersection interpolate_stub canonical_basis canonical_inverse
    [] None (Some []) example_store
  = Raise AssertionError.
Proof.
  apply (metric_intersection_errors interpolate_stub canonical_basis canonical_inverse
           0%nat [1%nat] (iso_field 1 2 3) [iso_field 4 1 2] (Some []) example_store).
  - reflexivity.
  - constructor; [reflexivity|constructor].
  - constructor; [reflexivity|constructor].
  - now left.
Defined.

Lemma metric_intersection_off_boundary_witness :
  exists l t r,
    metric_intersection interpolate_stub canonical_basis canonical_inverse
      [0%nat; 1%nat] None (Some [1%nat]) example_store
    = Ok (l, example_store ++ t) /\
    nth_error (example_store ++ t) l = Some r /\
    function_space r = function_space (iso_field 1 2 3) /\
    nth 2 (dat r) [] = nth 2 (dat (iso_field 1 2 3)) [].
Proof.
  apply (metric_intersection_off_boundary interpolate_stub canonical_basis
           canonical_inverse 0%nat [1%nat] (iso_field 1 2 3) [iso_field 4 1 2]
           [1%nat] example_store 2).
  - reflexivity.
  - constructor; [reflexivity|constructor].
  - constructor; [reflexivity|constructor].
  - discriminate.
  - now left.
  - reflexivity.
Defined.

(** ** Shape check and idempotence of the Hessian repair *)

(** X21. [hessian_metric] returns exactly on a square value shape of
    rank 2, whatever the eigensolver and the nodal values: then the result
    lives on the same space and has one value per node; on any other
    shape the call is a [ValueError]. *)
Theorem hessian_metric_shape (eig : nat -> Mat -> Mat * list R) (eps : R)
    (H : Function Mat) :
  ((exists M, hessian_metric eig eps H = Ok M /\
              function_space M = function_space H /\
              length (dat M) = node_count (function_space H))
   <-> exists n, value_shape (function_space H) = [n; n]) /\
  (hessian_metric eig eps H = Raise ValueError
   <-> ~ exists n, value_shape (function_space H) = [n; n]).
Proof.
  assert (Hsq : forall n, value_shape (function_space H) = [n; n] ->
                exists M, hessian_metric eig eps H = Ok M /\
                          function_space M = function_space H /\
                          length (dat M) = node_count (function_space H)).
  { intros n Hs. unfold hessian_metric. rewrite Hs. simpl.
    rewrite Nat.eqb_refl. simpl.
    eexists. split; [reflexivity|]. split; [reflexivity|].
    simpl. rewrite length_par_loop1. unfold zeros. apply repeat_length. }
  assert (Hns : (~ exists n, value_shape (function_space H) = [n; n]) ->
                hessian_metric eig eps H = Raise ValueError).
  { intros Hs. unfold hessian_metric.
    destruct (value_shape (function_space H)) as [|a [|b [|c l]]];
      try reflexivity.
    simpl. destruct (Nat.eqb_spec a b) as [->|]; [|reflexivity].
    destruct Hs. now exists b. }
  split; split.
  - intros (M & HM & _). 
    destruct (value_shape (function_space H)) as [|a [|b [|c l]]] eqn:E;
      try (unfold hessian_metric in HM; rewrite E in HM; discriminate).
    destruct (Nat.eq_dec a b) as [->|Hab]; [now exists b|].
    unfold hessian_metric in HM. rewrite E in HM. simpl in HM.
    destruct (Nat.eqb_spec a b); [contradiction|discriminate].
  - intros [n Hs]. now apply (Hsq n).
  - intros HR [n Hs]. destruct (Hsq n Hs) as (M & HM & _). congruence.
  - exact Hns.
Qed.

Lemma hessian_metric_map (eig : nat -> Mat -> Mat * list R) (eps : R)
    (n : nat) (H : Function Mat) :
  value_shape (function_space H) = [n; n] ->
  length (dat H) = node_count (function_space H) ->
  hessian_metric eig eps H
  = Ok {| function_space := function_space H;
          dat := map (metric_from_hessian eig eps n) (dat H) |}.
Proof.
  intros Hshape Hlen. unfold hessian_metric. rewrite Hshape. simpl length. simpl nth.
  rewrite !Nat.eqb_refl. simpl negb. cbv iota. unfold node_set.
  rewrite (par_loop1_whole _ (node_count (function_space H)))
    by (try assumption; unfold zeros; apply repeat_length).
  reflexivity.
Qed.

(** X22. Repairing twice is repairing once: when the eigensolver is exact
    on the nodal values of the Hessian and on their repaired values,
    [hessian_metric] applied to its own result returns that result. *)
Theorem hessian_metric_idempotent (eig : nat -> Mat -> Mat * list R) (eps : R)
    (n : nat) (H : Function Mat) :
  0 < eps ->
  value_shape (function_space H) = [n; n] ->
  length (dat H) = node_count (function_space H) ->
  Forall (fun S => eig_ok eig n S /\
                   eig_ok eig n (metric_from_hessian eig eps n S)) (dat H) ->
  exists M, hessian_metric eig eps H = Ok M /\
            hessian_metric eig eps M = Ok M.
Proof.
  intros He Hshape Hlen Heig.
  rewrite (hessian_metric_map eig eps n H) by assumption.
  eexists. split; [reflexivity|].
  rewrite (hessian_metric_map eig eps n); simpl;
    [|assumption|now rewrite length_map].
  f_equal. f_equal. rewrite map_map.
  apply map_ext_in. intros S HS. rewrite Forall_forall in Heig.
  destruct (Heig S HS) as [Hok Hok'].
  destruct (metric_from_hessian_spd eig eps n S He Hok) as [HS' _].
  now apply metric_from_hessian_fixes_spd.
Qed.

Lemma metric_from_hessian_diag2 (eps a b : R) :
  metric_from_hessian diag_eig eps 2 (diag2 a b)
  = diag2 (clamp_eigenvalue eps a) (clamp_eigenvalue eps b).
Proof.
  unfold metric_from_hessian, diag_eig, recompose, mmul, mtrans, mdiag, mid, mmk,
    mget, diag2.
  simpl. list_eq.
Qed.

Lemma hessian_metric_idempotent_witness :
  exists M, hessian_metric diag_eig (/ 1000) example_hessian = Ok M /\
            hessian_metric diag_eig (/ 1000) M = Ok M.
Proof.
  apply (hessian_metric_idempotent diag_eig (/ 1000) 2 example_hessian).
  - lra.
  - reflexivity.
  - reflexivity.
  - repeat (apply Forall_cons;
            [split; [apply diag_eig_ok
                    |rewrite metric_from_hessian_diag2; apply diag_eig_ok]|]).
    apply Forall_nil.
Defined.



(** ** Element constraints on a list of metrics *)

Section ConstraintsMany.

Variable clement : Function R -> Function R.
Variable postproc : nat -> Mat -> R -> R -> R -> Mat.
Variables (a b c : R) (tag : option (list nat)).

Lemma constrain_metric_numbers (metric : Function Mat) :
  valid_mesh (fs_mesh (function_space metric)) ->
  (0 < num_vertices (fs_mesh (function_space metric)))%nat ->
  ((0 < a /\ a < b /\ 1 < c) /\
   exists M, constrain_metric clement postproc metric (Number a) (Number b) (Number c)
               tag false = Ok M /\ function_space M = function_space metric) \/
  (~ (0 < a /\ a < b /\ 1 < c) /\
   constrain_metric clement postproc metric (Number a) (Number b) (Number c) tag false
   = Raise AssertionError).
Proof.
  intros Hmesh Hnv.
  assert (Hne : forall r : R, repeat r (num_vertices (fs_mesh (function_space metric))) <> []).
  { intros r. destruct (num_vertices (fs_mesh (function_space metric))); [lia|discriminate]. }
  destruct (constrain_metric_cases clement postproc metric (Number a) (Number b)
              (Number c) tag (Hne a) (Hne b) (Hne c)) as [[[Hacc [M HM]]|[Hrej HM]] _].
  - left. split; [now apply (bounds_accepted_numbers clement _ a b c Hmesh Hnv)|].
    exists M. split; [exact HM|].
    unfold constrain_metric in HM.
    destruct (check_bounds _ _ _ _); cbn [bind] in HM; [|discriminate].
    now inversion HM.
  - right. split; [|exact HM]. intros Hok. apply Hrej.
    now apply (bounds_accepted_numbers clement _ a b c Hmesh Hnv).
Qed.


Lemma constrain_all_numbers (optimise : bool) (metrics : list (Function Mat)) :
  Forall (fun M => valid_mesh (fs_mesh (function_space M)) /\
                   (0 < num_vertices (fs_mesh (function_space M)))%nat) metrics ->
  optimise = true \/ (0 < a /\ a < b /\ 1 < c) ->
  exists Ms,
    constrain_all clement postproc metrics
      (repeat (Number a) (length metrics)) (repeat (Number b) (length metrics))
      (repeat (Number c) (length metrics)) tag optimise = Ok Ms /\
    map (@function_space Mat) Ms = map (@function_space Mat) metrics.
Proof.
  intros HM Hok. induction HM as [|M metrics [Hmesh Hnv] _ IH].
  - exists []. split; reflexivity.
  - cbn [length repeat constrain_all].
    assert (H1 : exists M', constrain_metric clement postproc M (Number a) (Number b)
                              (Number c) tag optimise = Ok M' /\
                            function_space M' = function_space M).
    { destruct optimise; [eexists; split; reflexivity|].
      destruct Hok as [E|Hok]; [discriminate|].
      destruct (constrain_metric_numbers M Hmesh Hnv) as [[_ H]|[Hn _]];
        [exact H|contradiction]. }
    destruct H1 as (M' & -> & HfM). destruct IH as (Ms & -> & HfMs).
    cbn [bind]. exists (M' :: Ms). split; [reflexivity|]. simpl. now rewrite HfM, HfMs.
Qed.

Lemma constrain_all_rejected (metrics : list (Function Mat)) :
  metrics <> [] ->
  Forall (fun M => valid_mesh (fs_mesh (function_space M)) /\
                   (0 < num_vertices (fs_mesh (function_space M)))%nat) metrics ->
  ~ (0 < a /\ a < b /\ 1 < c) ->
  constrain_all clement postproc metrics
    (repeat (Number a) (length metrics)) (repeat (Number b) (length metrics))
    (repeat (Number c) (length metrics)) tag false = Raise AssertionError.
Proof.
  intros Hne HM Hn. destruct HM as [|M metrics [Hmesh Hnv] _]; [contradiction|].
  cbn [length repeat constrain_all].
  destruct (constrain_metric_numbers M Hmesh Hnv) as [[Hok _]|[_ ->]];
    [contradiction|reflexivity].
Qed.

End ConstraintsMany.

(** X23. One set of numeric bounds for a non-empty list of metrics (on
    well-formed meshes with vertices): without [optimise] the call returns
    the metrics, each on its own space, exactly when [0 < h_min < h_max]
    and [a_max > 1], and stops with an assertion error otherwise; with
    [optimise] it returns whatever the bounds. *)
Theorem enforce_element_constraints_numbers
    (clement : Function R -> Function R)
    (postproc : nat -> Mat -> R -> R -> R -> Mat)
    (metrics : list (Function Mat)) (a b c : R) (tag : option (list nat)) :
  metrics <> [] ->
  Forall (fun M => valid_mesh (fs_mesh (function_space M)) /\
                   (0 < num_vertices (fs_mesh (function_space M)))%nat) metrics ->
  ((exists Ms,
       enforce_element_constraints clement postproc metrics
         (Scalar a) (Scalar b) (Scalar c) tag false = Ok Ms /\
       map (@function_space Mat) Ms = map (@function_space Mat) metrics)
   <-> (0 < a /\ a < b /\ 1 < c)) /\
  (enforce_element_constraints clement postproc metrics
     (Scalar a) (Scalar b) (Scalar c) tag false = Raise AssertionError
   <-> ~ (0 < a /\ a < b /\ 1 < c)) /\
  (exists Ms,
      enforce_element_constraints clement postproc metrics
        (Scalar a) (Scalar b) (Scalar c) tag true = Ok Ms /\
      map (@function_space Mat) Ms = map (@function_space Mat) metrics).
Proof.
  intros Hne HM. unfold enforce_element_constraints. cbn [broadcast].
  assert (Hdec : (0 < a /\ a < b /\ 1 < c) \/ ~ (0 < a /\ a < b /\ 1 < c)).
  { destruct (Rlt_dec 0 a); [|right; tauto].
    destruct (Rlt_dec a b); [|right; tauto].
    destruct (Rlt_dec 1 c); [left; tauto|right; tauto]. }
  split; [|split].
  - split.
    + intros (Ms & HMs & _). destruct Hdec as [H|H]; [exact H|].
      rewrite (constrain_all_rejected clement postproc a b c tag metrics Hne HM H)
        in HMs. discriminate.
    + intros Hok. apply constrain_all_numbers; [assumption|now right].
  - split.
    + intros HR Hok.
      destruct (constrain_all_numbers clement postproc a b c tag false metrics HM
                  (or_intror Hok)) as (Ms & HMs & _).
      rewrite HMs in HR. discriminate.
    + intros Hn. now apply constrain_all_rejected.
  - apply constrain_all_numbers; [assumption|now left].
Qed.

Lemma enforce_element_constraints_numbers_witness :
  ((exists Ms,
       enforce_element_constraints clement_patch_average postproc_identity
         [unit_square_metric; graded_metric] (Scalar 1) (Scalar 2) (Scalar 3)
         (Some [1%nat]) false = Ok Ms /\
       map (@function_space Mat) Ms
       = map (@function_space Mat) [unit_square_metric; graded_metric])
   <-> (0 < 1 /\ 1 < 2 /\ 1 < 3)) /\
  (enforce_element_constraints clement_patch_average postproc_identity
     [unit_square_metric; graded_metric] (Scalar 1) (Scalar 2) (Scalar 3)
     (Some [1%nat]) false = Raise AssertionError
   <-> ~ (0 < 1 /\ 1 < 2 /\ 1 < 3)) /\
  (exists Ms,
      enforce_element_constraints clement_patch_average postproc_identity
        [unit_square_metric; graded_metric] (Scalar 1) (Scalar 2) (Scalar 3)
        (Some [1%nat]) true = Ok Ms /\
      map (@function_space Mat) Ms
      = map (@function_space Mat) [unit_square_metric; graded_metric]).
Proof.
  apply (enforce_element_constraints_numbers clement_patch_average postproc_identity
           [unit_square_metric; graded_metric] 1 2 3 (Some [1%nat])).
  - discriminate.
  - apply Forall_cons; [|apply Forall_cons; [|apply Forall_nil]].
    + split; [apply valid_square_mesh|simpl; lia].
    + split; [apply valid_triangle_mesh|simpl; lia].
Defined.

Lemma nth_par_loop_constraints (kernel : Mat -> R -> R -> R -> Mat)
    (nodes : list nat) (out : list Mat) (hmin hmax amax : list R) (k : nat) :
  existsb (Nat.eqb k) nodes = false ->
  nth k (par_loop_constraints kernel nodes out hmin hmax amax) [] = nth k out [].
Proof.
  intros Hk. unfold par_loop_constraints.
  destruct (Nat.lt_ge_cases k (length out)) as [Hlt|Hge].
  - set (f := fun io : nat * Mat =>
                if existsb (Nat.eqb (fst io)) nodes
                then kernel (snd io) (nth (fst io) hmin 0) (nth (fst io) hmax 0)
                            (nth (fst io) amax 0)
                else snd io).
    rewrite (nth_indep _ [] (f (0%nat, [])))
      by now rewrite length_map, length_indexed.
    rewrite (map_nth f), nth_indexed by assumption. unfold f. simpl. now rewrite Hk.
  - rewrite !nth_overflow; try assumption; [reflexivity|].
    now rewrite length_map, length_indexed.
Qed.

(** What a constrained metric keeps of the metric it comes from, for the
    boundary tags [tags]. *)
Lemma constrain_metric_off_nodes
    (clement : Function R -> Function R)
    (postproc : nat -> Mat -> R -> R -> R -> Mat)
    (metric : Function Mat) (hmin hmax amax : hval) (tags : list nat)
    (optimise : bool) (M : Function Mat) :
  constrain_metric clement postproc metric hmin hmax amax (Some tags) optimise = Ok M ->
  function_space M = function_space metric /\
  length (dat M) = length (dat metric) /\
  forall k, existsb (Nat.eqb k) (boundary_node_set (function_space metric) tags) = false ->
            nth k (dat M) [] = nth k (dat metric) [].
Proof.
  unfold constrain_metric. intros HM.
  destruct (if optimise then Ok tt else check_bounds _ _ _ _); cbn [bind] in HM;
    [|discriminate].
  inversion HM; subst; clear HM. cbn [function_space dat].
  split; [reflexivity|]. split.
  - unfold par_loop_constraints. now rewrite length_map, length_indexed.
  - intros k Hk. now apply nth_par_loop_constraints.
Qed.

Lemma constrain_all_off_nodes
    (clement : Function R -> Function R)
    (postproc : nat -> Mat -> R -> R -> R -> Mat)
    (ha hb hc : hval) (tags : list nat) (optimise : bool)
    (metrics : list (Function Mat)) :
  forall Ms,
    constrain_all clement postproc metrics
      (repeat ha (length metrics)) (repeat hb (length metrics))
      (repeat hc (length metrics)) (Some tags) optimise = Ok Ms ->
    Forall2 (fun M M' =>
               function_space M' = function_space M /\
               length (dat M') = length (dat M) /\
               forall k, existsb (Nat.eqb k)
                           (boundary_node_set (function_space M) tags) = false ->
                         nth k (dat M') [] = nth k (dat M) [])
            metrics Ms.
Proof.
  induction metrics as [|M metrics IH]; intros Ms HMs.
  - inversion HMs. constructor.
  - cbn [length repeat constrain_all] in HMs.
    destruct (constrain_metric clement postproc M ha hb hc (Some tags) optimise)
      as [M'|] eqn:EM; cbn [bind] in HMs; [|discriminate].
    destruct (constrain_all clement postproc metrics _ _ _ (Some tags) optimise)
      as [Ms'|] eqn:EMs; cbn [bind] in HMs; [|discriminate].
    inversion HMs; subst. constructor; [|now apply IH].
    now apply (constrain_metric_off_nodes clement postproc M ha hb hc tags optimise).
Qed.

(** X24. With boundary tags the constraints are enforced on the tagged
    boundary nodes only: for numeric bounds that pass the validation (or
    with [optimise]), every metric returned lives on the space of its
    argument, has as many nodal values, and agrees with it at every node
    outside the tagged boundary. *)
Theorem enforce_element_constraints_off_boundary
    (clement : Function R -> Function R)
    (postproc : nat -> Mat -> R -> R -> R -> Mat)
    (metrics : list (Function Mat)) (a b c : R) (tags : list nat) (optimise : bool) :
  Forall (fun M => valid_mesh (fs_mesh (function_space M)) /\
                   (0 < num_vertices (fs_mesh (function_space M)))%nat) metrics ->
  optimise = true \/ (0 < a /\ a < b /\ 1 < c) ->
  exists Ms,
    enforce_element_constraints clement postproc metrics
      (Scalar a) (Scalar b) (Scalar c) (Some tags) optimise = Ok Ms /\
    Forall2 (fun M M' =>
               function_space M' = function_space M /\
               length (dat M') = length (dat M) /\
               forall k, existsb (Nat.eqb k)
                           (boundary_node_set (function_space M) tags) = false ->
                         nth k (dat M') [] = nth k (dat M) [])
            metrics Ms.
Proof.
  intros HM Hok. unfold enforce_element_constraints. cbn [broadcast].
  destruct (constrain_all_numbers clement postproc a b c (Some tags) optimise metrics
              HM Hok) as (Ms & HMs & _).
  exists Ms. split; [exact HMs|].
  now apply (constrain_all_off_nodes clement postproc (Number a) (Number b) (Number c)
               tags optimise).
Qed.

Lemma enforce_element_constraints_off_boundary_witness :
  exists Ms,
    enforce_element_constraints clement_patch_average postproc_identity
      [unit_square_metric; iso_cell_field 4] (Scalar 1) (Scalar 2) (Scalar 3)
      (Some [1%nat]) false = Ok Ms /\
    Forall2 (fun M M' =>
               function_space M' = function_space M /\
               length (dat M') = length (dat M) /\
               forall k, existsb (Nat.eqb k)
                           (boundary_node_set (function_space M) [1%nat]) = false ->
                         nth k (dat M') [] = nth k (dat M) [])
            [unit_square_metric; iso_cell_field 4] Ms.
Proof.
  apply (enforce_element_constraints_off_boundary clement_patch_average
           postproc_identity [unit_square_metric; iso_cell_field 4] 1 2 3 [1%nat] false).
  - apply Forall_cons; [|apply Forall_cons; [|apply Forall_nil]].
    + split; [apply valid_square_mesh|simpl; lia].
    + split; [apply valid_triangle_mesh|simpl; lia].
  - right. lra.
Defined.

(** ** The estimator end to end *)

Lemma arguments_replace_expr (mapping : list (FunctionSpace * NamedFunction))
    (e : Expr) :
  Forall (fun a => fst a = 0%nat /\
                   exists kv, find (fun kv => fs_eqb (fst kv) (snd a)) mapping = Some kv)
         (arguments e) ->
  arguments (replace_expr mapping e) = [].
Proof.
  induction e as [nm|n V| |e IH s|e1 IH1 e2 IH2|e1 IH1 e2 IH2|op e IH];
    simpl; intros H; try reflexivity; auto.
  - apply Forall_inv in H. destruct H as [Hn [kv Hkv]]. simpl in Hn, Hkv.
    subst n. now rewrite Hkv.
  - apply Forall_app in H. destruct H as [H1 H2]. now rewrite IH1, IH2.
  - apply Forall_app in H. destruct H as [H1 H2]. now rewrite IH1, IH2.
Qed.

Lemma replace_zero_form (mapping : list (FunctionSpace * NamedFunction)) (F : Form) :
  Forall (fun I =>
            Forall (fun a => fst a = 0%nat /\
                             exists kv, find (fun kv => fs_eqb (fst kv) (snd a)) mapping
                                        = Some kv)
                   (arguments (integrand I))) F ->
  is_zero_form (replace F mapping).
Proof.
  intros H. unfold is_zero_form, replace. apply Forall_map.
  eapply Forall_impl; [|exact H]. intros I HI. simpl.
  now apply arguments_replace_expr.
Qed.

Lemma replace_domain_integral (mapping : list (FunctionSpace * NamedFunction))
    (F : Form) :
  (exists I, In I F /\ domain_integral I) ->
  exists J, In J (replace F mapping) /\ domain_integral J.
Proof.
  intros [I [HI Hd]].
  exists {| integral_type := integral_type I; subdomain_id := subdomain_id I;
            integrand := replace_expr mapping (integrand I) |}.
  split; [|exact Hd]. unfold replace.
  apply (in_map (fun I => {| integral_type := integral_type I;
                             subdomain_id := subdomain_id I;
                             integrand := replace_expr mapping (integrand I) |})).
  exact HI.
Qed.

(** X25. The estimator end to end, for an adjoint error given as one
    [Function] and no test space: when the form and the adjoint error
    share the mesh, the form has an integral over cells or facets and
    every argument of the form is a test function of the space of the
    adjoint error, the form handed to [form2indicator] has no argument
    left, and the indicator returned is the P0 field that solves the
    mass-matrix system for the weighted integrals of that form. *)
Theorem get_dwr_indicator_function (ufl_domain : Form -> result Mesh)
    (solve : FunctionSpace -> Form -> list R) (F : Form) (f : NamedFunction)
    (mesh : Mesh) :
  ufl_domain F = Ok mesh ->
  ufl_domain (replace F [(space f, f)]) = Ok mesh ->
  mesh_eqb mesh (fs_mesh (space f)) = true ->
  (exists I, In I F /\ domain_integral I) ->
  Forall (fun I => Forall (fun a => fst a = 0%nat /\ fs_eqb (space f) (snd a) = true)
                          (arguments (integrand I))) F ->
  exists indicator,
    get_dwr_indicator ufl_domain solve (IsForm F) (AdjFunction f) TsNone = Ok indicator /\
    is_zero_form (replace F [(space f, f)]) /\
    function_space indicator = scalar_space mesh P0 /\
    dat indicator
    = solve (scalar_space mesh P0)
            (indicator_rhs (scalar_space mesh P0) (replace F [(space f, f)])).
Proof.
  intros Hdom Hdom' Hmesh Hex Hargs.
  assert (Hzero : is_zero_form (replace F [(space f, f)])).
  { apply replace_zero_form. eapply Forall_impl; [|exact Hargs].
    intros I HI. eapply Forall_impl; [|exact HI].
    intros a [Ha Hfs]. split; [exact Ha|]. exists (space f, f). simpl. now rewrite Hfs. }
  unfold get_dwr_indicator. cbn [bind fst snd map build_mapping].
  unfold lookup. cbn [find fst]. rewrite String.eqb_refl. cbn [option_map snd].
  rewrite Hdom. cbn [bind]. rewrite Hmesh. cbn [negb mapping_set bind].
  unfold form2indicator. rewrite Hdom'. cbn [bind].
  set (P := scalar_space mesh P0).
  rewrite (zero_form_passes (replace F [(space f, f)]))
    by (try assumption; apply visited_in_form).
  cbn [bind].
  destruct (Nat.eqb_spec (length (indicator_rhs P (replace F [(space f, f)]))) 0)
    as [H0|_].
  - exfalso. revert H0. apply indicator_rhs_nonempty.
    now apply replace_domain_integral.
  - cbn [negb assert bind]. eexists. split; [reflexivity|].
    split; [exact Hzero|]. split; reflexivity.
Qed.

Lemma get_dwr_indicator_function_witness :
  exists indicator,
    get_dwr_indicator domain_triangle solve_zero (IsForm residual_form)
      (AdjFunction adjoint_error_z) TsNone = Ok indicator /\
    is_zero_form (replace residual_form [(space adjoint_error_z, adjoint_error_z)]) /\
    function_space indicator = scalar_space triangle_mesh P0 /\
    dat indicator
    = solve_zero (scalar_space triangle_mesh P0)
        (indicator_rhs (scalar_space triangle_mesh P0)
           (replace residual_form [(space adjoint_error_z, adjoint_error_z)])).
Proof.
  apply (get_dwr_indicator_function domain_triangle solve_zero residual_form
           adjoint_error_z triangle_mesh).
  - reflexivity.
  - reflexivity.
  - reflexivity.
  - eexists. split; [left; reflexivity|]. left. reflexivity.
  - repeat (apply Forall_cons;
            [simpl; apply Forall_cons;
             [split; [reflexivity|apply fs_eqb_refl]|apply Forall_nil]|]).
    apply Forall_nil.
Defined.

Lemma filter_filter_implied {A : Type} (p q : A -> bool) (l : list A) :
  (forall x, p x = true -> q x = true) ->
  filter p (filter q l) = filter p l.
Proof.
  intros H. induction l as [|x l IH]; simpl; [reflexivity|].
  destruct (q x) eqn:Eq; simpl.
  - now rewrite IH.
  - destruct (p x) eqn:Ep; [|exact IH]. apply H in Ep. congruence.
Qed.

(** X26. [form2indicator] looks at the integrals over cells, exterior
    facets and interior facets only: integrals of any other type change
    nothing, so the form with those integrals removed gives the same
    result (for a form library that assigns both forms the same
    domain). *)
Theorem form2indicator_ignores_other_integrals (ufl_domain : Form -> result Mesh)
    (solve : FunctionSpace -> Form -> list R) (F : Form) :
  ufl_domain (filter (fun I => match integral_type I with
                               | other_integral _ => false
                               | _ => true
                               end) F)
  = ufl_domain F ->
  form2indicator ufl_domain solve
    (IsForm (filter (fun I => match integral_type I with
                              | other_integral _ => false
                              | _ => true
                              end) F))
  = form2indicator ufl_domain solve (IsForm F).
Proof.
  intros Hdom. unfold form2indicator. rewrite Hdom.
  destruct (ufl_domain F) as [mesh|e]; [|reflexivity]. cbn [bind].
  assert (E : forall P, indicator_rhs P (filter (fun I => match integral_type I with
                                                          | other_integral _ => false
                                                          | _ => true
                                                          end) F)
                        = indicator_rhs P F).
  { intros P. unfold indicator_rhs, integrals_by_type.
    rewrite !filter_filter_implied; [reflexivity| | |];
      intros I HI; destruct (integral_type I); try reflexivity; discriminate. }
  rewrite E. unfold integrals_by_type.
  rewrite !filter_filter_implied; [reflexivity| | |];
    intros I HI; destruct (integral_type I); try reflexivity; discriminate.
Qed.

Lemma form2indicator_ignores_other_integrals_witness :
  form2indicator domain_triangle solve_zero
    (IsForm (filter (fun I => match integral_type I with
                              | other_integral _ => false
                              | _ => true
                              end)
                    (residual_form
                     ++ [ {| integral_type := other_integral "vertex";
                             subdomain_id := 0;
                             integrand := Coefficient "u" |} ])))
  = form2indicator domain_triangle solve_zero
      (IsForm (residual_form
               ++ [ {| integral_type := other_integral "vertex";
                       subdomain_id := 0;
                       integrand := Coefficient "u" |} ])).
Proof.
  apply (form2indicator_ignores_other_integrals domain_triangle solve_zero).
  reflexivity.
Defined.
